(** * Listing scrapers: a shallow embedding of the three scripts

    The repository holds three independent Node.js scripts:
    - the browser-backed Reiki scraper   (src/scrapers/index.js, first half),
    - the Places-API dentist scraper      (src/scrapers/index.js, second half),
    - the browser-backed Hungary dentist scraper.

    JavaScript strings are sequences of UTF-16 code units; they are modelled
    as [list N].  Everything the scripts obtain from the outside (network
    responses, rendered pages, DOM queries answered by puppeteer or cheerio,
    the file system) is read from an explicit world record; an awaited call
    that can reject returns an [outcome]. *)

From Stdlib Require Import List NArith Bool Arith Lia.
From Stdlib Require Import Ascii.
From Stdlib Require String.
Import ListNotations.
Import String.StringSyntax.

Local Open Scope string_scope.
Local Open Scope list_scope.
Local Open Scope nat_scope.

(* ===================================================================== *)
(** ** JavaScript values used by the scripts *)
(* ===================================================================== *)

Module JS.

Definition jsstring := list N.

(** A literal of the source, one code unit per ASCII character. *)
Definition js (s : String.string) : jsstring :=
  map Ascii.N_of_ascii (String.list_ascii_of_string s).

Definition code (a : Ascii.ascii) : N := Ascii.N_of_ascii a.
Arguments code a%_char.

Fixpoint str_eqb (a b : jsstring) : bool :=
  match a, b with
  | [], [] => true
  | x :: a', y :: b' => N.eqb x y && str_eqb a' b'
  | _, _ => false
  end.

(** [!s] is false exactly for the empty string. *)
Definition truthy (s : jsstring) : bool :=
  match s with [] => false | _ => true end.

(** [a || b] on strings. *)
Definition or_else (a b : jsstring) : jsstring :=
  if truthy a then a else b.

(** WhiteSpace and LineTerminator code units, as used by [trim] and [\s]. *)
Definition is_ws (c : N) : bool :=
  ((9 <=? c) && (c <=? 13) || (c =? 32) || (c =? 160) || (c =? 5760)
   || (8192 <=? c) && (c <=? 8202) || (c =? 8232) || (c =? 8233)
   || (c =? 8239) || (c =? 8287) || (c =? 12288) || (c =? 65279))%N.

Fixpoint trimStart (s : jsstring) : jsstring :=
  match s with
  | c :: s' => if is_ws c then trimStart s' else s
  | [] => []
  end.

Definition trimEnd (s : jsstring) : jsstring := rev (trimStart (rev s)).

Definition trim (s : jsstring) : jsstring := trimEnd (trimStart s).

Fixpoint startsWith (s p : jsstring) : bool :=
  match p, s with
  | [], _ => true
  | x :: p', y :: s' => N.eqb x y && startsWith s' p'
  | _ :: _, [] => false
  end.

(** [s.includes(sub)] *)
Fixpoint includes (s sub : jsstring) : bool :=
  startsWith s sub ||
  match s with
  | [] => false
  | _ :: s' => includes s' sub
  end.

(** [s.replace(pat, repl)] with a string pattern: the first occurrence only. *)
Fixpoint replace_str (pat repl s : jsstring) : jsstring :=
  if startsWith s pat then repl ++ skipn (length pat) s
  else match s with
       | [] => []
       | c :: s' => c :: replace_str pat repl s'
       end.

(** [s.split(sep)] for a one-code-unit separator. *)
Fixpoint split (sep : N) (s : jsstring) : list jsstring :=
  match s with
  | [] => [[]]
  | c :: s' =>
      if N.eqb c sep then [] :: split sep s'
      else match split sep s' with
           | piece :: rest => (c :: piece) :: rest
           | [] => [[c]]
           end
  end.

(** [text?.split("\u00b7")?.[1]?.trim() || ""]: the part after the first
    middle dot of a line of a listing block. *)
Definition middot_field (text : jsstring) : jsstring :=
  match nth_error (split 183%N text) 1 with
  | Some piece => or_else (trim piece) []
  | None => []
  end.

(** Exceptions that the scripts raise or receive. *)
Inductive exn : Type :=
| NetworkError          (* rejected navigation, fetch, timeout, closed target *)
| RequestDenied         (* thrown by textSearch *)
| ReferenceError        (* unbound identifier *)
| TypeError
| URIError
| MissingApiKey         (* thrown at module load *)
| IOError.              (* rejected file write *)

(** The result of an awaited call. *)
Inductive outcome (A : Type) : Type :=
| Ok (a : A)
| Throw (e : exn).
Arguments Ok {A} a.
Arguments Throw {A} e.

Definition bind {A B} (x : outcome A) (f : A -> outcome B) : outcome B :=
  match x with
  | Ok a => f a
  | Throw e => Throw e
  end.

(** [try { body } catch { handler }] *)
Definition try_catch {A} (body : outcome A) (handler : exn -> outcome A) : outcome A :=
  match body with
  | Ok a => Ok a
  | Throw e => handler e
  end.

(** [try { body } finally { fin }]: a rejecting [fin] replaces the result. *)
Definition try_finally {A} (body : outcome A) (fin : outcome unit) : outcome A :=
  match fin with
  | Ok _ => body
  | Throw e => Throw e
  end.

(** *** Regular expressions

    Every pattern of the scripts that is modelled is a sequence of quantified
    character classes, optionally anchored; matching is the greedy
    backtracking search of the language. *)

Record cclass := CClass { negated : bool; ranges : list (N * N) }.

Definition in_ranges (rs : list (N * N)) (c : N) : bool :=
  existsb (fun r => (fst r <=? c) && (c <=? snd r))%N rs.

(** Case folding of the [i] flag restricted to the ASCII letters: a code unit
    above 127 never folds onto an ASCII one. *)
Definition swapcase (c : N) : N :=
  (if (65 <=? c) && (c <=? 90) then c + 32
   else if (97 <=? c) && (c <=? 122) then c - 32
   else c)%N.

Definition in_class (ignoreCase : bool) (cc : cclass) (c : N) : bool :=
  let hit := in_ranges (ranges cc) c
             || (ignoreCase && in_ranges (ranges cc) (swapcase c)) in
  if negated cc then negb hit else hit.

Record atom := Atom { cls : cclass; rmin : nat; rmax : option nat }.

Record regex := Regex {
  bol : bool;              (* ^ *)
  atoms : list atom;
  eol : bool;              (* $ *)
  ignoreCase : bool        (* the i flag *)
}.

Definition below (hi : option nat) (n : nat) : bool :=
  match hi with
  | Some h => n <? h
  | None => true
  end.

(** Greedy repetition of one class: take one more code unit if possible and
    fall back to stopping here when the continuation fails. *)
Fixpoint greedy (p : N -> bool) (hi : option nat)
    (k : nat -> jsstring -> option nat) (n : nat) (s : jsstring) : option nat :=
  match s with
  | c :: s' =>
      if p c && below hi n then
        match greedy p hi k (S n) s' with
        | Some r => Some r
        | None => k n s
        end
      else k n s
  | [] => k n s
  end.

(** Length of the match of the atoms at the start of [s]. *)
Fixpoint m_atoms (ic eol : bool) (r : list atom) (s : jsstring) : option nat :=
  match r with
  | [] => if eol then match s with [] => Some 0 | _ => None end else Some 0
  | a :: r' =>
      greedy (in_class ic (cls a)) (rmax a)
        (fun n rest =>
           if rmin a <=? n then option_map (Nat.add n) (m_atoms ic eol r' rest)
           else None)
        0 s
  end.

Definition m_here (r : regex) (i : nat) (s : jsstring) : option nat :=
  if bol r && negb (i =? 0) then None
  else m_atoms (ignoreCase r) (eol r) (atoms r) s.

(** Leftmost match at or after position [i], [s] being the input from [i]
    on: its start index and length. *)
Fixpoint exec_at (r : regex) (i : nat) (s : jsstring) : option (nat * nat) :=
  match m_here r i s with
  | Some n => Some (i, n)
  | None =>
      match s with
      | [] => None
      | _ :: s' => exec_at r (S i) s'
      end
  end.

(** [r.test(s)] for a regex without the [g] flag. *)
Definition test (r : regex) (s : jsstring) : bool :=
  match exec_at r 0 s with Some _ => true | None => false end.

(** [r.test(s)] for a regex with the [g] flag: the search starts at
    [lastIndex], which becomes the end of the match, or 0 on failure. *)
Definition test_g (r : regex) (lastIndex : nat) (s : jsstring) : bool * nat :=
  if length s <? lastIndex then (false, 0)
  else match exec_at r lastIndex (skipn lastIndex s) with
       | Some (i, n) => (true, i + n)
       | None => (false, 0)
       end.

(** [arr.find(e => r.test(e))] for a [g] regex, threading [lastIndex]. *)
Fixpoint find_test_g (r : regex) (lastIndex : nat) (l : list jsstring)
  : option jsstring * nat :=
  match l with
  | [] => (None, lastIndex)
  | e :: l' =>
      let '(b, li) := test_g r lastIndex e in
      if b then (Some e, li) else find_test_g r li l'
  end.

(** All matches of a [g] regex, left to right and not overlapping.  [skip]
    counts the code units of the current match still to be passed. *)
Fixpoint match_from (r : regex) (i : nat) (s : jsstring) (skip : nat)
  : list jsstring :=
  match s with
  | [] =>
      match skip with
      | O => match m_here r i [] with Some _ => [[]] | None => [] end
      | S _ => []
      end
  | c :: s' =>
      match skip with
      | S k => match_from r (S i) s' k
      | O =>
          match m_here r i s with
          | Some n => firstn n s :: match_from r (S i) s' (pred n)
          | None => match_from r (S i) s' 0
          end
      end
  end.

(** [s.match(r)] for a [g] regex: [None] is JavaScript's [null]. *)
Definition str_match (r : regex) (s : jsstring) : option (list jsstring) :=
  match match_from r 0 s 0 with
  | [] => None
  | ms => Some ms
  end.

(** [s.replace(r, repl)] for a regex without the [g] flag. *)
Definition replace_re (r : regex) (repl s : jsstring) : jsstring :=
  match exec_at r 0 s with
  | Some (i, n) => firstn i s ++ repl ++ skipn (i + n) s
  | None => s
  end.

(** [s.replace(r, repl)] for a [g] regex whose matches are not empty. *)
Fixpoint replace_from (r : regex) (repl : jsstring) (i : nat) (s : jsstring)
    (skip : nat) : jsstring :=
  match s with
  | [] => []
  | c :: s' =>
      match skip with
      | S k => replace_from r repl (S i) s' k
      | O =>
          match m_here r i s with
          | Some (S n) => repl ++ replace_from r repl (S i) s' n
          | _ => c :: replace_from r repl (S i) s' 0
          end
      end
  end.

Definition replace_all (r : regex) (repl s : jsstring) : jsstring :=
  replace_from r repl 0 s 0.

(** Class and atom builders. *)
Definition ch (a : Ascii.ascii) : N * N := (code a, code a).
Definition rg (a b : Ascii.ascii) : N * N := (code a, code b).
Definition pos (rs : list (N * N)) : cclass := CClass false rs.
Definition neg (rs : list (N * N)) : cclass := CClass true rs.
Arguments ch a%_char.
Arguments rg (a b)%_char.
Definition lit (a : Ascii.ascii) : atom := Atom (pos [ch a]) 1 (Some 1).
Definition opt (a : Ascii.ascii) : atom := Atom (pos [ch a]) 0 (Some 1).
Arguments lit a%_char.
Arguments opt a%_char.
Definition plus (c : cclass) : atom := Atom c 1 None.
Definition atleast (n : nat) (c : cclass) : atom := Atom c n None.
Definition lits (s : String.string) : list atom :=
  map lit (String.list_ascii_of_string s).

(** The code units matched by [\s]. *)
Definition ws_ranges : list (N * N) :=
  [(9, 13); (32, 32); (160, 160); (5760, 5760); (8192, 8202); (8232, 8233);
   (8239, 8239); (8287, 8287); (12288, 12288); (65279, 65279)]%N.

(** *** decodeURIComponent *)

Definition hexval (c : N) : option N :=
  (if (48 <=? c) && (c <=? 57) then Some (c - 48)
   else if (65 <=? c) && (c <=? 70) then Some (c - 55)
   else if (97 <=? c) && (c <=? 102) then Some (c - 87)
   else None)%N.

(** One escape [%XY] at the start of [s]: its byte and the rest. *)
Definition pct_byte (s : jsstring) : option (N * jsstring) :=
  match s with
  | 37%N :: h :: l :: rest =>
      match hexval h, hexval l with
      | Some a, Some b => Some ((16 * a + b)%N, rest)
      | _, _ => None
      end
  | _ => None
  end.

(** [n] further escapes, each a continuation byte 10xxxxxx, folded into the
    code point accumulated in [acc]. *)
Fixpoint continuation (n : nat) (acc : N) (s : jsstring) : option N :=
  match n with
  | O => Some acc
  | S n' =>
      match pct_byte s with
      | Some (b, rest) =>
          if ((128 <=? b) && (b <=? 191))%N
          then continuation n' (acc * 64 + (b - 128))%N rest
          else None
      | None => None
      end
  end.

Definition utf16 (v : N) : jsstring :=
  (if v <? 65536 then [v]
   else [55296 + (v - 65536) / 1024; 56320 + (v - 65536) mod 1024])%N.

(** A multi-byte sequence whose first byte is [b], [s] being what follows
    its escape: the code point and the number of bytes, when the bytes are a
    well-formed UTF-8 encoding (no overlong form, no surrogate, nothing
    above U+10FFFF). *)
Definition utf8_sequence (b : N) (s : jsstring) : option (N * nat) :=
  (if (192 <=? b) && (b <=? 223) then
     match continuation 1 (b - 192) s with
     | Some v => if 128 <=? v then Some (v, 2%nat) else None
     | None => None
     end
   else if (224 <=? b) && (b <=? 239) then
     match continuation 2 (b - 224) s with
     | Some v =>
         if (2048 <=? v) && negb ((55296 <=? v) && (v <=? 57343))
         then Some (v, 3%nat) else None
     | None => None
     end
   else if (240 <=? b) && (b <=? 247) then
     match continuation 3 (b - 240) s with
     | Some v =>
         if (65536 <=? v) && (v <=? 1114111) then Some (v, 4%nat) else None
     | None => None
     end
   else None)%N.

(** The loop of the decoding.  [skip] counts the code units of the escape
    sequence just decoded that are still to be passed. *)
Fixpoint decode (s : jsstring) (skip : nat) : outcome jsstring :=
  match s with
  | [] => Ok []
  | c :: s' =>
      match skip with
      | S k => decode s' k
      | O =>
          if (c =? 37)%N then
            match pct_byte s with
            | None => Throw URIError
            | Some (b, rest) =>
                if (b <? 128)%N then
                  bind (decode s' 2) (fun r => Ok (b :: r))
                else
                  match utf8_sequence b rest with
                  | None => Throw URIError
                  | Some (v, n) =>
                      bind (decode s' (3 * n - 1)) (fun r => Ok (utf16 v ++ r))
                  end
            end
          else bind (decode s' 0) (fun r => Ok (c :: r))
      end
  end.

Definition decodeURIComponent (s : jsstring) : outcome jsstring := decode s 0.

End JS.

Import JS.

(* ===================================================================== *)
(** ** The browser-backed Reiki scraper (src/scrapers/index.js, first script) *)
(* ===================================================================== *)

Module Reiki.

(** What puppeteer answers on a tab after a navigation: the [href] of every
    [a[href^="mailto:"]] element in document order, and the serialized
    markup.  Both calls are awaited and can reject. *)
Record view := View {
  mailto_hrefs : outcome (list jsstring);   (* page.$$eval('a[href^="mailto:"]', ...) before the map *)
  content : outcome jsstring                (* page.content() *)
}.

Record tab := Tab {
  goto : jsstring -> outcome view;          (* page.goto(targetUrl, ...) *)
  close : outcome unit                      (* page.close() *)
}.

Record browser := Browser {
  newPage : outcome tab                     (* browser.newPage() *)
}.

(** [/[a-zA-Z0-9._%+-]+@[a-zA-Z0-9.-]+\.[a-z]{2,}/gi] *)
Definition emailRegex : regex :=
  Regex false
    [plus (pos [rg "a" "z"; rg "A" "Z"; rg "0" "9"; ch "."; ch "_"; ch "%"; ch "+"; ch "-"]);
     lit "@";
     plus (pos [rg "a" "z"; rg "A" "Z"; rg "0" "9"; ch "."; ch "-"]);
     lit ".";
     atleast 2 (pos [rg "a" "z"])]
    false true.

Definition possiblePaths : list jsstring :=
  [js ""; js "/contact"; js "/contact-us"; js "/about"; js "/about-us"].

(** [/\/$/] *)
Definition trailing_slash : regex := Regex false [lit "/"] true false.

(** [path ? `${url.replace(/\/$/, "")}${path}` : url] *)
Definition targetUrl (url path : jsstring) : jsstring :=
  if truthy path then replace_re trailing_slash [] url ++ path else url.

(** [link.href.replace("mailto:", "").trim()] *)
Definition mailto_target (href : jsstring) : jsstring :=
  trim (replace_str (js "mailto:") [] href).

Definition not_placeholder (e : jsstring) : bool :=
  negb (includes e (js "example.com")) && negb (includes e (js "w3.org")).

(** The text scan of one page: [content.match(emailRegex)] and the first
    match that is not a placeholder. *)
Definition scan_content (content : jsstring) : option jsstring :=
  match str_match emailRegex content with
  | Some matches =>
      match find not_placeholder matches with
      | Some e => if truthy e then Some e else None
      | None => None
      end
  | None => None
  end.

(** One iteration of the loop over [possiblePaths].  [lastIndex] is the state
    of the shared [emailRegex] object.  [Some e] is [return e]; [None] lets
    the loop go on with the lastIndex that [content.match] leaves (0). *)
Definition probe (t : tab) (lastIndex : nat) (target : jsstring)
  : outcome (option jsstring) :=
  bind (goto t target) (fun v =>
  bind (mailto_hrefs v) (fun hrefs =>
    let mailtoLinks := map mailto_target hrefs in
    let found :=
      match mailtoLinks with
      | [] => None
      | _ => fst (find_test_g emailRegex lastIndex mailtoLinks)
      end in
    match found with
    | Some e => if truthy e then Ok (Some e) else
        bind (content v) (fun c => Ok (scan_content c))
    | None => bind (content v) (fun c => Ok (scan_content c))
    end)).

(** The [for (const path of possiblePaths)] loop, with the list of the
    targets that were navigated to. *)
Fixpoint probe_paths (t : tab) (url : jsstring) (lastIndex : nat)
    (paths : list jsstring) : outcome (option jsstring) * list jsstring :=
  match paths with
  | [] => (Ok None, [])
  | path :: rest =>
      let target := targetUrl url path in
      match probe t lastIndex target with
      | Throw e => (Throw e, [target])
      | Ok (Some e) => (Ok (Some e), [target])
      | Ok None =>
          let '(r, tr) := probe_paths t url 0 rest in
          (r, target :: tr)
      end
  end.

(** [scrapeWebsiteForEmail(url, browser)]: the result ([None] is [null]) and
    the navigations made. *)
Definition scrapeWebsiteForEmail (url : jsstring) (b : browser)
  : outcome (option jsstring) * list jsstring :=
  if negb (truthy url) then (Ok None, [])
  else
    match newPage b with
    | Throw e => (Throw e, [])
    | Ok page =>
        let '(r, tr) := probe_paths page url 0 possiblePaths in
        (try_finally (try_catch r (fun _ => Ok None)) (close page), tr)
    end.

(** *** The scraper *)

(** What cheerio answers on one listing container ([parent]). *)
Record container := Container {
  c_href : option jsstring;          (* parent.find("a").attr("href") *)
  c_headline : jsstring;             (* parent.find("div.fontHeadlineSmall").text() *)
  c_firstOfLast : jsstring;          (* firstOfLast.text() *)
  c_lastOfLast : jsstring;           (* lastOfLast.text() *)
  c_websiteLinks : list jsstring     (* href of each a[href*="http"]:not([href*="google.com"]) *)
}.

(** An element of [results]. *)
Record record := Record_ {
  index : nat;
  practitionerName : jsstring;
  address : jsstring;
  phone : jsstring;
  email : option jsstring;           (* null, or a string (empty without a website) *)
  website : jsstring;
  googleUrl : jsstring
}.

(** The outside of the script.  Requests made once per attempt carry the
    country and the number of the attempt. *)
Record world := World {
  launch : outcome unit;                                   (* puppeteerExtra.launch *)
  new_search_page : jsstring -> nat -> outcome unit;       (* browser.newPage() of an attempt *)
  load_listings : jsstring -> nat -> outcome (list container);
      (* page.goto, the race of autoScroll with the 90 s timer, page.content,
         and the containers of the anchors to /maps/place/ *)
  close_search_page : jsstring -> nat -> outcome unit;     (* page.close() in finally *)
  details_website : jsstring -> jsstring;
      (* scrapeListingDetails(page, googleUrl): it catches every exception
         and returns a string *)
  browser_at : jsstring -> browser;   (* the browser as the email scrape of a website finds it *)
  browser_close : outcome unit;                            (* browser.close() *)
  writeRecords : outcome unit                              (* csvWriter.writeRecords(data) *)
}.

Definition countries : list jsstring :=
  [js "England"; js "Ireland"; js "Scotland"; js "Wales"].

Definition cap : nat := 100.

(** The fields read from a container before the first await of an iteration,
    and the website, from the listing or from the details page. *)
Definition listing_website (W : world) (parent : container) : jsstring :=
  match c_websiteLinks parent with
  | href :: _ => or_else href []
  | [] =>
      details_website W (match c_href parent with Some h => or_else h [] | None => [] end)
  end.

(** [website ? await scrapeWebsiteForEmail(website, browser) : ""] *)
Definition listing_email (W : world) (website : jsstring)
  : outcome (option jsstring) :=
  if truthy website then fst (scrapeWebsiteForEmail website (browser_at W website))
  else Ok (Some []).

Definition make_record (idx : nat) (parent : container) (website : jsstring)
    (email : option jsstring) : record :=
  Record_ idx
    (trim (c_headline parent))
    (middot_field (c_firstOfLast parent))
    (middot_field (c_lastOfLast parent))
    email website
    (match c_href parent with Some h => or_else h [] | None => [] end).

(** The four country tasks run interleaved: a task gives way at each await.
    Only three places of a task touch the shared [results]: the test of the
    [while], the push after the awaits of an iteration, and the test after
    the pause of one second.  The control state of a task is the place where
    it is suspended.  The variable [page] is declared outside the [while]:
    it keeps the page of the last attempt that opened one ([Some] of the
    number of that attempt). *)
Inductive pc :=
| AtWhile (attempt : nat) (countrySuccess : bool) (page : option nat)
    (* about to evaluate the condition of the [while] *)
| Fetching (attempt : nat) (parent : container) (todo : list container)
    (* in the awaits of the details page and of the email of [parent] *)
| Pausing (attempt : nat) (todo : list container)
    (* in the pause after the push *)
| Finished
| Crashed (e : exn).
    (* an exception left the task: [Promise.all] rejects *)

Record shared := Shared {
  results : list record;
  next_index : nat                   (* the variable [index] *)
}.

(** [finally { if (page) await page.close(); }] followed by the next
    evaluation of the [while]. *)
Definition leave_attempt (W : world) (country : jsstring) (attempt : nat)
    (countrySuccess : bool) (page : option nat) : pc :=
  match page with
  | None => AtWhile attempt countrySuccess None
  | Some opened =>
      match close_search_page W country opened with
      | Ok _ => AtWhile attempt countrySuccess page
      | Throw e => Crashed e
      end
  end.

(** The head of the [for (const parent of parents)] loop. *)
Definition next_listing (W : world) (country : jsstring) (attempt : nat)
    (todo : list container) : pc :=
  match todo with
  | [] => leave_attempt W country attempt true (Some attempt)
  | parent :: rest => Fetching attempt parent rest
  end.

(** One atomic step of the task of [country]. *)
Definition step (W : world) (country : jsstring) (p : pc) (sh : shared)
  : pc * shared :=
  match p with
  | AtWhile attempt countrySuccess page =>
      if (attempt <? 2) && negb countrySuccess && (length (results sh) <? cap) then
        let attempt := S attempt in
        match new_search_page W country attempt with
        | Throw _ => (leave_attempt W country attempt false page, sh)
        | Ok _ =>
            match load_listings W country attempt with
            | Throw _ => (leave_attempt W country attempt false (Some attempt), sh)
            | Ok parents => (next_listing W country attempt parents, sh)
            end
        end
      else (Finished, sh)
  | Fetching attempt parent todo =>
      let website := listing_website W parent in
      match listing_email W website with
      | Throw _ => (leave_attempt W country attempt false (Some attempt), sh)
      | Ok email =>
          (Pausing attempt todo,
           Shared (results sh ++ [make_record (next_index sh) parent website email])
                  (S (next_index sh)))
      end
  | Pausing attempt todo =>
      if cap <=? length (results sh)
      then (leave_attempt W country attempt true (Some attempt), sh)       (* break *)
      else (next_listing W country attempt todo, sh)
  | Finished => (Finished, sh)
  | Crashed e => (Crashed e, sh)
  end.

(** The tasks, one per country, and the shared variables. *)
Record state := State {
  tasks : list (jsstring * pc);
  store : shared
}.

Definition initial : state :=
  State (List.map (fun c => (c, AtWhile 0 false None)) countries) (Shared [] 1).

(** The task number [i] makes its next step. *)
Definition step_task (W : world) (i : nat) (st : state) : state :=
  match nth_error (tasks st) i with
  | Some (country, p) =>
      let '(p', sh') := step W country p (store st) in
      State (firstn i (tasks st) ++ (country, p') :: skipn (S i) (tasks st)) sh'
  | None => st
  end.

Definition crashed (st : state) : option exn :=
  match find (fun t => match snd t with Crashed _ => true | _ => false end) (tasks st) with
  | Some (_, Crashed e) => Some e
  | _ => None
  end.

Definition all_finished (st : state) : bool :=
  forallb (fun t => match snd t with Finished => true | _ => false end) (tasks st).

(** The tasks run in the order in which the schedule names them, until one
    of them crashes.  A schedule stands for the times at which the awaited
    promises settle, the delayed start of the second and fourth task
    included. *)
Fixpoint run_schedule (W : world) (schedule : list nat) (st : state) : state :=
  match schedule with
  | [] => st
  | i :: rest =>
      match crashed st with
      | Some _ => st
      | None => run_schedule W rest (step_task W i st)
      end
  end.

(** [scrapeReikiPractitioners()] under a schedule; [None] when the schedule
    ends before the tasks do. *)
Definition scrapeReikiPractitioners (W : world) (schedule : list nat)
  : option (outcome (list record)) :=
  match launch W with
  | Throw e => Some (Throw e)
  | Ok _ =>
      let st := run_schedule W schedule initial in
      match crashed st with
      | Some e => Some (Throw e)
      | None =>
          if all_finished st then
            Some (bind (browser_close W) (fun _ => Ok (results (store st))))
          else None
      end
  end.

(** The entry point: the exit status of the process. *)
Definition entry (W : world) (schedule : list nat) : option nat :=
  match scrapeReikiPractitioners W schedule with
  | None => None
  | Some (Throw _) => Some 1
  | Some (Ok data) =>
      match writeRecords W with
      | Ok _ => Some 0
      | Throw _ => Some 1
      end
  end.

End Reiki.

(* ===================================================================== *)
(** ** The Places-API scraper (src/scrapers/index.js, second script) *)
(* ===================================================================== *)

Module Places.

(** The answer of [fetch(url, ...)] for a website: [res.ok], [res.text()],
    and what cheerio finds in that markup for [a[href^='mailto:']] (the
    [href] attributes in document order). *)
Record response := Response {
  ok : bool;
  text : outcome jsstring;
  mailto_hrefs : list jsstring
}.

(** [/^https?:\/\//i] *)
Definition http_scheme : regex :=
  Regex true (lits "http" ++ [opt "s"] ++ lits "://") false true.

(** [/^mailto:/i] *)
Definition mailto_scheme : regex := Regex true (lits "mailto:") false true.

(** [/[^\s@]+@[^\s@]+\.[^\s@]+/] *)
Definition email_shape : regex :=
  let c := neg (ch "@" :: ws_ranges) in
  Regex false [plus c; lit "@"; plus c; lit "."; plus c] false false.

(** [/[a-zA-Z0-9._%+-]+@[a-zA-Z0-9.-]+\.[a-zA-Z]{2,}/g] *)
Definition emailRegex : regex :=
  Regex false
    [plus (pos [rg "a" "z"; rg "A" "Z"; rg "0" "9"; ch "."; ch "_"; ch "%"; ch "+"; ch "-"]);
     lit "@";
     plus (pos [rg "a" "z"; rg "A" "Z"; rg "0" "9"; ch "."; ch "-"]);
     lit ".";
     atleast 2 (pos [rg "a" "z"; rg "A" "Z"])]
    false false.

(** [if (!/^https?:\/\//i.test(url)) url = 'http://' + url] *)
Definition normalize (url : jsstring) : jsstring :=
  if negb (test http_scheme url) then js "http://" ++ url else url.

(** [decodeURIComponent(mailto.replace(/^mailto:/i, '').split('?')[0])] *)
Definition mailto_address (mailto : jsstring) : outcome jsstring :=
  decodeURIComponent (hd [] (split (code "?") (replace_re mailto_scheme [] mailto))).

(** The body of the [try] block once the markup is there. *)
Definition extract_from (html : jsstring) (hrefs : list jsstring)
  : outcome (option jsstring) :=
  let scan :=
    match str_match emailRegex html with
    | Some (e :: _) => Ok (Some e)
    | _ => Ok None
    end in
  match hrefs with
  | mailto :: _ =>
      if truthy mailto then
        bind (mailto_address mailto) (fun em =>
          if test email_shape em then Ok (Some em) else scan)
      else scan
  | [] => scan
  end.

(** [extractEmailFromWebsite(url)]; the argument [None] is [null]. *)
Definition extractEmailFromWebsite (fetch : jsstring -> outcome response)
    (url : option jsstring) : outcome (option jsstring) :=
  match url with
  | None => Ok None
  | Some url =>
      if negb (truthy url) then Ok None
      else
        let url := normalize url in
        try_catch
          (bind (fetch url) (fun res =>
             if negb (ok res) then Ok None
             else bind (text res) (fun html =>
                    extract_from html (mailto_hrefs res))))
          (fun _ => Ok None)
  end.

(** *** The listing phase of [main] *)

(** One entry of [json.results]. *)
Record result := Result {
  r_place_id : jsstring;
  r_name : option jsstring;
  r_formatted_address : option jsstring
}.

(** The body of a text-search answer. *)
Record search_json := SearchJson {
  status : jsstring;
  results : option (list result);
  next_page_token : option jsstring
}.

(** The argument of [textSearch]: [{ location }] or [{ pagetoken }]. *)
Inductive request :=
| ByLocation (q : jsstring)
| ByToken (token : jsstring).

(** [json.result] of a details answer. *)
Record place := Place {
  p_name : option jsstring;
  p_formatted_address : option jsstring;
  p_formatted_phone_number : option jsstring;
  p_website : option jsstring
}.

Record details_json := DetailsJson {
  d_status : jsstring;
  d_result : option place
}.

(** The outside of the script.  A request that is repeated by [pRetry]
    carries the number of the attempt. *)
Record world := World {
  GOOGLE_API_KEY : option jsstring;                     (* process.env *)
  search_api : request -> outcome search_json;          (* fetch + res.json() of a text search *)
  details_api : jsstring -> nat -> outcome details_json;(* fetch + res.json() of a details request *)
  site : jsstring -> outcome response;                  (* fetch of a website *)
  write_json : outcome unit;                            (* fs.writeFile of the JSON file *)
  write_csv : outcome unit                              (* fs.writeFile of the CSV file *)
}.

Record location := Location { loc_name : jsstring; loc_q : jsstring }.

Definition LOCATIONS : list location :=
  [ Location (js "Amsterdam") (js "52.3676,4.9041");
    Location (js "Rotterdam") (js "51.9244,4.4777");
    Location (js "The Hague") (js "52.0705,4.3007");
    Location (js "Utrecht") (js "52.0907,5.1214");
    Location (js "Eindhoven") (js "51.4416,5.4697");
    Location (js "Tilburg") (js "51.5555,5.0913");
    Location (js "Groningen") (js "53.2194,6.5665");
    Location (js "Almere") (js "52.3508,5.2647");
    Location (js "Breda") (js "51.5719,4.7683");
    Location (js "Nijmegen") (js "51.8126,5.8372");
    Location (js "Enschede") (js "52.2215,6.8937");
    Location (js "Apeldoorn") (js "52.2112,5.9699");
    Location (js "Haarlem") (js "52.3874,4.6462");
    Location (js "Arnhem") (js "51.9851,5.8987");
    Location (js "Amersfoort") (js "52.1561,5.3878") ].

(** [textSearch({ location, pagetoken })] *)
Definition textSearch (W : world) (req : request) : outcome search_json :=
  bind (search_api W req) (fun json =>
    if str_eqb (status json) (js "REQUEST_DENIED") then Throw RequestDenied
    else Ok json).

(** The value stored in [records] for a place. *)
Record basic := Basic {
  b_place_id : jsstring;
  b_name : option jsstring;
  b_address : option jsstring
}.

(** A JavaScript [Map] with string keys: its entries in insertion order. *)
Definition Map (V : Type) := list (jsstring * V).

Fixpoint map_get {V} (m : Map V) (k : jsstring) : option V :=
  match m with
  | [] => None
  | (k', v) :: m' => if str_eqb k' k then Some v else map_get m' k
  end.

Definition map_has {V} (m : Map V) (k : jsstring) : bool :=
  match map_get m k with Some _ => true | None => false end.

(** [m.set(k, v)]: an existing key keeps its position. *)
Fixpoint map_set {V} (m : Map V) (k : jsstring) (v : V) : Map V :=
  match m with
  | [] => [(k, v)]
  | (k', v') :: m' =>
      if str_eqb k' k then (k', v) :: m' else (k', v') :: map_set m' k v
  end.

Definition map_size {V} (m : Map V) : nat := length m.

Definition map_keys {V} (m : Map V) : list jsstring := List.map fst m.

(** [if (!records.has(r.place_id)) records.set(r.place_id, {...})] *)
Definition record_result (records : Map basic) (r : result) : Map basic :=
  if negb (map_has records (r_place_id r))
  then map_set records (r_place_id r)
         (Basic (r_place_id r) (r_name r) (r_formatted_address r))
  else records.

(** [for (const r of page.results) ...] *)
Definition record_results (records : Map basic) (rs : list result) : Map basic :=
  fold_left record_result rs records.

(** [if (page.results?.length) { for ... }] *)
Definition record_page (records : Map basic) (page : search_json) : Map basic :=
  match results page with
  | Some (r :: rs) => record_results records (r :: rs)
  | _ => records
  end.

(** A call of [textSearch]: the region being searched, the request,
    [records.size] when the call is issued, and the results of the page that
    came back (none when the call threw). *)
Record search_call := SearchCall {
  call_region : jsstring;
  call_request : request;
  call_size_before : nat;
  call_results : list result
}.

Definition page_results (page : search_json) : list result :=
  match results page with Some rs => rs | None => [] end.

Definition cap : nat := 100.

(** [for (let i = 0; i < 2 && token; i++)]: [n] is the number of iterations
    left.  A rejected request is caught, logged and ends the loop. *)
Fixpoint next_pages (W : world) (region : jsstring) (n : nat)
    (token : option jsstring) (records : Map basic)
  : Map basic * list search_call :=
  match n with
  | O => (records, [])
  | S n' =>
      match token with
      | Some tok =>
          if truthy tok then
            let call := SearchCall region (ByToken tok) (map_size records) in
            match textSearch W (ByToken tok) with
            | Ok next =>
                let '(records', calls) :=
                  next_pages W region n' (next_page_token next)
                    (record_page records next) in
                (records', call (page_results next) :: calls)
            | Throw _ => (records, [call []])
            end
          else (records, [])
      | None => (records, [])
      end
  end.

(** [for (const loc of LOCATIONS)]: the map, or the exception that leaves
    the loop, and the calls made. *)
Fixpoint search_regions (W : world) (locs : list location) (records : Map basic)
  : outcome (Map basic) * list search_call :=
  match locs with
  | [] => (Ok records, [])
  | loc :: rest =>
      if cap <=? map_size records then (Ok records, [])
      else
        let call := SearchCall (loc_name loc) (ByLocation (loc_q loc)) (map_size records) in
        match textSearch W (ByLocation (loc_q loc)) with
        | Throw e => (Throw e, [call []])
        | Ok page =>
            let '(records', calls) :=
              next_pages W (loc_name loc) 2 (next_page_token page)
                (record_page records page) in
            let '(r, calls') := search_regions W rest records' in
            (r, call (page_results page) :: calls ++ calls')
        end
  end.

(** *** The details phase of [main] *)

(** [getPlaceDetails(place_id)], at the given attempt. *)
Definition getPlaceDetails (W : world) (place_id : jsstring) (attempt : nat)
  : outcome (option place) :=
  bind (details_api W place_id attempt) (fun json =>
    if negb (str_eqb (d_status json) (js "OK")) then Ok None
    else Ok (d_result json)).

(** [pRetry(f, { retries })]: [f] is called again after a rejection while
    retries are left; a [TypeError] aborts at once. *)
Fixpoint pRetry {A} (f : nat -> outcome A) (retries : nat) (attempt : nat)
  : outcome A :=
  match f attempt with
  | Ok a => Ok a
  | Throw TypeError => Throw TypeError
  | Throw e =>
      match retries with
      | O => Throw e
      | S r => pRetry f r (S attempt)
      end
  end.

(** An element of [details]. *)
Record detail := Detail {
  place_id : jsstring;
  name : option jsstring;
  address : option jsstring;
  phone : option jsstring;
  website : option jsstring;
  email : option jsstring
}.

(** [a ?? b] *)
Definition nullish {A} (a b : option A) : option A :=
  match a with Some _ => a | None => b end.

(** [placeDetails?.f] *)
Definition opt_field {A} (placeDetails : option place) (f : place -> option A)
  : option A :=
  match placeDetails with Some p => f p | None => None end.

(** The mapper given to [pMap].  [basic] is declared with [const] inside the
    [try] block, so the handler's [basic.name] refers to a name that is not
    bound there: evaluating it throws a ReferenceError, which leaves the
    mapper. *)
Definition process_place (W : world) (records : Map basic) (place_id : jsstring)
  : outcome detail :=
  try_catch
    (let basic :=
       match map_get records place_id with
       | Some b => b
       | None => Basic place_id None None
       end in
     bind (pRetry (getPlaceDetails W place_id) 2 0) (fun placeDetails =>
     let website := nullish (opt_field placeDetails p_website) None in
     let phone := nullish (opt_field placeDetails p_formatted_phone_number) None in
     bind (pRetry (fun _ => extractEmailFromWebsite (site W) website) 1 0) (fun email =>
     Ok (Detail place_id
           (nullish (opt_field placeDetails p_name) (nullish (b_name basic) None))
           (nullish (opt_field placeDetails p_formatted_address)
              (nullish (b_address basic) None))
           phone website email))))
    (fun _error => Throw ReferenceError).

(** [pMap(placeIds, mapper, { concurrency: 3 })]: the results in the order of
    the input; a rejected mapper rejects the whole call. *)
Fixpoint pMap {A B} (f : A -> outcome B) (l : list A) : outcome (list B) :=
  match l with
  | [] => Ok []
  | a :: l' =>
      bind (f a) (fun b => bind (pMap f l') (fun bs => Ok (b :: bs)))
  end.

(** *** The CSV text *)

(** The code unit of the double quote. *)
Definition dquote : N := 34%N.

(** The pattern of the escaping: one double quote, with the [g] flag. *)
Definition quote_g : regex :=
  Regex false [Atom (pos [(dquote, dquote)]) 1 (Some 1)] false false.

(** [arr.join(sep)] *)
Fixpoint join (sep : jsstring) (l : list jsstring) : jsstring :=
  match l with
  | [] => []
  | [x] => x
  | x :: l' => x ++ sep ++ join sep l'
  end.

(** One cell: [(v || '')] with every double quote doubled, between double
    quotes. *)
Definition quoted (v : option jsstring) : jsstring :=
  let v := match v with Some x => or_else x [] | None => [] end in
  [dquote] ++ replace_all quote_g [dquote; dquote] v ++ [dquote].

Definition csv_header : list jsstring :=
  [js "place_id"; js "name"; js "address"; js "phone"; js "website"; js "email"].

Definition csv_row (d : detail) : jsstring :=
  join (js ",")
    [quoted (Some (place_id d)); quoted (name d); quoted (address d);
     quoted (phone d); quoted (website d); quoted (email d)].

Definition csv_text (details : list detail) : jsstring :=
  join [10%N] ([join (js ",") csv_header] ++ List.map csv_row details).

(** *** [main] and the script *)

Inductive file :=
| JsonFile (details : list detail)     (* UK_Ireland_reiki_practitioners.json *)
| CsvFile (text : jsstring).           (* UK_Ireland_reiki_practitioners.csv *)

(** What a call of [main] did: the text searches issued, the places handed to
    the mapper, the files written, and the exception caught by the outer
    handler ('Fatal error'), if any. *)
Record run := Run {
  searches : list search_call;
  placeIds : list jsstring;
  written : list file;
  fatal : option exn
}.

Definition main_from (W : world) (locs : list location) : run :=
  match search_regions W locs [] with
  | (Throw e, calls) => Run calls [] [] (Some e)
  | (Ok records, calls) =>
      let placeIds := firstn 100 (map_keys records) in
      match pMap (process_place W records) placeIds with
      | Throw e => Run calls placeIds [] (Some e)
      | Ok details =>
          match write_json W with
          | Throw e => Run calls placeIds [] (Some e)
          | Ok _ =>
              let csv := csv_text details in
              match write_csv W with
              | Throw e => Run calls placeIds [JsonFile details] (Some e)
              | Ok _ => Run calls placeIds [JsonFile details; CsvFile csv] None
              end
          end
      end
  end.

Definition main (W : world) : run := main_from W LOCATIONS.

(** The module as node runs it: a missing key throws at load time, which
    ends the process with status 1 before [main] is called; otherwise
    [main()] settles without rejecting and the process ends with status 0. *)
Definition script (W : world) : nat * option run :=
  match GOOGLE_API_KEY W with
  | None => (1, None)
  | Some k => if negb (truthy k) then (1, None) else (0, Some (main W))
  end.


End Places.

(* ===================================================================== *)
(** ** The browser-backed Hungary dentist scraper *)
(* ===================================================================== *)

Module Dentists.

(** [response.data] of axios: the body as a string, or a value that is not a
    string (a body that axios parsed as JSON), on which [.match] is not a
    function. *)
Inductive axios_data :=
| Text (s : jsstring)
| Parsed.

(** [/[a-zA-Z0-9._%+-]+@[a-zA-Z0-9.-]+\.[a-z]{2,}/gi] *)
Definition emailRegex : regex := Reiki.emailRegex.

(** [scrapeWebsiteForEmail(url)] *)
Definition scrapeWebsiteForEmail (axios_get : jsstring -> outcome axios_data)
    (url : jsstring) : outcome (option jsstring) :=
  if negb (truthy url) then Ok None
  else
    try_catch
      (bind (axios_get url) (fun data =>
         match data with
         | Parsed => Throw TypeError
         | Text body =>
             match str_match emailRegex body with
             | Some matches =>
                 match find (fun email => negb (includes email (js "example.com"))) matches with
                 | Some e => if truthy e then Ok (Some e) else Ok None
                 | None => Ok None
                 end
             | None => Ok None
             end
         end))
      (fun _ => Ok None).

(** *** The scraper *)

(** What cheerio answers on one listing container ([parent]). *)
Record container := Container {
  c_href : option jsstring;          (* parent.find("a").attr("href") *)
  c_website : option jsstring;       (* parent.find('a[data-value="Website"]').attr("href") *)
  c_headline : jsstring;             (* parent.find("div.fontHeadlineSmall").text() *)
  c_firstOfLast : jsstring;          (* firstOfLast.text() *)
  c_lastOfLast : jsstring            (* lastOfLast.text() *)
}.

(** An element of [results]. *)
Record record := Record_ {
  index : nat;
  clinicName : jsstring;
  dentistName : jsstring;
  address : jsstring;
  phone : jsstring;
  email : option jsstring;           (* null, or a string (empty without a website) *)
  website : jsstring;
  googleUrl : option jsstring        (* undefined when the anchor has no href *)
}.

Record world := World {
  launch : outcome unit;                                   (* puppeteerExtra.launch *)
  load_listings : jsstring -> nat -> outcome (list container);
      (* browser.newPage, page.goto, the race of autoScroll with the 90 s
         timer, page.content, and the containers of the anchors to
         /maps/place/, for a city and an attempt *)
  axios_get : jsstring -> outcome axios_data;              (* axios.get(url, ...) *)
  browser_close : outcome unit;                            (* browser.close() *)
  writeRecords : outcome unit                              (* csvWriter.writeRecords(data) *)
}.

Definition cities : list jsstring :=
  [js "Budapest"; js "Debrecen"; js "Szeged"; js "Miskolc";
   [80; 233; 99; 115]%N; [71; 121; 337; 114]%N].

Definition cap : nat := 500.

(** A request that leaves the script, with [results.length] at that time. *)
Inductive fetch :=
| Listing (city : jsstring) (attempt : nat) (size_before : nat)
| Website (url : jsstring) (size_before : nat).

Definition size_before (f : fetch) : nat :=
  match f with
  | Listing _ _ n => n
  | Website _ n => n
  end.

Record shared := Shared {
  results : list record;
  next_index : nat                   (* the variable [index] *)
}.

(** [for (const parent of parents)]: every container is pushed; the loop is
    left when [results] has reached the cap.  What was pushed stays in
    [results] when an exception leaves the loop. *)
Fixpoint scrape_listings (W : world) (parents : list container) (sh : shared)
  : (outcome unit * shared) * list fetch :=
  match parents with
  | [] => ((Ok tt, sh), [])
  | parent :: rest =>
      let website := match c_website parent with Some h => or_else h [] | None => [] end in
      let '(email, fetched) :=
        if truthy website
        then (scrapeWebsiteForEmail (axios_get W) website,
              [Website website (length (results sh))])
        else (Ok (Some []), []) in
      match email with
      | Throw e => ((Throw e, sh), fetched)
      | Ok email =>
          let sh' :=
            Shared (results sh ++
                      [Record_ (next_index sh) (trim (c_headline parent)) []
                         (middot_field (c_firstOfLast parent))
                         (middot_field (c_lastOfLast parent))
                         email website (c_href parent)])
                   (S (next_index sh)) in
          if cap <=? length (results sh') then ((Ok tt, sh'), fetched)
          else
            let '(r, more) := scrape_listings W rest sh' in
            (r, fetched ++ more)
      end
  end.

(** [while (attempt < 2 && !citySuccess)]: [left] is [2 - attempt].  An
    exception of the attempt is caught and logged; the page is closed with
    its own exceptions swallowed; the loop is left when [results] has
    reached the cap. *)
Fixpoint scrape_city (W : world) (city : jsstring) (left attempt : nat)
    (sh : shared) : shared * list fetch :=
  match left with
  | O => (sh, [])
  | S left' =>
      let attempt := S attempt in
      let call := Listing city attempt (length (results sh)) in
      match load_listings W city attempt with
      | Throw _ =>
          if cap <=? length (results sh) then (sh, [call])
          else
            let '(sh', more) := scrape_city W city left' attempt sh in
            (sh', call :: more)
      | Ok parents =>
          match scrape_listings W parents sh with
          | ((Ok _, sh'), fetched) => (sh', call :: fetched)       (* citySuccess = true *)
          | ((Throw _, sh'), fetched) =>
              if cap <=? length (results sh') then (sh', call :: fetched)
              else
                let '(sh'', more) := scrape_city W city left' attempt sh' in
                (sh'', call :: fetched ++ more)
          end
      end
  end.

(** [for (const city of cities)] *)
Fixpoint scrape_cities (W : world) (cs : list jsstring) (sh : shared)
  : shared * list fetch :=
  match cs with
  | [] => (sh, [])
  | city :: rest =>
      let '(sh', fetched) := scrape_city W city 2 0 sh in
      if cap <=? length (results sh') then (sh', fetched)
      else
        let '(sh'', more) := scrape_cities W rest sh' in
        (sh'', fetched ++ more)
  end.

(** [scrapeDentists()] and the requests it made. *)
Definition scrapeDentists_from (W : world) (cs : list jsstring)
  : outcome (list record) * list fetch :=
  match launch W with
  | Throw e => (Throw e, [])
  | Ok _ =>
      let '(sh, fetched) := scrape_cities W cs (Shared [] 1) in
      (bind (browser_close W) (fun _ => Ok (results sh)), fetched)
  end.

Definition scrapeDentists (W : world) : outcome (list record) * list fetch :=
  scrapeDentists_from W cities.

(** The entry point: the exit status of the process. *)
Definition entry (W : world) : nat :=
  match fst (scrapeDentists W) with
  | Throw _ => 1
  | Ok data =>
      match writeRecords W with
      | Ok _ => 0
      | Throw _ => 1
      end
  end.

End Dentists.


(* ===================================================================== *)
(** ** A reader for the CSV text

    The scripts only write CSV.  The round trip of the exporter is stated
    against this reader, which follows RFC 4180: cells are separated by
    commas and rows by line feeds; a cell that starts with a double quote
    runs to the closing double quote, a doubled double quote inside it
    standing for one. *)
(* ===================================================================== *)

Module CsvReader.

Inductive pstate :=
| RowStart       (* at the start of a row *)
| CellStart      (* after a comma *)
| Unquoted       (* inside a cell that did not start with a double quote *)
| Quoted         (* inside a quoted cell *)
| QuoteSeen.     (* after a double quote inside a quoted cell *)

Definition table := list (list jsstring).

(** The code unit [c] goes in front of the cell being read. *)
Definition cons_char (c : N) (t : option table) : option table :=
  match t with
  | Some ((cell :: row) :: rows) => Some (((c :: cell) :: row) :: rows)
  | _ => None
  end.

(** The cell being read is complete: a new cell starts in front of it. *)
Definition new_cell (t : option table) : option table :=
  match t with
  | Some (row :: rows) => Some (([] :: row) :: rows)
  | _ => None
  end.

(** The row being read is complete. *)
Definition new_row (t : option table) : option table :=
  match t with
  | Some rows => Some ([[]] :: rows)
  | None => None
  end.

Definition comma : N := 44%N.
Definition newline : N := 10%N.

(** The table read from [s] in state [st]; the first cell of the first row
    of the result continues the cell being read.  [None]: [s] is not CSV. *)
Fixpoint read (st : pstate) (s : jsstring) : option table :=
  match s with
  | [] =>
      match st with
      | RowStart => Some []
      | Quoted => None
      | _ => Some [[[]]]
      end
  | c :: s' =>
      match st with
      | RowStart | CellStart =>
          if N.eqb c Places.dquote then read Quoted s'
          else if N.eqb c comma then new_cell (read CellStart s')
          else if N.eqb c newline then new_row (read RowStart s')
          else cons_char c (read Unquoted s')
      | Unquoted =>
          if N.eqb c Places.dquote then None
          else if N.eqb c comma then new_cell (read CellStart s')
          else if N.eqb c newline then new_row (read RowStart s')
          else cons_char c (read Unquoted s')
      | Quoted =>
          if N.eqb c Places.dquote then read QuoteSeen s'
          else cons_char c (read Quoted s')
      | QuoteSeen =>
          if N.eqb c Places.dquote then cons_char c (read Quoted s')
          else if N.eqb c comma then new_cell (read CellStart s')
          else if N.eqb c newline then new_row (read RowStart s')
          else None
      end
  end.

Definition parse (s : jsstring) : option table := read RowStart s.

(** The value of a cell of a record: [null] is written, and read back, as
    the empty string. *)
Definition cell (v : option jsstring) : jsstring :=
  match v with Some x => x | None => [] end.

(** The six values of a record, in the order of the columns. *)
Definition cells (d : Places.detail) : list jsstring :=
  [Places.place_id d; cell (Places.name d); cell (Places.address d);
   cell (Places.phone d); cell (Places.website d); cell (Places.email d)].

End CsvReader.

(* ===================================================================== *)
(** ** Notions used in the statements *)
(* ===================================================================== *)

Module Notions.

(** The doubling of the double quotes, written directly. *)
Definition escape (v : jsstring) : jsstring :=
  flat_map (fun c => if N.eqb c Places.dquote then [Places.dquote; Places.dquote] else [c]) v.

(** The cell [v] goes in front of the cell being read. *)
Definition prepend (v : jsstring) (t : option CsvReader.table) : option CsvReader.table :=
  fold_right CsvReader.cons_char t v.

(** The entry of [records] made from a result. *)
Definition basic_of (r : Places.result) : Places.basic :=
  Places.Basic (Places.r_place_id r) (Places.r_name r) (Places.r_formatted_address r).

(** The first result of a sequence that carries the identifier [k]. *)
Definition first_with (k : jsstring) (raws : list Places.result) : option Places.result :=
  find (fun r => str_eqb (Places.r_place_id r) k) raws.

(** A region is only started below the cap. *)
Definition started_below_cap (c : Places.search_call) : Prop :=
  match Places.call_request c with
  | Places.ByLocation _ => Places.call_size_before c < Places.cap
  | Places.ByToken _ => True
  end.

(** A file of records holds at most as many records as the cap. *)
Definition within_cap (f : Places.file) : Prop :=
  match f with
  | Places.JsonFile details => length details <= Places.cap
  | Places.CsvFile _ => True
  end.

(** A request of the dentist script was made below the cap. *)
Definition below_cap (f : Dentists.fetch) : Prop :=
  Dentists.size_before f < Dentists.cap.

(** The matches of a pattern with the [g] flag in a text. *)
Definition matches (r : regex) (s : jsstring) : list jsstring := match_from r 0 s 0.

(** The addresses that the Reiki extractor leaves out of a text. *)
Definition placeholder (e : jsstring) : bool :=
  includes e (js "example.com") || includes e (js "w3.org").

(** A task of the Reiki script that has ended. *)
Definition final (p : Reiki.pc) : bool :=
  match p with
  | Reiki.Finished | Reiki.Crashed _ => true
  | _ => false
  end.

(** The number of containers that an attempt finds. *)
Definition listed (W : Reiki.world) (country : jsstring) (attempt : nat) : nat :=
  match Reiki.load_listings W country attempt with
  | Ok parents => length parents
  | Throw _ => 0
  end.

(** A bound on the steps that a task can still make. *)
Definition while_measure (W : Reiki.world) (country : jsstring) (attempt : nat) : nat :=
  match attempt with
  | 0 => 1 + (2 * listed W country 1 + 2) + (2 * listed W country 2 + 2)
  | 1 => 1 + (2 * listed W country 2 + 2)
  | _ => 1
  end.

Definition task_measure (W : Reiki.world) (t : jsstring * Reiki.pc) : nat :=
  match snd t with
  | Reiki.AtWhile attempt _ _ => while_measure W (fst t) attempt
  | Reiki.Fetching attempt _ todo => while_measure W (fst t) attempt + 2 * length todo + 2
  | Reiki.Pausing attempt todo => while_measure W (fst t) attempt + 2 * length todo + 1
  | Reiki.Finished | Reiki.Crashed _ => 0
  end.

Definition total_measure (W : Reiki.world) (st : Reiki.state) : nat :=
  list_sum (List.map (task_measure W) (Reiki.tasks st)).

End Notions.

Import Notions.

(* ===================================================================== *)
(** ** Concrete worlds *)
(* ===================================================================== *)

Module Worlds.

Import Places.

Definition ok_page (rs : list result) (token : option jsstring) : search_json :=
  SearchJson (js "OK") (Some rs) token.

Definition empty_page : search_json := ok_page [] None.

(** Details requests answered with a status other than OK. *)
Definition no_details (place_id : jsstring) (attempt : nat) : outcome details_json :=
  Ok (DetailsJson (js "ZERO_RESULTS") None).

Definition unreachable_site (url : jsstring) : outcome response := Throw NetworkError.

(** Amsterdam answers with three results, the third repeating the
    identifier of the first under another name; no other city has results. *)
Definition aba : list result :=
  [ Result (js "A") (Some (js "Alpha")) (Some (js "1 Canal St"));
    Result (js "B") (Some (js "Beta")) (Some (js "2 Canal St"));
    Result (js "A") (Some (js "Alpha again")) (Some (js "3 Canal St")) ].

Definition places_aba : world :=
  World (Some (js "key"))
    (fun req =>
       match req with
       | ByLocation q =>
           if str_eqb q (js "52.3676,4.9041") then Ok (ok_page aba None)
           else Ok empty_page
       | ByToken _ => Ok empty_page
       end)
    no_details unreachable_site (Ok tt) (Ok tt).

(** Twenty results whose identifiers are [tag] followed by a letter from A
    to T. *)
Definition page_of (tag : jsstring) : list result :=
  List.map (fun i => Result (tag ++ [N.of_nat (65 + i)]) None None) (seq 0 20).

(** Every city answers with three pages of twenty results, all distinct:
    the first page carries a token, and so does every further page. *)
Definition places_many : world :=
  World (Some (js "key"))
    (fun req =>
       match req with
       | ByLocation q => Ok (ok_page (page_of q) (Some (q ++ js "#2")))
       | ByToken t => Ok (ok_page (page_of t) (Some (t ++ js "+")))
       end)
    no_details unreachable_site (Ok tt) (Ok tt).

(** Amsterdam answers with the places A and B; the details request for B
    fails at every attempt, the one for A is answered. *)
Definition places_details_down : world :=
  World (Some (js "key"))
    (fun req =>
       match req with
       | ByLocation q =>
           if str_eqb q (js "52.3676,4.9041") then Ok (ok_page aba None)
           else Ok empty_page
       | ByToken _ => Ok empty_page
       end)
    (fun place_id attempt =>
       if str_eqb place_id (js "B") then Throw NetworkError
       else Ok (DetailsJson (js "OK")
                  (Some (Place (Some (js "Alpha Dental")) None (Some (js "020 1234")) None))))
    unreachable_site (Ok tt) (Ok tt).

(** Amsterdam answers with the places A and B; the first text search of
    Rotterdam is answered with the status REQUEST_DENIED. *)
Definition places_denied : world :=
  World (Some (js "key"))
    (fun req =>
       match req with
       | ByLocation q =>
           if str_eqb q (js "52.3676,4.9041") then Ok (ok_page aba None)
           else if str_eqb q (js "51.9244,4.4777")
                then Ok (SearchJson (js "REQUEST_DENIED") None None)
                else Ok empty_page
       | ByToken _ => Ok empty_page
       end)
    no_details unreachable_site (Ok tt) (Ok tt).

(** A [fetch] that answers for the given addresses and fails on the others. *)
Fixpoint site_of (pages : list (jsstring * response)) : jsstring -> outcome response :=
  fun target =>
    match pages with
    | [] => Throw NetworkError
    | (u, r) :: rest => if str_eqb u target then Ok r else site_of rest target
    end.




(** What the listing phase collects in that world. *)
Definition aba_records : Map basic :=
  [ (js "A", Basic (js "A") (Some (js "Alpha")) (Some (js "1 Canal St")));
    (js "B", Basic (js "B") (Some (js "Beta")) (Some (js "2 Canal St"))) ].

Definition aba_calls : list search_call :=
  snd (search_regions places_aba LOCATIONS []).

End Worlds.

Module ReikiWorlds.

Import Reiki.

Definition place (id : String.string) : jsstring :=
  js "https://www.google.com/maps/place/" ++ js id.

Definition listing (id : String.string) : container :=
  Container (Some (place id)) (js "Reiki " ++ js id) [] [] [].

Definition no_browser : browser := Browser (Throw NetworkError).

(** England shows three containers, the third for the place of the first;
    no other country can be loaded; no listing has a website. *)
Definition reiki_aba : world :=
  World (Ok tt)
    (fun _ _ => Ok tt)
    (fun country attempt =>
       if str_eqb country (js "England") then Ok [listing "A"; listing "B"; listing "A"]
       else Throw NetworkError)
    (fun _ _ => Ok tt)
    (fun _ => [])
    (fun _ => no_browser)
    (Ok tt) (Ok tt).

(** The same world, where closing the search page of Ireland fails. *)
Definition reiki_close_fails : world :=
  World (launch reiki_aba) (new_search_page reiki_aba) (load_listings reiki_aba)
    (fun country attempt =>
       if str_eqb country (js "Ireland") then Throw NetworkError else Ok tt)
    (details_website reiki_aba) (browser_at reiki_aba)
    (browser_close reiki_aba) (writeRecords reiki_aba).

(** [n] containers of distinct places whose names start with [tag]. *)
Definition listings (tag : String.string) (n : nat) : list container :=
  List.map (fun i => Container (Some (js "https://www.google.com/maps/place/" ++ js tag
                                       ++ [N.of_nat (65 + i)]))
                       (js "Reiki " ++ js tag) [] [] [])
           (seq 0 n).

(** England and Scotland each show sixty containers of distinct places;
    Ireland and Wales cannot be loaded; no listing has a website. *)
Definition reiki_two_regions : world :=
  World (Ok tt)
    (fun _ _ => Ok tt)
    (fun country attempt =>
       if str_eqb country (js "England") then Ok (listings "E" 60)
       else if str_eqb country (js "Scotland") then Ok (listings "S" 60)
       else Throw NetworkError)
    (fun _ _ => Ok tt)
    (fun _ => [])
    (fun _ => no_browser)
    (Ok tt) (Ok tt).

(** Three rounds: Ireland and Wales fail twice and end, England and Scotland
    load their pages, push one record each and start their second listing.
    Then England and Scotland push in turn up to 98 records, each then
    waiting for the email of its next listing; England pushes, pauses,
    starts its next listing and pushes again (100 records); then the email
    that Scotland was waiting for arrives and Scotland pushes; both then see
    the cap. *)
Definition overshoot_schedule : list nat :=
  concat (repeat [0; 2; 1; 3] 3)
  ++ concat (repeat [0; 2; 0; 2] 48)
  ++ [0; 0; 0; 2]
  ++ [0; 0; 2; 2].

(** A tab that shows the given pages and fails on every other address. *)
Fixpoint tab_of (pages : list (jsstring * view)) : jsstring -> outcome view :=
  fun target =>
    match pages with
    | [] => Throw NetworkError
    | (u, v) :: rest => if str_eqb u target then Ok v else tab_of rest target
    end.


Definition plain (markup : String.string) : view := View (Ok []) (Ok (js markup)).

(** A site whose root page has no email and whose /contact page has one. *)
Definition site_with_contact : list (jsstring * view) :=
  [ (js "https://reiki.uk", plain "<html><body>Welcome</body></html>");
    (js "https://reiki.uk/contact", plain "<p>Write to hello@reiki.uk</p>");
    (js "https://reiki.uk/contact-us", plain "<p>Or to other@reiki.uk</p>") ].





(** The four tasks take turns, [n] rounds. *)
Definition round_robin (n : nat) : list nat :=
  concat (repeat [0; 1; 2; 3] n).

End ReikiWorlds.

Module DentistWorlds.

Import Dentists.

Definition listing (id : String.string) : container :=
  Container (Some (ReikiWorlds.place id)) None (js "Clinic " ++ js id) [] [].

(** Budapest shows three containers, the third for the place of the first;
    no other city can be loaded. *)
Definition dentists_aba : world :=
  World (Ok tt)
    (fun city attempt =>
       if str_eqb city (js "Budapest") then Ok [listing "A"; listing "B"; listing "A"]
       else Throw NetworkError)
    (fun _ => Throw NetworkError)
    (Ok tt) (Ok tt).

(** The same world, with a CSV file that cannot be written. *)
Definition dentists_unwritable : world :=
  World (launch dentists_aba) (load_listings dentists_aba) (axios_get dentists_aba)
    (browser_close dentists_aba) (Throw IOError).

(** An [axios.get] that answers for the given addresses and fails on the
    others. *)
Fixpoint site_of (pages : list (jsstring * jsstring)) : jsstring -> outcome axios_data :=
  fun target =>
    match pages with
    | [] => Throw NetworkError
    | (u, body) :: rest => if str_eqb u target then Ok (Text body) else site_of rest target
    end.

Definition placeholder_pages : list (jsstring * jsstring) :=
  [ (js "https://fogaszat.hu", js "<p>minta@example.com, you@mail.example.com</p>");
    (js "https://dental.hu",
     js "<html xmlns='http://www.w3.org/1999/xhtml'><p>webmaster@w3.org</p></html>") ].

End DentistWorlds.

(* ===================================================================== *)
(** ** Further notions used in the statements *)
(* ===================================================================== *)

Module Order.

(** The identifiers of a sequence at their first occurrence, those already
    [seen] left out. *)
Fixpoint keep_first (seen ids : list jsstring) : list jsstring :=
  match ids with
  | [] => []
  | k :: rest =>
      if existsb (fun k' => str_eqb k' k) seen then keep_first seen rest
      else k :: keep_first (seen ++ [k]) rest
  end.

(** What [records] holds for a place before the details phase. *)
Definition first_seen_name (records : Places.Map Places.basic) (k : jsstring)
  : option jsstring :=
  match Places.map_get records k with Some b => Places.b_name b | None => None end.

Definition first_seen_address (records : Places.Map Places.basic) (k : jsstring)
  : option jsstring :=
  match Places.map_get records k with Some b => Places.b_address b | None => None end.

End Order.

Module MoreWorlds.

(** The text search of Amsterdam is answered with the status
    OVER_QUERY_LIMIT and no results; Rotterdam answers with the places A and
    B; no other city has results. *)
Definition places_over_limit : Places.world :=
  Places.World (Some (js "key"))
    (fun req =>
       match req with
       | Places.ByLocation q =>
           if str_eqb q (js "52.3676,4.9041")
           then Ok (Places.SearchJson (js "OVER_QUERY_LIMIT") None None)
           else if str_eqb q (js "51.9244,4.4777") then Ok (Worlds.ok_page Worlds.aba None)
                else Ok Worlds.empty_page
       | Places.ByToken _ => Ok Worlds.empty_page
       end)
    Worlds.no_details Worlds.unreachable_site (Ok tt) (Ok tt).

(** The details request for A is answered with the status NOT_FOUND; the
    one for B is answered with a name and a phone number and no website. *)
Definition places_partial_details : Places.world :=
  Places.World (Some (js "key"))
    (Places.search_api Worlds.places_aba)
    (fun place_id attempt =>
       if str_eqb place_id (js "A") then Ok (Places.DetailsJson (js "NOT_FOUND") None)
       else Ok (Places.DetailsJson (js "OK")
                  (Some (Places.Place (Some (js "Beta Dental")) None
                           (Some (js "010 9876")) None))))
    Worlds.unreachable_site (Ok tt) (Ok tt).

End MoreWorlds.

Module Lang.

Definition within (hi : option nat) (n : nat) : Prop :=
  match hi with
  | Some h => n <= h
  | None => True
  end.

(** The words that a sequence of quantified classes matches as a whole. *)
Fixpoint atoms_lang (ic : bool) (r : list atom) (w : jsstring) : Prop :=
  match r with
  | [] => w = []
  | a :: r' =>
      exists u v,
        w = u ++ v
        /\ Forall (fun c => in_class ic (cls a) c = true) u
        /\ rmin a <= length u
        /\ within (rmax a) (length u)
        /\ atoms_lang ic r' v
  end.

(** The classes of the email patterns. *)
Definition local_part : cclass :=
  pos [rg "a" "z"; rg "A" "Z"; rg "0" "9"; ch "."; ch "_"; ch "%"; ch "+"; ch "-"].

Definition domain_part : cclass :=
  pos [rg "a" "z"; rg "A" "Z"; rg "0" "9"; ch "."; ch "-"].

(** A word of the form local@domain.tld: a non-empty local part, a
    non-empty domain and at least two code units of the class [tld], each
    part made of the code units of its class (under the [i] flag when [ic]
    is set). *)
Definition email_form (ic : bool) (tld : cclass) (e : jsstring) : Prop :=
  exists l d t,
    e = l ++ code "@" :: d ++ code "." :: t
    /\ l <> [] /\ Forall (fun c => in_class ic local_part c = true) l
    /\ d <> [] /\ Forall (fun c => in_class ic domain_part c = true) d
    /\ 2 <= length t /\ Forall (fun c => in_class ic tld c = true) t.

(** [e] occurs in [s]. *)
Definition occurs_in (e s : jsstring) : Prop :=
  exists pre post, s = pre ++ e ++ post.

End Lang.

Module ReikiNotions.

Import Reiki.

(** A task that is in the awaits of a listing will push one record. *)
Definition fetching (p : pc) : nat :=
  match p with
  | Fetching _ _ _ => 1
  | _ => 0
  end.

Definition in_flight (ts : list (jsstring * pc)) : nat :=
  list_sum (List.map (fun t => fetching (snd t)) ts).

(** The records carry the numbers 1, 2, ... in their order, and [index] is
    the next number. *)
Definition numbered (sh : shared) : Prop :=
  next_index sh = S (length (results sh))
  /\ List.map index (results sh) = seq 1 (length (results sh)).

(** Every country shows thirty containers; no listing has a website. *)
Definition reiki_four_regions : world :=
  World (Ok tt)
    (fun _ _ => Ok tt)
    (fun _ _ => Ok (ReikiWorlds.listings "R" 30))
    (fun _ _ => Ok tt)
    (fun _ => [])
    (fun _ => ReikiWorlds.no_browser)
    (Ok tt) (Ok tt).

(** The four tasks load their pages and start their first listing; they
    then push in turn, each starting its next listing at once, up to 99
    records; the four emails awaited then arrive one after the other; at
    last every task sees the cap and ends. *)
Definition crowd_schedule : list nat :=
  [0; 1; 2; 3]
  ++ concat (repeat [0; 0; 1; 1; 2; 2; 3; 3] 24)
  ++ [0; 0; 1; 1; 2; 2]
  ++ [0; 1; 2; 3]
  ++ ReikiWorlds.round_robin 3.

End ReikiNotions.

Module DentistNotions.

Import Dentists.

(** The containers of a city: those of the first of its two attempts that
    loads. *)
Definition city_parents (W : world) (city : jsstring) : list container :=
  match load_listings W city 1 with
  | Ok ps => ps
  | Throw _ =>
      match load_listings W city 2 with
      | Ok ps => ps
      | Throw _ => []
      end
  end.

Definition site (parent : container) : jsstring :=
  match c_website parent with Some h => or_else h [] | None => [] end.

(** The row of a container that is given the number [idx]. *)
Definition record_of (W : world) (idx : nat) (parent : container) : record :=
  Record_ idx (trim (c_headline parent)) []
    (middot_field (c_firstOfLast parent))
    (middot_field (c_lastOfLast parent))
    (if truthy (site parent)
     then match scrapeWebsiteForEmail (axios_get W) (site parent) with
          | Ok e => e
          | Throw _ => None
          end
     else Some [])
    (site parent) (c_href parent).

Fixpoint number (W : world) (idx : nat) (ps : list container) : list record :=
  match ps with
  | [] => []
  | p :: ps' => record_of W idx p :: number W (S idx) ps'
  end.

(** The websites requested, and the number of loads of a listing page. *)
Definition requested (tr : list fetch) : list jsstring :=
  flat_map (fun f => match f with Website u _ => [u] | Listing _ _ _ => [] end) tr.

Definition loads (tr : list fetch) : nat :=
  list_sum (List.map (fun f => match f with Listing _ _ _ => 1 | Website _ _ => 0 end) tr).

Definition clinic (id : String.string) (site : String.string) : container :=
  Container (Some (ReikiWorlds.place id)) (Some (js site)) (js "Clinic " ++ js id)
    (js "Dentist " ++ [183%N] ++ js " Fo utca 1 ") [].

(** Budapest loads at its second attempt and shows a clinic with a website
    and one without; Debrecen shows a clinic with a website; no other city
    can be loaded. *)
Definition dentists_two_cities : world :=
  World (Ok tt)
    (fun city attempt =>
       if str_eqb city (js "Budapest") then
         if attempt =? 2 then Ok [clinic "A" "https://dental.hu"; DentistWorlds.listing "B"]
         else Throw NetworkError
       else if str_eqb city (js "Debrecen") then Ok [clinic "C" "https://fogaszat.hu"]
       else Throw NetworkError)
    (DentistWorlds.site_of DentistWorlds.placeholder_pages)
    (Ok tt) (Ok tt).

End DentistNotions.

Module EdgeWorlds.

Import Places.

(** A page with an address in its text and a mailto link whose target is
    not a valid escape sequence. *)
Definition broken_mailto : response :=
  Response true
    (Ok (js "<p>info@site.org</p><a href='mailto:100%'>mail</a>"))
    [js "mailto:100%"].

End EdgeWorlds.

(* ===================================================================== *)
(** ** The details page of a listing (src/scrapers/index.js, first script) *)
(* ===================================================================== *)

Module Details.

(** Patterns with groups and alternatives, for [urlRegex].  The pattern is
    anchored at both ends and is only tested, so that which of its matches
    is found does not matter: the test is membership of the whole string,
    decided by derivatives. *)
Inductive re :=
| Void
| Eps
| Cls (c : cclass)
| Cat (r s : re)
| Alt (r s : re)
| Star (r : re).

Definition Opt (r : re) : re := Alt r Eps.              (* r? *)
Definition Plus (r : re) : re := Cat r (Star r).        (* r+ *)
Definition chr (a : Ascii.ascii) : re := Cls (pos [ch a]).
Arguments chr a%_char.

Fixpoint word (s : list Ascii.ascii) : re :=
  match s with
  | [] => Eps
  | a :: s' => Cat (chr a) (word s')
  end.

Fixpoint nullable (r : re) : bool :=
  match r with
  | Void => false
  | Eps => true
  | Cls _ => false
  | Cat r s => nullable r && nullable s
  | Alt r s => nullable r || nullable s
  | Star _ => true
  end.

Fixpoint deriv (ic : bool) (c : N) (r : re) : re :=
  match r with
  | Void => Void
  | Eps => Void
  | Cls cc => if in_class ic cc c then Eps else Void
  | Cat r s =>
      if nullable r then Alt (Cat (deriv ic c r) s) (deriv ic c s)
      else Cat (deriv ic c r) s
  | Alt r s => Alt (deriv ic c r) (deriv ic c s)
  | Star r => Cat (deriv ic c r) (Star r)
  end.

(** [/^r$/.test(s)], with the [i] flag when [ic] is set. *)
Definition full_match (ic : bool) (r : re) (s : jsstring) : bool :=
  nullable (fold_left (fun r c => deriv ic c r) s r).

(** The strings of a pattern. *)
Inductive lang (ic : bool) : re -> jsstring -> Prop :=
| LEps : lang ic Eps []
| LCls cc c : in_class ic cc c = true -> lang ic (Cls cc) [c]
| LCat r s u v : lang ic r u -> lang ic s v -> lang ic (Cat r s) (u ++ v)
| LAltL r s u : lang ic r u -> lang ic (Alt r s) u
| LAltR r s u : lang ic s u -> lang ic (Alt r s) u
| LStar0 r : lang ic (Star r) []
| LStarS r u v : lang ic r u -> lang ic (Star r) v -> lang ic (Star r) (u ++ v).

(** [[\w-]] and [.] *)
Definition word_or_dash : cclass :=
  pos [rg "a" "z"; rg "A" "Z"; rg "0" "9"; ch "_"; ch "-"].

Definition not_line_end : cclass :=
  neg [(10, 10); (13, 13); (8232, 8233)]%N.

(** [(https?:\/\/)?] *)
Definition scheme : re :=
  Opt (Cat (word (String.list_ascii_of_string "http"))
        (Cat (Opt (chr "s")) (word (String.list_ascii_of_string "://")))).

(** The rest of [urlRegex]: one or more labels of [[\w-]], each followed by
    a dot, a last label of at least two [[\w-]], and optionally a slash
    followed by any code units that do not end a line. *)
Definition host_path : re :=
  Cat (Plus (Cat (Plus (Cls word_or_dash)) (chr ".")))
    (Cat (Cat (Cls word_or_dash) (Cat (Cls word_or_dash) (Star (Cls word_or_dash))))
       (Opt (Cat (chr "/") (Star (Cls not_line_end))))).

(** [urlRegex]: the scheme group and the rest, anchored at both ends, with
    the [i] flag. *)
Definition urlRegex : re := Cat scheme host_path.

Definition url_test (s : jsstring) : bool := full_match true urlRegex s.

(** What cheerio finds in the markup of the details page. *)
Record dom := Dom {
  anchors : list jsstring;     (* the href of every anchor that has one, in document order *)
  divs : list jsstring         (* the text() of every div, in document order *)
}.

(** [a[href*="http"]:not([href*="google.com"])] *)
Definition website_link (href : jsstring) : bool :=
  includes href (js "http") && negb (includes href (js "google.com")).

(** [scrapeListingDetails(page, googleUrl)], given what [page.goto] and
    [page.content] answer for that address.  The field [details_website] of
    a Reiki world stands for the result of this function. *)
Definition scrapeListingDetails (goto : outcome unit) (content : outcome dom)
  : jsstring :=
  match bind goto (fun _ => content) with
  | Throw _ => []
  | Ok d =>
      let website :=
        match filter website_link (anchors d) with
        | href :: _ => or_else href []
        | [] =>
            let potentialWebsite :=
              trim (hd [] (filter (fun text => url_test (trim text)) (divs d))) in
            if truthy potentialWebsite then
              if startsWith potentialWebsite (js "http") then potentialWebsite
              else js "https://" ++ potentialWebsite
            else []
        end in
      if truthy website && negb (url_test website) then [] else website
  end.

End Details.

Module Search.

(** [`https://www.google.com/maps/search/${query.split(" ").join("+")}`] *)
Definition searchUrl (query : jsstring) : jsstring :=
  js "https://www.google.com/maps/search/"
  ++ Places.join (js "+") (split (code " ") query).

(** [`Reiki practitioner in ${country}`] *)
Definition reiki_query (country : jsstring) : jsstring :=
  js "Reiki practitioner in " ++ country.

(** [`dentist in ${city}, Hungary`] *)
Definition dentist_query (city : jsstring) : jsstring :=
  js "dentist in " ++ city ++ js ", Hungary".

Definition plus_for_space (c : N) : N :=
  if N.eqb c (code " ") then code "+" else c.

End Search.

Module PagedWorlds.

Import Places.

(** Amsterdam answers with the places A and B and a token; the request for
    the page of that token fails; Rotterdam answers with the place C; no
    other city has results. *)
Definition places_second_page_fails : world :=
  World (Some (js "key"))
    (fun req =>
       match req with
       | ByLocation q =>
           if str_eqb q (js "52.3676,4.9041")
           then Ok (Worlds.ok_page Worlds.aba (Some (js "t2")))
           else if str_eqb q (js "51.9244,4.4777")
                then Ok (Worlds.ok_page [Result (js "C") (Some (js "Gamma")) None] None)
                else Ok Worlds.empty_page
       | ByToken _ => Throw NetworkError
       end)
    Worlds.no_details Worlds.unreachable_site (Ok tt) (Ok tt).

End PagedWorlds.

Module Pages.







End Pages.

Module Schedules.

Import Reiki.

(** A schedule that names, at each of its steps, a task that has not ended,
    in a state where no task has crashed. *)
Fixpoint productive (W : world) (schedule : list nat) (st : state) : Prop :=
  match schedule with
  | [] => True
  | i :: rest =>
      crashed st = None
      /\ (exists country p, nth_error (tasks st) i = Some (country, p) /\ final p = false)
      /\ productive W rest (step_task W i st)
  end.

(** The run is over: a task has crashed or all have finished. *)
Definition settled (st : state) : Prop :=
  crashed st <> None \/ all_finished st = true.

End Schedules.

Module Counting.

(** The number of occurrences of a name in a list of names. *)
Definition count (name : jsstring) (names : list jsstring) : nat :=
  length (filter (fun x => str_eqb x name) names).

(** The text searches made for a region, and the regions of that name. *)
Definition calls_for (name : jsstring) (calls : list Places.search_call) : nat :=
  count name (List.map Places.call_region calls).

Definition named (name : jsstring) (locs : list Places.location) : nat :=
  count name (List.map Places.loc_name locs).

(** The loads of the listing page of a city. *)
Definition loaded_cities (tr : list Dentists.fetch) : list jsstring :=
  flat_map (fun f => match f with
                     | Dentists.Listing city _ _ => [city]
                     | Dentists.Website _ _ => []
                     end) tr.

Definition loads_of (city : jsstring) (tr : list Dentists.fetch) : nat :=
  count city (loaded_cities tr).

End Counting.

Module Schemes.

(** The lower-case form of an ASCII letter; other code units are left. *)
Definition lower (c : N) : N :=
  (if (65 <=? c) && (c <=? 90) then c + 32 else c)%N.

(** An address that starts with http:// or https://, in any letter case. *)
Definition has_scheme (u : jsstring) : bool :=
  startsWith (List.map lower u) (js "http://")
  || startsWith (List.map lower u) (js "https://").

End Schemes.

(* ===================================================================== *)
(** ** Checks of the definitions on small inputs *)
(* ===================================================================== *)

Example ex_trim : trim (js "  a b ") = js "a b".
Proof. reflexivity. Qed.

Example ex_split : split (code "?") (js "a@b.c?subject=x?y") = [js "a@b.c"; js "subject=x"; js "y"].
Proof. reflexivity. Qed.

Example ex_decode1 : decodeURIComponent (js "a%40b.c%C3%A9") = Ok (js "a@b.c" ++ [233%N]).
Proof. reflexivity. Qed.

Example ex_decode2 : decodeURIComponent (js "a%zz@b.com") = Throw URIError.
Proof. reflexivity. Qed.

Example ex_decode3 : decodeURIComponent (js "%F0%9F%98%80!") = Ok [55357%N; 56832%N; 33%N].
Proof. reflexivity. Qed.

Example ex_decode4 :
  decodeURIComponent (js "%C0%80") = Throw URIError
  /\ decodeURIComponent (js "%ED%A0%80") = Throw URIError
  /\ decodeURIComponent (js "%E2%82") = Throw URIError
  /\ decodeURIComponent (js "100%") = Throw URIError
  /\ decodeURIComponent (js "%e2%82%ac1") = Ok [8364%N; 49%N].
Proof. repeat split; reflexivity. Qed.

Example ex_match1 :
  str_match Reiki.emailRegex (js "<p>Mail: Jane.Doe@Site.co.uk, or bob@x.y1 and info@example.com.</p>")
  = Some [js "Jane.Doe@Site.co.uk"; js "info@example.com"].
Proof. vm_compute. reflexivity. Qed.

Example ex_match2 :
  str_match Reiki.emailRegex (js "a@b.c.de9 x@y.zz.") = Some [js "a@b.c.de"; js "x@y.zz"].
Proof. vm_compute. reflexivity. Qed.

Example ex_target : Reiki.targetUrl (js "http://a.b/") (js "/contact") = js "http://a.b/contact".
Proof. vm_compute. reflexivity. Qed.

Example ex_norm : Places.normalize (js "HTTPS://a.b") = js "HTTPS://a.b" /\ Places.normalize (js "a.b") = js "http://a.b".
Proof. vm_compute. auto. Qed.

Example ex_csv :
  let d := Places.Detail (js "id1") (Some (js "Dr, A")) (Some (js "1 Main St, " ++ [34%N] ++ js "Unit" ++ [34%N; 10%N] ++ js " 2")) None None (Some (js "a@b.nl")) in
  CsvReader.parse (Places.csv_text [d]) = Some [Places.csv_header; CsvReader.cells d].
Proof. vm_compute. reflexivity. Qed.

(* ===================================================================== *)
(** ** The exporter of the Places script *)
(* ===================================================================== *)

Section CsvRoundTrip.

Import CsvReader.

Lemma or_else_nil (x : jsstring) : or_else x [] = x.
Proof. destruct x; reflexivity. Qed.

Lemma m_here_quote (i : nat) (c : N) (s : jsstring) :
  m_here Places.quote_g i (c :: s) = if N.eqb c Places.dquote then Some 1 else None.
Proof.
  unfold m_here, Places.quote_g, Places.dquote; simpl.
  unfold in_class, in_ranges; simpl.
  rewrite N.eqb_sym.
  destruct (N.eqb_spec 34 c) as [<-|Hne].
  - simpl. destruct s as [|c' s]; [reflexivity|].
    cbn. rewrite andb_false_r. reflexivity.
  - assert (H : ((34 <=? c)%N && (c <=? 34)%N) = false).
    { destruct (N.leb_spec 34 c), (N.leb_spec c 34); simpl; try reflexivity; lia. }
    rewrite H. reflexivity.
Qed.

Lemma replace_from_escape (v : jsstring) (i : nat) :
  replace_from Places.quote_g [Places.dquote; Places.dquote] i v 0 = escape v.
Proof.
  revert i; induction v as [|c v IH]; intro i; [reflexivity|].
  cbn [replace_from]. rewrite m_here_quote.
  unfold escape; cbn [flat_map]. fold (escape v).
  destruct (N.eqb c Places.dquote); rewrite IH; reflexivity.
Qed.

Lemma quoted_escape (v : option jsstring) :
  Places.quoted v = Places.dquote :: escape (cell v) ++ [Places.dquote].
Proof.
  unfold Places.quoted, replace_all.
  destruct v as [x|]; cbn [cell]; [rewrite or_else_nil|];
    rewrite replace_from_escape; reflexivity.
Qed.

Lemma prepend_some (v cell0 : jsstring) (row : list jsstring) (rows : table) :
  prepend v (Some ((cell0 :: row) :: rows)) = Some (((v ++ cell0) :: row) :: rows).
Proof.
  induction v as [|c v IH]; [reflexivity|].
  unfold prepend in *; cbn [fold_right]. rewrite IH. reflexivity.
Qed.

(** A quoted cell is read back up to its closing double quote. *)
Lemma read_quoted (v rest : jsstring) :
  read Quoted (escape v ++ Places.dquote :: rest) = prepend v (read QuoteSeen rest).
Proof.
  induction v as [|c v IH].
  - cbn. reflexivity.
  - unfold escape; cbn [flat_map]; fold (escape v).
    destruct (N.eqb c Places.dquote) eqn:E.
    + apply N.eqb_eq in E; subst c.
      cbn [app read]. rewrite ?N.eqb_refl. cbn [read]. rewrite ?N.eqb_refl.
      rewrite IH. reflexivity.
    + cbn [app read]. rewrite E, IH. reflexivity.
Qed.

Lemma read_cell (st : pstate) (v : option jsstring) (rest : jsstring) :
  st = RowStart \/ st = CellStart ->
  read st (Places.quoted v ++ rest) = prepend (cell v) (read QuoteSeen rest).
Proof.
  intros Hst. rewrite quoted_escape.
  cbn [app]. rewrite <- app_assoc. cbn [app].
  destruct Hst; subst st; cbn [read]; rewrite N.eqb_refl; apply read_quoted.
Qed.

(** A row of quoted cells, followed by something that ends the row. *)
Lemma read_row (vs : list (option jsstring)) (rest : jsstring) (T : table) :
  vs <> [] ->
  read QuoteSeen rest = Some ([[]] :: T) ->
  forall st, st = RowStart \/ st = CellStart ->
  read st (Places.join (js ",") (List.map Places.quoted vs) ++ rest)
  = Some (List.map cell vs :: T).
Proof.
  intros Hne Hrest.
  induction vs as [|v vs IH]; [contradiction|].
  intros st Hst. destruct vs as [|v2 vs].
  - cbn [List.map Places.join]. rewrite read_cell by assumption.
    rewrite Hrest, prepend_some, app_nil_r. reflexivity.
  - change (Places.join (js ",") (List.map Places.quoted (v :: v2 :: vs)))
      with (Places.quoted v ++ js "," ++ Places.join (js ",") (List.map Places.quoted (v2 :: vs))).
    rewrite <- !app_assoc. rewrite read_cell by assumption.
    change (js "," ++ ?x) with (comma :: x).
    cbn [read]. change (N.eqb comma Places.dquote) with false.
    cbn iota. rewrite N.eqb_refl.
    assert (Hne2 : v2 :: vs <> []) by discriminate.
    rewrite (IH Hne2 CellStart) by auto.
    cbn [new_cell]. rewrite prepend_some, app_nil_r. reflexivity.
Qed.

Lemma csv_row_cells (d : Places.detail) (rest : jsstring) (T : table) :
  read QuoteSeen rest = Some ([[]] :: T) ->
  read RowStart (Places.csv_row d ++ rest) = Some (cells d :: T).
Proof.
  intros H. unfold Places.csv_row.
  set (vs := [Some (Places.place_id d); Places.name d; Places.address d;
              Places.phone d; Places.website d; Places.email d]).
  assert (Hne : vs <> []) by discriminate.
  change (read RowStart (Places.join (js ",") (List.map Places.quoted vs) ++ rest)
          = Some (List.map cell vs :: T)).
  apply read_row; auto.
Qed.

Lemma read_rows (ds : list Places.detail) :
  read RowStart (Places.join [newline] (List.map Places.csv_row ds))
  = Some (List.map cells ds).
Proof.
  induction ds as [|d ds IH]; [reflexivity|].
  destruct ds as [|d2 ds].
  - cbn [List.map Places.join].
    rewrite <- (app_nil_r (Places.csv_row d)).
    apply csv_row_cells. reflexivity.
  - change (Places.join [newline] (List.map Places.csv_row (d :: d2 :: ds)))
      with (Places.csv_row d ++ [newline] ++
            Places.join [newline] (List.map Places.csv_row (d2 :: ds))).
    apply csv_row_cells.
    cbn [app read]. change (N.eqb newline Places.dquote) with false.
    change (N.eqb newline comma) with false. cbn iota.
    rewrite N.eqb_refl, IH. reflexivity.
Qed.

Lemma read_header (more : jsstring) (T : table) :
  read RowStart more = Some T ->
  read RowStart (Places.join (js ",") Places.csv_header ++ newline :: more)
  = Some (Places.csv_header :: T).
Proof.
  intros H.
  change (Places.join (js ",") Places.csv_header)
    with (js "place_id,name,address,phone,website,email").
  cbn. rewrite H. reflexivity.
Qed.

(** C9.  For every list of records, reading back the CSV text that [main]
    builds gives the header row followed by one row per record holding the
    six field values of the record, whatever code units (commas, double
    quotes, line feeds) the values contain; a [null] value is read back as
    the empty string. *)
Theorem C9_csv_round_trip (details : list Places.detail) :
  CsvReader.parse (Places.csv_text details)
  = Some (Places.csv_header :: List.map CsvReader.cells details).
Proof.
  unfold parse, Places.csv_text.
  destruct details as [|d ds].
  - vm_compute. reflexivity.
  - change (Places.join [10%N] ([Places.join (js ",") Places.csv_header] ++
                                 List.map Places.csv_row (d :: ds)))
      with (Places.join (js ",") Places.csv_header ++ newline ::
            Places.join [newline] (List.map Places.csv_row (d :: ds))).
    apply read_header, read_rows.
Qed.

End CsvRoundTrip.

(* ===================================================================== *)
(** ** The identifier map of the Places script *)
(* ===================================================================== *)

Section Deduplication.

Import Places.

Lemma str_eqb_eq (a b : jsstring) : str_eqb a b = true <-> a = b.
Proof.
  revert b; induction a as [|x a IH]; intros [|y b]; cbn; split; intro H;
    try reflexivity; try discriminate.
  - apply andb_true_iff in H as [H1 H2].
    apply N.eqb_eq in H1. apply IH in H2. congruence.
  - injection H as -> ->. rewrite N.eqb_refl. cbn. apply IH. reflexivity.
Qed.

Lemma str_eqb_refl (a : jsstring) : str_eqb a a = true.
Proof. apply str_eqb_eq. reflexivity. Qed.

Lemma str_eqb_neq (a b : jsstring) : str_eqb a b = false <-> a <> b.
Proof.
  split.
  - intros H E. apply str_eqb_eq in E. congruence.
  - intros H. destruct (str_eqb a b) eqn:E; [|reflexivity].
    apply str_eqb_eq in E. contradiction.
Qed.

Lemma map_get_set {V} (m : Map V) (k' k : jsstring) (v : V) :
  map_get (map_set m k' v) k = if str_eqb k' k then Some v else map_get m k.
Proof.
  induction m as [|[k0 v0] m IH]; cbn.
  - destruct (str_eqb k' k); reflexivity.
  - destruct (str_eqb k0 k') eqn:E0; cbn.
    + apply str_eqb_eq in E0; subst k0. destruct (str_eqb k' k); reflexivity.
    + destruct (str_eqb k0 k) eqn:E1.
      * destruct (str_eqb k' k) eqn:E2; [|reflexivity].
        apply str_eqb_eq in E1, E2. subst. rewrite str_eqb_refl in E0. discriminate.
      * apply IH.
Qed.

Lemma map_get_None {V} (m : Map V) (k : jsstring) :
  map_get m k = None <-> ~ In k (map_keys m).
Proof.
  induction m as [|[k0 v0] m IH]; cbn.
  - tauto.
  - destruct (str_eqb k0 k) eqn:E.
    + apply str_eqb_eq in E. split; [discriminate | tauto].
    + apply str_eqb_neq in E. rewrite IH. tauto.
Qed.

Lemma map_set_fresh {V} (m : Map V) (k : jsstring) (v : V) :
  map_get m k = None -> map_set m k v = m ++ [(k, v)].
Proof.
  induction m as [|[k0 v0] m IH]; cbn; [reflexivity|].
  destruct (str_eqb k0 k); [discriminate|].
  intro H. rewrite IH by assumption. reflexivity.
Qed.

Lemma map_get_record_result (m : Map basic) (r : result) (k : jsstring) :
  map_get (record_result m r) k =
  match map_get m k with
  | Some b => Some b
  | None => if str_eqb (r_place_id r) k then Some (basic_of r) else None
  end.
Proof.
  unfold record_result, map_has.
  destruct (map_get m (r_place_id r)) as [b|] eqn:Hr; cbn.
  - destruct (map_get m k) eqn:Hk; [reflexivity|].
    destruct (str_eqb (r_place_id r) k) eqn:E; [|reflexivity].
    apply str_eqb_eq in E. congruence.
  - rewrite map_get_set.
    destruct (str_eqb (r_place_id r) k) eqn:E.
    + apply str_eqb_eq in E. subst k. rewrite Hr. reflexivity.
    + destruct (map_get m k); reflexivity.
Qed.

Lemma NoDup_record_result (m : Map basic) (r : result) :
  NoDup (map_keys m) -> NoDup (map_keys (record_result m r)).
Proof.
  intro H. unfold record_result, map_has.
  destruct (map_get m (r_place_id r)) eqn:Hr; cbn; [assumption|].
  rewrite map_set_fresh by assumption.
  unfold map_keys. rewrite map_app. cbn.
  apply NoDup_rev in H. rewrite <- (rev_involutive (_ ++ _)).
  apply NoDup_rev. rewrite rev_app_distr. cbn.
  constructor; [|assumption].
  rewrite <- in_rev. apply map_get_None. assumption.
Qed.

Lemma map_get_record_results (raws : list result) (m : Map basic) (k : jsstring) :
  map_get (record_results m raws) k =
  match map_get m k with
  | Some b => Some b
  | None => option_map basic_of (first_with k raws)
  end.
Proof.
  revert m; induction raws as [|r raws IH]; intro m; cbn.
  - destruct (map_get m k); reflexivity.
  - unfold record_results in IH. rewrite IH, map_get_record_result.
    destruct (map_get m k); [reflexivity|].
    destruct (str_eqb (r_place_id r) k); reflexivity.
Qed.

Lemma NoDup_record_results (raws : list result) (m : Map basic) :
  NoDup (map_keys m) -> NoDup (map_keys (record_results m raws)).
Proof.
  revert m; induction raws as [|r raws IH]; intros m H; cbn; [assumption|].
  apply IH, NoDup_record_result, H.
Qed.

Lemma first_with_None (k : jsstring) (raws : list result) :
  first_with k raws = None <-> ~ In k (List.map r_place_id raws).
Proof.
  unfold first_with. induction raws as [|r raws IH]; cbn; [tauto|].
  destruct (str_eqb (r_place_id r) k) eqn:E.
  - apply str_eqb_eq in E. split; [discriminate | tauto].
  - apply str_eqb_neq in E. rewrite IH. tauto.
Qed.

Lemma record_results_app (m : Map basic) (a b : list result) :
  record_results m (a ++ b) = record_results (record_results m a) b.
Proof. apply fold_left_app. Qed.

Lemma record_page_results (m : Map basic) (page : search_json) :
  record_page m page = record_results m (page_results page).
Proof.
  unfold record_page, page_results.
  destruct (results page) as [[|r rs]|]; reflexivity.
Qed.

(** The pagination loop and the loop over the regions only ever change
    [records] by recording the results of the pages received. *)
Lemma next_pages_fold (W : world) (region : jsstring) (n : nat) :
  forall token m m' calls,
    next_pages W region n token m = (m', calls) ->
    m' = record_results m (flat_map call_results calls).
Proof.
  induction n as [|n IH]; intros token m m' calls H; cbn in H.
  - injection H as <- <-. reflexivity.
  - destruct token as [tok|]; [|injection H as <- <-; reflexivity].
    destruct (truthy tok); [|injection H as <- <-; reflexivity].
    destruct (textSearch W (ByToken tok)) as [next|e].
    + destruct (next_pages W region n (next_page_token next) (record_page m next))
        as [m1 calls1] eqn:E.
      injection H as <- <-. apply IH in E. subst m1.
      cbn [flat_map call_results].
      rewrite record_results_app, record_page_results. reflexivity.
    + injection H as <- <-. reflexivity.
Qed.

Lemma search_regions_cons (W : world) (loc : location) (rest : list location)
    (m : Map basic) :
  search_regions W (loc :: rest) m =
  if cap <=? map_size m then (Ok m, [])
  else
    let call := SearchCall (loc_name loc) (ByLocation (loc_q loc)) (map_size m) in
    match textSearch W (ByLocation (loc_q loc)) with
    | Throw e => (Throw e, [call []])
    | Ok page =>
        let '(m1, calls) :=
          next_pages W (loc_name loc) 2 (next_page_token page) (record_page m page) in
        let '(r, calls') := search_regions W rest m1 in
        (r, call (page_results page) :: calls ++ calls')
    end.
Proof. reflexivity. Qed.

Lemma search_regions_fold (W : world) (locs : list location) :
  forall m m' calls,
    search_regions W locs m = (Ok m', calls) ->
    m' = record_results m (flat_map call_results calls).
Proof.
  induction locs as [|loc rest IH]; intros m m' calls H.
  - injection H as <- <-. reflexivity.
  - rewrite search_regions_cons in H. cbv zeta in H.
    destruct (cap <=? map_size m); [injection H as <- <-; reflexivity|].
    destruct (textSearch W (ByLocation (loc_q loc))) as [page|e]; [|discriminate].
    destruct (next_pages W (loc_name loc) 2 (next_page_token page) (record_page m page))
      as [m1 calls1] eqn:E1.
    destruct (search_regions W rest m1) as [r calls2] eqn:E2.
    injection H as -> <-.
    apply next_pages_fold in E1. apply IH in E2. subst.
    cbn [flat_map call_results]. rewrite flat_map_app, !record_results_app, record_page_results.
    reflexivity.
Qed.

Lemma process_place_id (W : world) (m : Map basic) (k : jsstring) (d : detail) :
  process_place W m k = Ok d -> place_id d = k.
Proof.
  unfold process_place, try_catch, bind.
  destruct (pRetry (getPlaceDetails W k) 2 0); [|discriminate].
  destruct (pRetry _ 1 0); [|discriminate].
  intro H; injection H as <-. reflexivity.
Qed.

Lemma pMap_ids (W : world) (m : Map basic) (ks : list jsstring) :
  forall ds, pMap (process_place W m) ks = Ok ds -> List.map place_id ds = ks.
Proof.
  induction ks as [|k ks IH]; intros ds H; cbn in H.
  - injection H as <-. reflexivity.
  - unfold bind in H.
    destruct (process_place W m k) as [d|] eqn:Ed; [|discriminate].
    destruct (pMap (process_place W m) ks) as [ds'|]; [|discriminate].
    injection H as <-. cbn. f_equal; [eapply process_place_id; eassumption|].
    apply IH. reflexivity.
Qed.

Lemma In_firstn {A} (x : A) (n : nat) (l : list A) : In x (firstn n l) -> In x l.
Proof.
  revert n; induction l as [|y l IH]; intros [|n] H; cbn in *; try contradiction.
  destruct H as [H|H]; [left; assumption | right; eapply IH; eassumption].
Qed.

Lemma NoDup_firstn {A} (n : nat) (l : list A) : NoDup l -> NoDup (firstn n l).
Proof.
  revert n; induction l as [|x l IH]; intros [|n] H; cbn; try constructor.
  - inversion H; subst. intro Hin. apply In_firstn in Hin. contradiction.
  - inversion H; subst. apply IH. assumption.
Qed.

End Deduplication.

Section DeduplicationClaims.

Import Places.

Lemma pMap_In {A B} (f : A -> outcome B) (l : list A) :
  forall bs b, pMap f l = Ok bs -> In b bs -> exists a, In a l /\ f a = Ok b.
Proof.
  induction l as [|a l IH]; intros bs b H Hin; cbn in H.
  - injection H as <-. destruct Hin.
  - unfold bind in H. destruct (f a) as [b0|] eqn:Ea; [|discriminate].
    destruct (pMap f l) as [bs'|] eqn:El; [|discriminate].
    injection H as <-. destruct Hin as [<-|Hin].
    + exists a. split; [left; reflexivity | exact Ea].
    + destruct (IH _ _ eq_refl Hin) as (a' & Ha & Hf).
      exists a'. split; [right; exact Ha | exact Hf].
Qed.

Lemma nullish_none_r {A} (a : option A) : nullish a None = a.
Proof. destruct a; reflexivity. Qed.

(** A record that the mapper returns carries the name and the address of
    the details when they have one, and those of [records] otherwise. *)
Lemma process_place_fields (W : world) (m : Map basic) (k : jsstring) (d : detail)
    (b : basic) :
  map_get m k = Some b ->
  process_place W m k = Ok d ->
  exists placeDetails,
    pRetry (getPlaceDetails W k) 2 0 = Ok placeDetails
    /\ place_id d = k
    /\ name d = nullish (opt_field placeDetails p_name) (b_name b)
    /\ address d = nullish (opt_field placeDetails p_formatted_address) (b_address b).
Proof.
  intro Hb. unfold process_place, try_catch, bind. rewrite Hb.
  destruct (pRetry (getPlaceDetails W k) 2 0) as [pd|]; [|discriminate].
  destruct (pRetry _ 1 0); [|discriminate].
  intro H; injection H as <-. exists pd. cbn [place_id name address].
  rewrite !nullish_none_r. repeat split; reflexivity.
Qed.

(** C1 (as the scripts have it).  In the Places script, when the loop over
    the regions ends normally, the map [records] has exactly one entry for
    each distinct place_id among the results of the pages received, and the
    entry holds the name and address of the first result that carried the
    place_id.  The records written are those of the first 100 keys, one per
    key; the name and the address of a written record are those of the
    details of the place when the details carry them, and otherwise those
    of the first result that carried the place_id. *)
Theorem C1_places_first_seen (W : world) (locs : list location)
    (records : Map basic) (calls : list search_call) :
  search_regions W locs [] = (Ok records, calls) ->
  let raws := flat_map call_results calls in
  NoDup (map_keys records)
  /\ (forall k, In k (map_keys records) <-> In k (List.map r_place_id raws))
  /\ (forall k r, first_with k raws = Some r ->
        map_get records k = Some (Basic (r_place_id r) (r_name r) (r_formatted_address r)))
  /\ (forall details,
        In (JsonFile details) (written (main_from W locs)) ->
        List.map place_id details = firstn 100 (map_keys records)
        /\ NoDup (List.map place_id details)
        /\ (forall d, In d details ->
              exists r placeDetails,
                first_with (place_id d) raws = Some r
                /\ pRetry (getPlaceDetails W (place_id d)) 2 0 = Ok placeDetails
                /\ name d = nullish (opt_field placeDetails p_name) (r_name r)
                /\ address d
                   = nullish (opt_field placeDetails p_formatted_address)
                       (r_formatted_address r))).
Proof.
  intros H raws.
  pose proof (search_regions_fold _ _ _ _ _ H) as Hfold. fold raws in Hfold.
  assert (Hnd : NoDup (map_keys records)).
  { subst records. apply NoDup_record_results. constructor. }
  assert (Hget : forall k, map_get records k = option_map basic_of (first_with k raws)).
  { intro k. subst records. rewrite map_get_record_results. reflexivity. }
  assert (Hkeys : forall k, In k (map_keys records) <-> In k (List.map r_place_id raws)).
  { intro k. split.
    - intro Hin. destruct (first_with k raws) eqn:E.
      + destruct (in_dec (list_eq_dec N.eq_dec) k (List.map r_place_id raws)) as [Hi|Hn];
          [assumption|].
        apply first_with_None in Hn. congruence.
      + exfalso. revert Hin. apply map_get_None. rewrite Hget, E. reflexivity.
    - intro Hin.
      destruct (in_dec (list_eq_dec N.eq_dec) k (map_keys records)) as [Hi|Hn];
        [assumption|].
      apply map_get_None in Hn. rewrite Hget in Hn.
      destruct (first_with k raws) eqn:E; [discriminate|].
      apply first_with_None in E. contradiction. }
  split; [exact Hnd|]. split; [exact Hkeys|].
  split; [intros k r E; rewrite Hget, E; reflexivity|].
  intros details Hin.
  assert (Ep : pMap (process_place W records) (firstn 100 (map_keys records)) = Ok details).
  { unfold main_from in Hin. rewrite H in Hin.
    destruct (pMap (process_place W records) (firstn 100 (map_keys records)))
      as [ds|] eqn:Ep; [|destruct Hin].
    destruct (write_json W); [|destruct Hin].
    destruct (write_csv W); cbn in Hin.
    - destruct Hin as [E|[E|[]]]; [|discriminate]. injection E as <-. reflexivity.
    - destruct Hin as [E|[]]. injection E as <-. reflexivity. }
  pose proof (pMap_ids _ _ _ _ Ep) as Hids.
  split; [exact Hids|]. split; [rewrite Hids; apply NoDup_firstn, Hnd|].
  intros d Hd.
  destruct (pMap_In _ _ _ _ Ep Hd) as (k & Hk & Hpp).
  apply In_firstn in Hk. apply Hkeys in Hk.
  destruct (first_with k raws) as [r|] eqn:Er;
    [|apply first_with_None in Er; contradiction].
  assert (Hb : map_get records k = Some (basic_of r)) by (rewrite Hget, Er; reflexivity).
  destruct (process_place_fields _ _ _ _ _ Hb Hpp) as (pd & Hpd & Hid & Hname & Haddr).
  exists r, pd. rewrite Hid. repeat split; assumption.
Qed.

Lemma C1_places_first_seen_witness :
  search_regions Worlds.places_aba LOCATIONS [] = (Ok Worlds.aba_records, Worlds.aba_calls)
  /\ NoDup (map_keys Worlds.aba_records)
  /\ map_get Worlds.aba_records (js "A")
     = Some (Basic (js "A") (Some (js "Alpha")) (Some (js "1 Canal St")))
  /\ (exists details,
        In (JsonFile details) (written (main Worlds.places_aba))
        /\ List.map place_id details = [js "A"; js "B"]
        /\ List.map name details = [Some (js "Alpha"); Some (js "Beta")]).
Proof.
  assert (H : search_regions Worlds.places_aba LOCATIONS []
              = (Ok Worlds.aba_records, Worlds.aba_calls)).
  { vm_compute. reflexivity. }
  split; [exact H|].
  destruct (C1_places_first_seen _ _ _ _ H) as (Hnd & _ & Hfirst & Hwritten).
  split; [exact Hnd|]. split.
  - apply (Hfirst (js "A") (Result (js "A") (Some (js "Alpha")) (Some (js "1 Canal St")))).
    vm_compute. reflexivity.
  - exists (match written (main Worlds.places_aba) with
            | JsonFile ds :: _ => ds
            | _ => []
            end).
    assert (Hin : In (JsonFile (match written (main Worlds.places_aba) with
                                | JsonFile ds :: _ => ds
                                | _ => []
                                end)) (written (main_from Worlds.places_aba LOCATIONS)))
      by (left; vm_compute; reflexivity).
    split; [exact Hin|].
    destruct (Hwritten _ Hin) as (Hids & _ & _).
    split; [|vm_compute; reflexivity].
    transitivity (firstn 100 (map_keys Worlds.aba_records));
      [exact Hids | vm_compute; reflexivity].
Defined.

End DeduplicationClaims.

Section NoDeduplication.

Lemma not_NoDup_aba {A} (a b : A) : ~ NoDup [a; b; a].
Proof.
  intro H. inversion H as [|x l Hnotin _]; subst.
  apply Hnotin. right. left. reflexivity.
Qed.

(** C1, as stated, fails on the browser-backed scripts: a search page that
    shows the containers of the places A, B and A again gives three records,
    two of them for A.  It also fails on the names that the Places script
    writes: the place B was first seen under the name Beta, its details
    carry the name Beta Dental, and that is the name written. *)
Lemma C1_counterexample_no_dedup :
  (exists rs,
      Reiki.scrapeReikiPractitioners ReikiWorlds.reiki_aba (ReikiWorlds.round_robin 8)
      = Some (Ok rs)
      /\ List.map Reiki.googleUrl rs = [ReikiWorlds.place "A"; ReikiWorlds.place "B"; ReikiWorlds.place "A"]
      /\ ~ NoDup (List.map Reiki.googleUrl rs))
  /\ (exists rs,
      fst (Dentists.scrapeDentists DentistWorlds.dentists_aba) = Ok rs
      /\ List.map Dentists.googleUrl rs = [Some (ReikiWorlds.place "A"); Some (ReikiWorlds.place "B"); Some (ReikiWorlds.place "A")]
      /\ ~ NoDup (List.map Dentists.googleUrl rs))
  /\ (exists details,
      In (Places.JsonFile details) (Places.written (Places.main MoreWorlds.places_partial_details))
      /\ first_with (js "B") (flat_map Places.call_results
                                (Places.searches (Places.main MoreWorlds.places_partial_details)))
         = Some (Places.Result (js "B") (Some (js "Beta")) (Some (js "2 Canal St")))
      /\ List.map Places.name details = [Some (js "Alpha"); Some (js "Beta Dental")]).
Proof.
  split; [|split].
  - exists (match Reiki.scrapeReikiPractitioners ReikiWorlds.reiki_aba
                    (ReikiWorlds.round_robin 8) with
            | Some (Ok rs) => rs
            | _ => []
            end).
    split; [vm_compute; reflexivity|].
    assert (E : List.map Reiki.googleUrl
                  (match Reiki.scrapeReikiPractitioners ReikiWorlds.reiki_aba
                           (ReikiWorlds.round_robin 8) with
                   | Some (Ok rs) => rs
                   | _ => []
                   end) = [ReikiWorlds.place "A"; ReikiWorlds.place "B"; ReikiWorlds.place "A"])
      by (vm_compute; reflexivity).
    split; [exact E|]. rewrite E. apply not_NoDup_aba.
  - exists (match fst (Dentists.scrapeDentists DentistWorlds.dentists_aba) with
            | Ok rs => rs
            | Throw _ => []
            end).
    split; [vm_compute; reflexivity|].
    assert (E : List.map Dentists.googleUrl
                  (match fst (Dentists.scrapeDentists DentistWorlds.dentists_aba) with
                   | Ok rs => rs
                   | Throw _ => []
                   end) = [Some (ReikiWorlds.place "A"); Some (ReikiWorlds.place "B"); Some (ReikiWorlds.place "A")])
      by (vm_compute; reflexivity).
    split; [exact E|]. rewrite E. apply not_NoDup_aba.
  - exists (match Places.written (Places.main MoreWorlds.places_partial_details) with
            | Places.JsonFile ds :: _ => ds
            | _ => []
            end).
    split; [left; vm_compute; reflexivity|].
    split; vm_compute; reflexivity.
Qed.

End NoDeduplication.

(* ===================================================================== *)
(** ** The cap *)
(* ===================================================================== *)

Section PlacesCap.

Import Places.

Lemma next_pages_calls (W : world) (region : jsstring) (n : nat) :
  forall token m, Forall started_below_cap (snd (next_pages W region n token m)).
Proof.
  induction n as [|n IH]; intros token m; cbn; [constructor|].
  destruct token as [tok|]; [|constructor].
  destruct (truthy tok); [|constructor].
  destruct (textSearch W (ByToken tok)) as [next|e].
  - specialize (IH (next_page_token next) (record_page m next)).
    destruct (next_pages W region n (next_page_token next) (record_page m next)).
    cbn in *. constructor; [exact I | assumption].
  - cbn. constructor; [exact I | constructor].
Qed.

Lemma search_regions_calls (W : world) (locs : list location) :
  forall m, Forall started_below_cap (snd (search_regions W locs m)).
Proof.
  induction locs as [|loc rest IH]; intro m; [constructor|].
  rewrite search_regions_cons. cbv zeta.
  destruct (cap <=? map_size m) eqn:Ecap; [constructor|].
  apply Nat.leb_gt in Ecap.
  destruct (textSearch W (ByLocation (loc_q loc))) as [page|e].
  - pose proof (next_pages_calls W (loc_name loc) 2 (next_page_token page)
                  (record_page m page)) as Hn.
    destruct (next_pages W (loc_name loc) 2 (next_page_token page) (record_page m page))
      as [m1 calls1].
    specialize (IH m1). destruct (search_regions W rest m1) as [r calls2].
    cbn in *. constructor; [exact Ecap|].
    apply Forall_app; split; assumption.
  - cbn. constructor; [exact Ecap | constructor].
Qed.

Lemma pMap_length {A B} (f : A -> outcome B) (l : list A) :
  forall bs, pMap f l = Ok bs -> length bs = length l.
Proof.
  induction l as [|a l IH]; intros bs H; cbn in H.
  - injection H as <-. reflexivity.
  - unfold bind in H. destruct (f a); [|discriminate].
    destruct (pMap f l) as [bs'|]; [|discriminate].
    injection H as <-. cbn. f_equal. apply IH. reflexivity.
Qed.

Lemma main_within_cap (W : world) (locs : list location) :
  length (placeIds (main_from W locs)) <= cap
  /\ Forall within_cap (written (main_from W locs))
  /\ Forall started_below_cap (searches (main_from W locs)).
Proof.
  pose proof (search_regions_calls W locs []) as Hcalls.
  unfold main_from.
  destruct (search_regions W locs []) as [[records|e] calls]; cbn in Hcalls.
  - assert (Hlen : length (firstn 100 (map_keys records)) <= cap).
    { rewrite length_firstn. unfold cap. lia. }
    destruct (pMap (process_place W records) (firstn 100 (map_keys records)))
      as [details|e] eqn:Ep.
    + apply pMap_length in Ep.
      assert (Hd : within_cap (JsonFile details)) by (cbn; lia).
      destruct (write_json W); [destruct (write_csv W)|]; cbn;
        (split; [exact Hlen | split; [|exact Hcalls]]).
      * constructor; [exact Hd|]. constructor; [exact I | constructor].
      * constructor; [exact Hd | constructor].
      * constructor.
    + cbn. split; [exact Hlen | split; [constructor | exact Hcalls]].
  - cbn. split; [lia | split; [constructor | exact Hcalls]].
Qed.

End PlacesCap.

Section DentistsCap.

Import Dentists.

Lemma scrape_listings_cap (W : world) (parents : list container) :
  forall sh,
    length (results sh) < cap ->
    length (results (snd (fst (scrape_listings W parents sh)))) <= cap
    /\ Forall below_cap (snd (scrape_listings W parents sh)).
Proof.
  induction parents as [|parent rest IH]; intros sh Hlt.
  - cbn. split; [lia | constructor].
  - cbn [scrape_listings].
    set (website := match c_website parent with Some h => or_else h [] | None => [] end).
    destruct (truthy website).
    + destruct (scrapeWebsiteForEmail (axios_get W) website) as [email|e].
      * cbn [results]. rewrite length_app. cbn [length].
        destruct (cap <=? length (results sh) + 1) eqn:E.
        -- cbn. rewrite length_app. cbn. split; [lia|].
           constructor; [exact Hlt | constructor].
        -- apply Nat.leb_gt in E.
           match goal with |- context [scrape_listings W rest ?s] =>
             specialize (IH s); destruct (scrape_listings W rest s) as [[r sh'] more]
           end.
           cbn in *. rewrite length_app in IH. cbn in IH.
           destruct (IH E) as [H1 H2]. split; [exact H1|].
           constructor; [exact Hlt | exact H2].
      * cbn. split; [lia|]. constructor; [exact Hlt | constructor].
    + cbn [results]. rewrite length_app. cbn [length].
      destruct (cap <=? length (results sh) + 1) eqn:E.
      * cbn. rewrite length_app. cbn. split; [lia | constructor].
      * apply Nat.leb_gt in E.
        match goal with |- context [scrape_listings W rest ?s] =>
          specialize (IH s); destruct (scrape_listings W rest s) as [[r sh'] more]
        end.
        cbn in *. rewrite length_app in IH. cbn in IH.
        destruct (IH E) as [H1 H2]. split; assumption.
Qed.

Lemma scrape_city_cap (W : world) (city : jsstring) (left : nat) :
  forall attempt sh,
    length (results sh) < cap ->
    length (results (fst (scrape_city W city left attempt sh))) <= cap
    /\ Forall below_cap (snd (scrape_city W city left attempt sh)).
Proof.
  induction left as [|left IH]; intros attempt sh Hlt.
  - cbn. split; [lia | constructor].
  - cbn [scrape_city].
    destruct (load_listings W city (S attempt)) as [parents|e].
    + pose proof (scrape_listings_cap W parents sh Hlt) as [H1 H2].
      destruct (scrape_listings W parents sh) as [[[u|e] sh'] fetched]; cbn in H1, H2.
      * cbn. split; [exact H1|]. constructor; [exact Hlt | exact H2].
      * destruct (cap <=? length (results sh')) eqn:E.
        -- cbn. split; [exact H1|]. constructor; [exact Hlt | exact H2].
        -- apply Nat.leb_gt in E. specialize (IH (S attempt) sh' E).
           destruct (scrape_city W city left (S attempt) sh') as [sh'' more].
           cbn in *. destruct IH as [H3 H4]. split; [exact H3|].
           constructor; [exact Hlt|]. apply Forall_app; split; assumption.
    + destruct (cap <=? length (results sh)) eqn:E.
      * apply Nat.leb_le in E. lia.
      * specialize (IH (S attempt) sh Hlt).
        destruct (scrape_city W city left (S attempt) sh) as [sh' more].
        cbn in *. destruct IH as [H3 H4]. split; [exact H3|].
        constructor; [exact Hlt | exact H4].
Qed.

Lemma scrape_cities_cap (W : world) (cs : list jsstring) :
  forall sh,
    length (results sh) < cap ->
    length (results (fst (scrape_cities W cs sh))) <= cap
    /\ Forall below_cap (snd (scrape_cities W cs sh)).
Proof.
  induction cs as [|city rest IH]; intros sh Hlt.
  - cbn. split; [lia | constructor].
  - cbn [scrape_cities].
    pose proof (scrape_city_cap W city 2 0 sh Hlt) as [H1 H2].
    destruct (scrape_city W city 2 0 sh) as [sh' fetched]. cbn in H1, H2.
    destruct (cap <=? length (results sh')) eqn:E.
    + cbn. split; assumption.
    + apply Nat.leb_gt in E. specialize (IH sh' E).
      destruct (scrape_cities W rest sh') as [sh'' more].
      cbn in *. destruct IH as [H3 H4]. split; [exact H3|].
      apply Forall_app; split; assumption.
Qed.

Lemma scrapeDentists_within_cap (W : world) (cs : list jsstring) :
  match fst (scrapeDentists_from W cs) with
  | Ok data => length data <= cap
  | Throw _ => True
  end
  /\ Forall below_cap (snd (scrapeDentists_from W cs)).
Proof.
  unfold scrapeDentists_from.
  destruct (launch W); [|cbn; split; [exact I | constructor]].
  assert (Hlt : length (results (Shared [] 1)) < cap) by (cbn; unfold cap; lia).
  pose proof (scrape_cities_cap W cs (Shared [] 1) Hlt) as [H1 H2].
  destruct (scrape_cities W cs (Shared [] 1)) as [sh fetched]. cbn in *.
  split; [|exact H2].
  destruct (browser_close W); cbn; [exact H1 | exact I].
Qed.

End DentistsCap.

Section CapClaims.

(** C2, as stated, fails on the Places script: the cap is only tested at
    the start of a region.  With three pages of twenty new places per city,
    the map holds 100 places after the second page of Rotterdam, and the
    third page of Rotterdam is still requested; the map then holds 120
    places, of which 100 are written. *)
Lemma C2_counterexample_fetch_after_cap :
  List.map (fun c => (Places.call_region c, Places.call_size_before c))
    (Places.searches (Places.main Worlds.places_many))
  = [ (js "Amsterdam", 0); (js "Amsterdam", 20); (js "Amsterdam", 40);
      (js "Rotterdam", 60); (js "Rotterdam", 80); (js "Rotterdam", 100) ]
  /\ (exists c, In c (Places.searches (Places.main Worlds.places_many))
                /\ Places.cap <= Places.call_size_before c)
  /\ length (Places.placeIds (Places.main Worlds.places_many)) = 100
  /\ Places.fatal (Places.main Worlds.places_many) = None.
Proof.
  assert (E : List.map (fun c => (Places.call_region c, Places.call_size_before c))
                (Places.searches (Places.main Worlds.places_many))
              = [ (js "Amsterdam", 0); (js "Amsterdam", 20); (js "Amsterdam", 40);
                  (js "Rotterdam", 60); (js "Rotterdam", 80); (js "Rotterdam", 100) ])
    by (vm_compute; reflexivity).
  split; [exact E|]. split; [|split; vm_compute; reflexivity].
  exists (nth 5 (Places.searches (Places.main Worlds.places_many))
            (Places.SearchCall [] (Places.ByToken []) 0 [])).
  split.
  - apply nth_In.
    rewrite <- (length_map (fun c => (Places.call_region c, Places.call_size_before c))), E.
    cbn. lia.
  - vm_compute. apply le_n.
Qed.

(** C2 (as the scripts have it).  In the Places script at most 100 places
    are handed to the details phase and at most 100 records are written, and
    no region is started once the map holds 100 places (the further pages of
    the region in progress are still requested).  In the dentist script
    [results] never holds more than 500 records and no listing page or
    website is requested once it holds 500. *)
Theorem C2_cap_by_script (Wp : Places.world) (locs : list Places.location)
    (Wd : Dentists.world) (cs : list jsstring) :
  (length (Places.placeIds (Places.main_from Wp locs)) <= 100
   /\ Forall within_cap (Places.written (Places.main_from Wp locs))
   /\ Forall started_below_cap (Places.searches (Places.main_from Wp locs)))
  /\ (match fst (Dentists.scrapeDentists_from Wd cs) with
      | Ok data => length data <= 500
      | Throw _ => True
      end
      /\ Forall below_cap (snd (Dentists.scrapeDentists_from Wd cs))).
Proof.
  split; [apply main_within_cap | apply scrapeDentists_within_cap].
Qed.

(** In the Reiki script the tasks of two countries can both be between the
    test of the cap and their push: under this schedule [results] ends with
    101 records. *)
Remark reiki_cap_overshoot :
  exists rs,
    Reiki.scrapeReikiPractitioners ReikiWorlds.reiki_two_regions
      ReikiWorlds.overshoot_schedule = Some (Ok rs)
    /\ length rs = 101.
Proof.
  exists (match Reiki.scrapeReikiPractitioners ReikiWorlds.reiki_two_regions
                  ReikiWorlds.overshoot_schedule with
          | Some (Ok rs) => rs
          | _ => []
          end).
  split; vm_compute; reflexivity.
Qed.

End CapClaims.

(* ===================================================================== *)
(** ** Failures in the Places script *)
(* ===================================================================== *)

Section PlacesFailures.

Import Places.

Lemma pRetry_all_fail {A} (f : nat -> outcome A) (e : exn) (retries : nat) :
  e <> TypeError ->
  (forall attempt, f attempt = Throw e) ->
  forall attempt, pRetry f retries attempt = Throw e.
Proof.
  intros Hne Hf. induction retries as [|r IH]; intro attempt; cbn; rewrite Hf.
  - destruct e; reflexivity.
  - destruct e; try apply IH. contradiction.
Qed.

(** Whatever leaves the [try] block of the mapper, the handler itself throws. *)
Lemma process_place_throws (W : world) (records : Map basic) (k : jsstring) (e : exn) :
  process_place W records k = Throw e -> e = ReferenceError.
Proof.
  unfold process_place, try_catch.
  match goal with |- context [match ?b with Ok _ => _ | Throw _ => _ end] =>
    destruct b end; [discriminate|].
  intro H; injection H as <-. reflexivity.
Qed.

Lemma process_place_details_down (W : world) (records : Map basic) (k : jsstring) :
  (forall attempt, details_api W k attempt = Throw NetworkError) ->
  process_place W records k = Throw ReferenceError.
Proof.
  intro H. unfold process_place.
  rewrite (pRetry_all_fail (getPlaceDetails W k) NetworkError 2).
  - reflexivity.
  - discriminate.
  - intro attempt. unfold getPlaceDetails. rewrite H. reflexivity.
Qed.

(** C3, on the failing input.  Amsterdam yields the places A and B and the
    details request for B fails at each of its three attempts.  The handler
    of the mapper does not produce the degraded record: it throws, [pMap]
    rejects, the outer handler of [main] logs a fatal error, and neither
    file is written, although the record of A had been collected. *)
Theorem C3_details_failure_escapes :
  process_place Worlds.places_details_down Worlds.aba_records (js "A")
  = Ok (Detail (js "A") (Some (js "Alpha Dental")) (Some (js "1 Canal St"))
               (Some (js "020 1234")) None None)
  /\ process_place Worlds.places_details_down Worlds.aba_records (js "B")
     = Throw ReferenceError
  /\ placeIds (main Worlds.places_details_down) = [js "A"; js "B"]
  /\ written (main Worlds.places_details_down) = []
  /\ fatal (main Worlds.places_details_down) = Some ReferenceError.
Proof. repeat split; vm_compute; reflexivity. Qed.

Lemma size_record_result (m : Map basic) (r : result) :
  map_size m <= map_size (record_result m r).
Proof.
  unfold record_result, map_has.
  destruct (map_get m (r_place_id r)) eqn:E; cbn [negb]; [apply le_n|].
  rewrite map_set_fresh by assumption. unfold map_size. rewrite length_app. lia.
Qed.

Lemma size_record_results (rs : list result) (m : Map basic) :
  map_size m <= map_size (record_results m rs).
Proof.
  revert m; induction rs as [|r rs IH]; intro m; [apply le_n|].
  change (record_results m (r :: rs)) with (record_results (record_result m r) rs).
  etransitivity; [apply (size_record_result m r) | apply IH].
Qed.

(** While the cap is not reached, the loop over a list of regions followed
    by others goes on with the others. *)
Lemma search_regions_app (W : world) (l1 l2 : list location) :
  forall m m1 c1,
    search_regions W l1 m = (Ok m1, c1) ->
    map_size m1 < cap ->
    search_regions W (l1 ++ l2) m =
    (fst (search_regions W l2 m1), c1 ++ snd (search_regions W l2 m1)).
Proof.
  induction l1 as [|loc rest IH]; intros m m1 c1 H Hlt.
  - injection H as <- <-. cbn. destruct (search_regions W l2 m); reflexivity.
  - cbn [app]. rewrite search_regions_cons in *. cbv zeta in *.
    destruct (cap <=? map_size m) eqn:Ecap.
    + injection H as <- <-. apply Nat.leb_le in Ecap. lia.
    + destruct (textSearch W (ByLocation (loc_q loc))) as [page|e]; [|discriminate].
      destruct (next_pages W (loc_name loc) 2 (next_page_token page) (record_page m page))
        as [m' calls].
      destruct (search_regions W rest m') as [r calls'] eqn:E.
      injection H as -> <-.
      rewrite (IH m' m1 calls' E Hlt). cbn.
      rewrite <- app_assoc. reflexivity.
Qed.

(** C4 (as the script has it).  When the first text search of a region is
    answered REQUEST_DENIED, the call is made once and its exception ends
    [main]: the searches end with that call, no place is handed to the
    details phase, no file is written, and the outer handler reports the
    error. *)
Theorem C4_denied_first_page_ends_run (W : world)
    (before after : list location) (loc : location)
    (records : Map basic) (calls : list search_call) (json : search_json) :
  search_regions W before [] = (Ok records, calls) ->
  map_size records < cap ->
  search_api W (ByLocation (loc_q loc)) = Ok json ->
  status json = js "REQUEST_DENIED" ->
  main_from W (before ++ loc :: after)
  = Run (calls ++ [SearchCall (loc_name loc) (ByLocation (loc_q loc)) (map_size records) []])
        [] [] (Some RequestDenied).
Proof.
  intros Hbefore Hlt Hjson Hstatus.
  unfold main_from.
  rewrite (search_regions_app W before (loc :: after) [] records calls Hbefore Hlt).
  rewrite search_regions_cons. cbv zeta.
  apply Nat.leb_gt in Hlt. rewrite Hlt.
  unfold textSearch. rewrite Hjson. cbn [bind]. rewrite Hstatus.
  reflexivity.
Qed.

Lemma C4_denied_first_page_ends_run_witness :
  let amsterdam := Location (js "Amsterdam") (js "52.3676,4.9041") in
  let rotterdam := Location (js "Rotterdam") (js "51.9244,4.4777") in
  search_regions Worlds.places_denied [amsterdam] [] = (Ok Worlds.aba_records,
     [SearchCall (js "Amsterdam") (ByLocation (js "52.3676,4.9041")) 0 Worlds.aba])
  /\ map_size Worlds.aba_records < cap
  /\ main Worlds.places_denied
     = Run [SearchCall (js "Amsterdam") (ByLocation (js "52.3676,4.9041")) 0 Worlds.aba;
            SearchCall (js "Rotterdam") (ByLocation (js "51.9244,4.4777")) 2 []]
           [] [] (Some RequestDenied).
Proof.
  intros amsterdam rotterdam.
  assert (H1 : search_regions Worlds.places_denied [amsterdam] [] = (Ok Worlds.aba_records,
     [SearchCall (js "Amsterdam") (ByLocation (js "52.3676,4.9041")) 0 Worlds.aba]))
    by (vm_compute; reflexivity).
  assert (H2 : map_size Worlds.aba_records < cap) by (vm_compute; lia).
  split; [exact H1|]. split; [exact H2|].
  apply (C4_denied_first_page_ends_run Worlds.places_denied [amsterdam]
           (skipn 2 LOCATIONS) rotterdam Worlds.aba_records _
           (SearchJson (js "REQUEST_DENIED") None None) H1 H2);
    vm_compute; reflexivity.
Defined.

(** C4, as stated, fails: after the denial for Rotterdam no region is
    searched any more, and the places collected in Amsterdam are not
    written. *)
Lemma C4_counterexample_run_aborts :
  List.map call_region (searches (main Worlds.places_denied))
  = [js "Amsterdam"; js "Rotterdam"]
  /\ ~ In (js "The Hague") (List.map call_region (searches (main Worlds.places_denied)))
  /\ written (main Worlds.places_denied) = []
  /\ fatal (main Worlds.places_denied) = Some RequestDenied.
Proof.
  assert (E : List.map call_region (searches (main Worlds.places_denied))
              = [js "Amsterdam"; js "Rotterdam"]) by (vm_compute; reflexivity).
  split; [exact E|]. split; [|split; vm_compute; reflexivity].
  rewrite E. intros [H|[H|[]]]; vm_compute in H; discriminate.
Qed.

(** A denial on a further page of a region is caught: the pagination of the
    region stops and the loop goes on with the next region. *)
Lemma denied_next_page_is_confined (W : world) (loc : location)
    (rest : list location) (m : Map basic) (page json : search_json) (tok : jsstring) :
  map_size m < cap ->
  textSearch W (ByLocation (loc_q loc)) = Ok page ->
  next_page_token page = Some tok ->
  truthy tok = true ->
  search_api W (ByToken tok) = Ok json ->
  status json = js "REQUEST_DENIED" ->
  search_regions W (loc :: rest) m =
  (fst (search_regions W rest (record_page m page)),
   SearchCall (loc_name loc) (ByLocation (loc_q loc)) (map_size m) (page_results page)
   :: SearchCall (loc_name loc) (ByToken tok) (map_size (record_page m page)) []
   :: snd (search_regions W rest (record_page m page))).
Proof.
  intros Hlt Hpage Htok Htruthy Hjson Hstatus.
  rewrite search_regions_cons. cbv zeta.
  apply Nat.leb_gt in Hlt. rewrite Hlt, Hpage, Htok.
  cbn [next_pages]. rewrite Htruthy.
  unfold textSearch at 1. rewrite Hjson. cbn [bind]. rewrite Hstatus. cbn.
  destruct (search_regions W rest (record_page m page)); reflexivity.
Qed.

End PlacesFailures.

(* ===================================================================== *)
(** ** The email extractors *)
(* ===================================================================== *)

Section RegexFacts.

Lemma test_g_0 (r : regex) (s : jsstring) : fst (test_g r 0 s) = test r s.
Proof.
  unfold test_g, test. cbn [length Nat.ltb Nat.leb skipn].
  destruct (exec_at r 0 s) as [[i n]|]; reflexivity.
Qed.

Lemma test_g_0_false (r : regex) (s : jsstring) :
  test r s = false -> test_g r 0 s = (false, 0).
Proof.
  unfold test_g, test. cbn [length Nat.ltb Nat.leb skipn].
  destruct (exec_at r 0 s) as [[i n]|]; [discriminate | reflexivity].
Qed.

(** A regex object whose [lastIndex] is 0 finds the first element that the
    pattern matches: a failed [test] leaves [lastIndex] at 0. *)
Lemma find_test_g_0 (r : regex) (l : list jsstring) :
  fst (find_test_g r 0 l) = find (test r) l.
Proof.
  induction l as [|e l IH]; [reflexivity|].
  cbn [find_test_g find].
  destruct (test r e) eqn:E.
  - pose proof (test_g_0 r e) as H. rewrite E in H.
    destruct (test_g r 0 e) as [b li]. cbn in H. subst b. reflexivity.
  - rewrite (test_g_0_false _ _ E). exact IH.
Qed.

End RegexFacts.

Section ReikiExtractor.

Import Reiki.

Lemma emailRegex_nonempty (e : jsstring) : test emailRegex e = true -> truthy e = true.
Proof. destruct e; [vm_compute; discriminate | reflexivity]. Qed.





(** What one page yields when it has a mailto link that the pattern matches. *)
Lemma probe_mailto (t : tab) (target : jsstring) (v : view)
    (hrefs : list jsstring) (e : jsstring) :
  goto t target = Ok v ->
  mailto_hrefs v = Ok hrefs ->
  find (test emailRegex) (List.map mailto_target hrefs) = Some e ->
  probe t 0 target = Ok (Some e).
Proof.
  intros Hg Hh Hf. unfold probe. rewrite Hg. cbn [bind]. rewrite Hh. cbn [bind].
  rewrite find_test_g_0, Hf.
  destruct (List.map mailto_target hrefs) as [|x l]; [discriminate|].
  apply find_some in Hf as [_ Hf]. rewrite (emailRegex_nonempty _ Hf). reflexivity.
Qed.


End ReikiExtractor.

Section MailtoPreference.



End MailtoPreference.

Section Placeholders.

Lemma str_match_matches (r : regex) (s : jsstring) :
  str_match r s = match matches r s with [] => None | ms => Some ms end.
Proof. reflexivity. Qed.






End Placeholders.

Section NoEmail.




End NoEmail.

(* ===================================================================== *)
(** ** The exit status *)
(* ===================================================================== *)

Section ReikiTermination.

Import Reiki.

Variable W : world.

Lemma while_measure_next (country : jsstring) (attempt : nat) :
  attempt < 2 ->
  while_measure W country attempt
  = while_measure W country (S attempt) + 2 * listed W country (S attempt) + 2.
Proof.
  intro H. destruct attempt as [|[|a]]; cbn [while_measure]; lia.
Qed.

Lemma leave_attempt_measure (country : jsstring) (attempt : nat)
    (success : bool) (page : option nat) :
  task_measure W (country, leave_attempt W country attempt success page)
  <= while_measure W country attempt.
Proof.
  unfold leave_attempt. destruct page as [opened|]; [|apply le_n].
  destruct (close_search_page W country opened); cbn; lia.
Qed.

Lemma next_listing_measure (country : jsstring) (attempt : nat) (todo : list container) :
  task_measure W (country, next_listing W country attempt todo)
  <= while_measure W country attempt + 2 * length todo.
Proof.
  destruct todo as [|parent rest]; cbn [next_listing].
  - pose proof (leave_attempt_measure country attempt true (Some attempt)). lia.
  - cbn. lia.
Qed.

(** Every step of a task that has not ended brings it closer to its end,
    whatever the other tasks have pushed. *)
Lemma step_measure (country : jsstring) (p : pc) (sh : shared) :
  final p = false ->
  task_measure W (country, fst (step W country p sh)) < task_measure W (country, p).
Proof.
  destruct p as [attempt success page|attempt parent todo|attempt todo| |e];
    intro Hf; try discriminate; cbn [step].
  - destruct ((attempt <? 2) && negb success && (length (results sh) <? cap)) eqn:E.
    + apply andb_true_iff in E as [E _]. apply andb_true_iff in E as [E _].
      apply Nat.ltb_lt in E.
      pose proof (while_measure_next country attempt E) as Hw.
      change (task_measure W (country, AtWhile attempt success page))
        with (while_measure W country attempt).
      destruct (new_search_page W country (S attempt)).
      * unfold listed in Hw.
        destruct (load_listings W country (S attempt)) as [parents|e]; cbn [fst].
        -- pose proof (next_listing_measure country (S attempt) parents). lia.
        -- pose proof (leave_attempt_measure country (S attempt) false (Some (S attempt))).
           lia.
      * cbn [fst].
        pose proof (leave_attempt_measure country (S attempt) false page). lia.
    + cbn. destruct attempt as [|[|a]]; cbn; lia.
  - destruct (listing_email W (listing_website W parent)); cbn [fst].
    + cbn. lia.
    + pose proof (leave_attempt_measure country attempt false (Some attempt)).
      cbn [task_measure snd fst]. lia.
  - destruct (cap <=? length (results sh)); cbn [fst].
    + pose proof (leave_attempt_measure country attempt true (Some attempt)).
      cbn [task_measure snd fst]. lia.
    + pose proof (next_listing_measure country attempt todo).
      cbn [task_measure snd fst]. lia.
Qed.

Lemma nth_error_split_at {A} (l : list A) (i : nat) (x : A) :
  nth_error l i = Some x -> l = firstn i l ++ x :: skipn (S i) l.
Proof.
  revert i; induction l as [|y l IH]; intros [|i] H; cbn in *; try discriminate.
  - injection H as ->. reflexivity.
  - f_equal. apply IH. exact H.
Qed.

Lemma list_sum_middle (a b : list nat) (x : nat) :
  list_sum (a ++ x :: b) = list_sum a + x + list_sum b.
Proof.
  rewrite list_sum_app. change (list_sum (x :: b)) with (x + list_sum b). lia.
Qed.

Lemma step_task_measure (i : nat) (st : state) (country : jsstring) (p : pc) :
  nth_error (tasks st) i = Some (country, p) ->
  final p = false ->
  total_measure W (step_task W i st) < total_measure W st.
Proof.
  intros Hn Hf. unfold step_task. rewrite Hn.
  pose proof (step_measure country p (store st) Hf) as Hs.
  destruct (step W country p (store st)) as [p' sh']. cbn [fst] in Hs.
  unfold total_measure. cbn [tasks].
  rewrite (nth_error_split_at _ _ _ Hn) at 3.
  rewrite !map_app. cbn [List.map]. rewrite !list_sum_middle. lia.
Qed.

Lemma pick_running (ts : list (jsstring * pc)) :
  (exists i country p, nth_error ts i = Some (country, p) /\ final p = false)
  \/ forallb (fun t => final (snd t)) ts = true.
Proof.
  induction ts as [|[country p] ts IH]; [right; reflexivity|].
  destruct (final p) eqn:E.
  - destruct IH as [(i & c & q & H1 & H2)|H].
    + left. exists (S i), c, q. split; assumption.
    + right. cbn. rewrite E. exact H.
  - left. exists 0, country, p. split; [reflexivity | exact E].
Qed.

Lemma not_crashed (ts : list (jsstring * pc)) :
  find (fun t => match snd t with Crashed _ => true | _ => false end) ts = None ->
  forallb (fun t => final (snd t)) ts = true ->
  forallb (fun t => match snd t with Finished => true | _ => false end) ts = true.
Proof.
  induction ts as [|[country p] ts IH]; intros Hc Hf; [reflexivity|].
  cbn in *. destruct p; cbn in *; try discriminate.
  - apply IH; assumption.
Qed.

Lemma crashed_None (st : state) :
  crashed st = None ->
  find (fun t => match snd t with Crashed _ => true | _ => false end) (tasks st) = None.
Proof.
  unfold crashed. intro H.
  destruct (find _ (tasks st)) as [[country p]|] eqn:E; [|reflexivity].
  apply find_some in E as [_ E]. cbn in E. destruct p; discriminate.
Qed.

(** From every state some schedule runs the tasks until one has crashed or
    all have finished. *)
Lemma tasks_settle (n : nat) :
  forall st, total_measure W st <= n ->
  exists schedule,
    crashed (run_schedule W schedule st) <> None
    \/ all_finished (run_schedule W schedule st) = true.
Proof.
  induction n as [|n IH]; intros st Hn.
  - destruct (crashed st) eqn:Ec; [exists []; left; cbn; congruence|].
    destruct (pick_running (tasks st)) as [(i & c & p & H1 & H2)|H].
    + pose proof (step_task_measure i st c p H1 H2). lia.
    + exists []. right. cbn. apply not_crashed; [apply crashed_None, Ec | exact H].
  - destruct (crashed st) eqn:Ec; [exists []; left; cbn; congruence|].
    destruct (pick_running (tasks st)) as [(i & c & p & H1 & H2)|H].
    + pose proof (step_task_measure i st c p H1 H2) as Hlt.
      destruct (IH (step_task W i st) ltac:(lia)) as [schedule Hs].
      exists (i :: schedule). cbn [run_schedule]. rewrite Ec. exact Hs.
    + exists []. right. cbn. apply not_crashed; [apply crashed_None, Ec | exact H].
Qed.

(** Under some schedule the script ends, with a status. *)
Lemma reiki_entry_total : exists schedule status, entry W schedule = Some status.
Proof.
  destruct (tasks_settle (total_measure W initial) initial (le_n _)) as [schedule H].
  exists schedule. unfold entry, scrapeReikiPractitioners.
  destruct (launch W); [|eexists; reflexivity].
  destruct (crashed (run_schedule W schedule initial)) eqn:Ec; [eexists; reflexivity|].
  destruct H as [H|H]; [contradiction|]. rewrite H.
  destruct (browser_close W); cbn; [|eexists; reflexivity].
  destruct (writeRecords W); eexists; reflexivity.
Qed.

End ReikiTermination.

Section ExitStatus.

Lemma dentists_scrape_outcome (W : Dentists.world) :
  (exists data, fst (Dentists.scrapeDentists W) = Ok data)
  <-> Dentists.launch W = Ok tt /\ Dentists.browser_close W = Ok tt.
Proof.
  unfold Dentists.scrapeDentists, Dentists.scrapeDentists_from.
  destruct (Dentists.launch W) as [[]|e].
  - destruct (Dentists.scrape_cities W Dentists.cities (Dentists.Shared [] 1)) as [sh f].
    cbn [fst]. destruct (Dentists.browser_close W) as [[]|e]; cbn.
    + split; [intros _; split; reflexivity | intros _; eexists; reflexivity].
    + split; [intros [d H]; discriminate | intros [_ H]; discriminate].
  - cbn. split; [intros [d H]; discriminate | intros [H _]; discriminate].
Qed.

Lemma productive_bound (W : Reiki.world) (schedule : list nat) :
  forall st, Schedules.productive W schedule st ->
             length schedule <= total_measure W st.
Proof.
  induction schedule as [|i rest IH]; intros st H; cbn [length]; [lia|].
  destruct H as (_ & (country & p & Hn & Hf) & Hrest).
  pose proof (step_task_measure W i st country p Hn Hf).
  specialize (IH _ Hrest). lia.
Qed.

Lemma productive_app (W : Reiki.world) (a b : list nat) :
  forall st,
    Schedules.productive W a st ->
    Schedules.productive W b (Reiki.run_schedule W a st) ->
    Schedules.productive W (a ++ b) st.
Proof.
  induction a as [|i a IH]; intros st Ha Hb; cbn [app]; [exact Hb|].
  destruct Ha as (Hc & Hrun & Ha). cbn [Reiki.run_schedule] in Hb. rewrite Hc in Hb.
  cbn [Schedules.productive]. split; [exact Hc|]. split; [exact Hrun|].
  apply IH; assumption.
Qed.

(** A run that has not ended can go on. *)
Lemma productive_progress (W : Reiki.world) (schedule : list nat) (st : Reiki.state) :
  Schedules.productive W schedule st ->
  Schedules.settled (Reiki.run_schedule W schedule st)
  \/ exists i, Schedules.productive W (schedule ++ [i]) st.
Proof.
  intro H. unfold Schedules.settled.
  destruct (Reiki.crashed (Reiki.run_schedule W schedule st)) eqn:Ec;
    [left; left; discriminate|].
  destruct (pick_running (Reiki.tasks (Reiki.run_schedule W schedule st)))
    as [(i & c & p & H1 & H2)|Hall].
  - right. exists i. apply productive_app; [exact H|].
    cbn [Schedules.productive]. split; [exact Ec|]. split; [|exact I].
    exists c, p. split; assumption.
  - left. right. apply not_crashed; [apply crashed_None, Ec | exact Hall].
Qed.

Lemma leave_attempt_crash (W : Reiki.world) (country : jsstring) (attempt : nat)
    (success : bool) (page : option nat) (e : exn) :
  Reiki.leave_attempt W country attempt success page = Reiki.Crashed e ->
  exists opened, Reiki.close_search_page W country opened = Throw e.
Proof.
  unfold Reiki.leave_attempt. destruct page as [opened|]; [|discriminate].
  destruct (Reiki.close_search_page W country opened) eqn:E; [discriminate|].
  intro H. injection H as <-. exists opened. exact E.
Qed.

Lemma next_listing_crash (W : Reiki.world) (country : jsstring) (attempt : nat)
    (todo : list Reiki.container) (e : exn) :
  Reiki.next_listing W country attempt todo = Reiki.Crashed e ->
  exists opened, Reiki.close_search_page W country opened = Throw e.
Proof.
  destruct todo; cbn [Reiki.next_listing]; [apply leave_attempt_crash | discriminate].
Qed.

(** A task crashes only when a search page of its country cannot be
    closed. *)
Lemma step_crash (W : Reiki.world) (country : jsstring) (p : Reiki.pc)
    (sh : Reiki.shared) (e : exn) :
  fst (Reiki.step W country p sh) = Reiki.Crashed e ->
  p = Reiki.Crashed e
  \/ exists opened, Reiki.close_search_page W country opened = Throw e.
Proof.
  destruct p as [attempt success page|attempt parent todo|attempt todo| |e'];
    cbn [Reiki.step].
  - destruct ((attempt <? 2) && negb success && (length (Reiki.results sh) <? Reiki.cap));
      [|discriminate].
    destruct (Reiki.new_search_page W country (S attempt));
      [destruct (Reiki.load_listings W country (S attempt))|]; cbn [fst]; intro H; right.
    + eapply next_listing_crash; eassumption.
    + eapply leave_attempt_crash; eassumption.
    + eapply leave_attempt_crash; eassumption.
  - destruct (Reiki.listing_email W (Reiki.listing_website W parent)); cbn [fst];
      [discriminate|].
    intro H. right. eapply leave_attempt_crash; eassumption.
  - destruct (Reiki.cap <=? length (Reiki.results sh)); cbn [fst]; intro H; right.
    + eapply leave_attempt_crash; eassumption.
    + eapply next_listing_crash; eassumption.
  - discriminate.
  - cbn. intro H. left. exact H.
Qed.

Lemma In_skipn {A} (x : A) (n : nat) (l : list A) : In x (skipn n l) -> In x l.
Proof.
  revert n; induction l as [|y l IH]; intros [|n] H; cbn in *; try contradiction; auto.
  right. eapply IH; eassumption.
Qed.

Lemma step_task_crash (W : Reiki.world) (i : nat) (st : Reiki.state) :
  (forall c e, In (c, Reiki.Crashed e) (Reiki.tasks st) ->
               exists opened, Reiki.close_search_page W c opened = Throw e) ->
  forall c e, In (c, Reiki.Crashed e) (Reiki.tasks (Reiki.step_task W i st)) ->
              exists opened, Reiki.close_search_page W c opened = Throw e.
Proof.
  intros Hinv c e. unfold Reiki.step_task.
  destruct (nth_error (Reiki.tasks st) i) as [[country p]|] eqn:Hn; [|apply Hinv].
  pose proof (step_crash W country p (Reiki.store st) e) as Hs.
  destruct (Reiki.step W country p (Reiki.store st)) as [p' sh']. cbn [fst] in Hs.
  cbn [Reiki.tasks]. intro Hin. apply in_app_or in Hin as [Hin|[Hin|Hin]].
  - apply Hinv. eapply In_firstn. exact Hin.
  - injection Hin as -> ->. destruct (Hs eq_refl) as [->|H]; [|exact H].
    apply Hinv. eapply nth_error_In. exact Hn.
  - apply Hinv. eapply In_skipn. exact Hin.
Qed.

Lemma run_schedule_crash (W : Reiki.world) (schedule : list nat) :
  forall st,
    (forall c e, In (c, Reiki.Crashed e) (Reiki.tasks st) ->
                 exists opened, Reiki.close_search_page W c opened = Throw e) ->
    forall c e, In (c, Reiki.Crashed e) (Reiki.tasks (Reiki.run_schedule W schedule st)) ->
                exists opened, Reiki.close_search_page W c opened = Throw e.
Proof.
  induction schedule as [|i rest IH]; intros st Hinv; cbn [Reiki.run_schedule];
    [exact Hinv|].
  destruct (Reiki.crashed st); [exact Hinv|].
  apply IH. apply step_task_crash. exact Hinv.
Qed.

(** What makes [scrapeReikiPractitioners] reject. *)
Lemma reiki_scrape_throws (W : Reiki.world) (schedule : list nat) (e : exn) :
  Reiki.scrapeReikiPractitioners W schedule = Some (Throw e) ->
  Reiki.launch W = Throw e
  \/ (exists country opened, Reiki.close_search_page W country opened = Throw e)
  \/ Reiki.browser_close W = Throw e.
Proof.
  unfold Reiki.scrapeReikiPractitioners.
  destruct (Reiki.launch W) as [u|e0]; [|intro H; injection H as <-; left; reflexivity].
  destruct (Reiki.crashed (Reiki.run_schedule W schedule Reiki.initial)) as [e0|] eqn:Ec.
  - intro H. injection H as <-. right. left.
    unfold Reiki.crashed in Ec.
    destruct (find _ (Reiki.tasks (Reiki.run_schedule W schedule Reiki.initial)))
      as [[c p]|] eqn:Ef; [|discriminate].
    destruct p; try discriminate. injection Ec as ->.
    apply find_some in Ef as [Hin _].
    exists c. apply (run_schedule_crash W schedule Reiki.initial); [|exact Hin].
    intros c' e' Hin'. cbn in Hin'.
    repeat (destruct Hin' as [Hin'|Hin']; [discriminate|]). destruct Hin'.
  - destruct (Reiki.all_finished (Reiki.run_schedule W schedule Reiki.initial));
      [|discriminate].
    destruct (Reiki.browser_close W); cbn [bind]; [discriminate|].
    intro H. injection H as <-. right. right. reflexivity.
Qed.

(** C10 (as the scripts have it).  The Places script ends with status 1
    exactly when the API key is missing or empty, and with status 0
    otherwise, whatever [main] did.  The dentist script ends with status 0
    exactly when the browser was launched and closed and the CSV file was
    written, whatever happened to the cities, and with status 1 otherwise.
    The Reiki script ends under every schedule of its tasks: a schedule
    that only names tasks that have not ended is no longer than the measure
    of the initial state, and a run that has not ended can go on.  When the
    Reiki script ends, it ends with status 0 or 1; with status 0 exactly
    when [scrapeReikiPractitioners] returned and the CSV file was written;
    with status 1 only when the browser could not be launched, a search
    page could not be closed, the browser could not be closed or the CSV
    file could not be written.  So searches that cannot be opened, listing
    pages that cannot be loaded and websites that cannot be scraped leave
    the status at 0. *)
Theorem C10_exit_status :
  (forall W,
      (fst (Places.script W) = 1 <->
       Places.GOOGLE_API_KEY W = None \/ Places.GOOGLE_API_KEY W = Some [])
      /\ (fst (Places.script W) = 0 \/ fst (Places.script W) = 1)
      /\ (fst (Places.script W) = 0 -> snd (Places.script W) = Some (Places.main W)))
  /\ (forall W,
      (Dentists.entry W = 0 <->
       Dentists.launch W = Ok tt /\ Dentists.browser_close W = Ok tt
       /\ Dentists.writeRecords W = Ok tt)
      /\ (Dentists.entry W = 0 \/ Dentists.entry W = 1))
  /\ (forall W, exists schedule status, Reiki.entry W schedule = Some status)
  /\ (forall W schedule,
      Schedules.productive W schedule Reiki.initial ->
      length schedule <= total_measure W Reiki.initial
      /\ (Schedules.settled (Reiki.run_schedule W schedule Reiki.initial)
          \/ exists i, Schedules.productive W (schedule ++ [i]) Reiki.initial))
  /\ (forall W schedule,
      Schedules.settled (Reiki.run_schedule W schedule Reiki.initial) ->
      exists status, Reiki.entry W schedule = Some status)
  /\ (forall W schedule status,
      Reiki.entry W schedule = Some status ->
      (status = 0 <->
       (exists data, Reiki.scrapeReikiPractitioners W schedule = Some (Ok data))
       /\ Reiki.writeRecords W = Ok tt)
      /\ (status = 0 \/ status = 1)
      /\ (status = 1 ->
          (exists e, Reiki.launch W = Throw e)
          \/ (exists country opened e, Reiki.close_search_page W country opened = Throw e)
          \/ (exists e, Reiki.browser_close W = Throw e)
          \/ (exists e, Reiki.writeRecords W = Throw e))
      /\ (Reiki.launch W = Ok tt ->
          (forall country opened, Reiki.close_search_page W country opened = Ok tt) ->
          Reiki.browser_close W = Ok tt ->
          Reiki.writeRecords W = Ok tt ->
          status = 0)).
Proof.
  assert (Hone : forall W schedule,
            Reiki.entry W schedule = Some 1 ->
            (exists e, Reiki.launch W = Throw e)
            \/ (exists country opened e, Reiki.close_search_page W country opened = Throw e)
            \/ (exists e, Reiki.browser_close W = Throw e)
            \/ (exists e, Reiki.writeRecords W = Throw e)).
  { intros W schedule H. unfold Reiki.entry in H.
    destruct (Reiki.scrapeReikiPractitioners W schedule) as [[data|e]|] eqn:Es;
      [| |discriminate].
    - destruct (Reiki.writeRecords W) as [u|e]; [discriminate|].
      right. right. right. exists e. reflexivity.
    - destruct (reiki_scrape_throws _ _ _ Es) as [H1|[(c & o & H1)|H1]].
      + left. exists e. exact H1.
      + right. left. exists c, o, e. exact H1.
      + right. right. left. exists e. exact H1. }
  assert (Htwo : forall W schedule status,
            Reiki.entry W schedule = Some status -> status = 0 \/ status = 1).
  { intros W schedule status H. unfold Reiki.entry in H.
    destruct (Reiki.scrapeReikiPractitioners W schedule) as [[data|e]|];
      try discriminate.
    - destruct (Reiki.writeRecords W); injection H as <-; auto.
    - injection H as <-. auto. }
  split; [|split; [|split; [exact reiki_entry_total|split; [|split]]]].
  - intro W. unfold Places.script.
    destruct (Places.GOOGLE_API_KEY W) as [[|c k]|]; cbn.
    + split; [|split]; [split; auto | auto | discriminate].
    + split; [|split]; [split; [discriminate | intros [H|H]; discriminate] | auto | reflexivity].
    + split; [|split]; [split; auto | auto | discriminate].
  - intro W. split.
    + split.
      * intro H. pose proof (dentists_scrape_outcome W) as [Hd _].
        unfold Dentists.entry in H.
        destruct (fst (Dentists.scrapeDentists W)) as [data|e]; [|discriminate].
        destruct (Hd (ex_intro _ data eq_refl)) as [H1 H2].
        destruct (Dentists.writeRecords W) as [[]|e]; [|discriminate].
        auto.
      * intros (H1 & H2 & H3). pose proof (dentists_scrape_outcome W) as [_ Hd].
        destruct (Hd (conj H1 H2)) as [data Hdata].
        unfold Dentists.entry. rewrite Hdata, H3. reflexivity.
    + unfold Dentists.entry.
      destruct (fst (Dentists.scrapeDentists W)); [|auto].
      destruct (Dentists.writeRecords W); auto.
  - intros W schedule H. split; [apply productive_bound, H | apply productive_progress, H].
  - intros W schedule Hs. unfold Reiki.entry, Reiki.scrapeReikiPractitioners.
    destruct (Reiki.launch W); [|eexists; reflexivity].
    destruct (Reiki.crashed (Reiki.run_schedule W schedule Reiki.initial)) eqn:Ec;
      [eexists; reflexivity|].
    destruct Hs as [Hs|Hs]; [contradiction|]. rewrite Hs.
    destruct (Reiki.browser_close W); cbn; [|eexists; reflexivity].
    destruct (Reiki.writeRecords W); eexists; reflexivity.
  - intros W schedule status H.
    split; [|split; [exact (Htwo _ _ _ H)|split]].
    + unfold Reiki.entry in H. split.
      * intros ->.
        destruct (Reiki.scrapeReikiPractitioners W schedule) as [[data|e]|];
          try discriminate.
        destruct (Reiki.writeRecords W) as [[]|e]; [|discriminate].
        split; [eexists; reflexivity | reflexivity].
      * intros [[data Hdata] Hw]. rewrite Hdata, Hw in H.
        injection H as <-. reflexivity.
    + intros ->. exact (Hone _ _ H).
    + intros Hl Hclose Hb Hw.
      destruct (Htwo _ _ _ H) as [->| ->]; [reflexivity|].
      destruct (Hone _ _ H) as [[e He]|[(c & o & e & He)|[[e He]|[e He]]]]; exfalso.
      * rewrite Hl in He. discriminate.
      * rewrite Hclose in He. discriminate.
      * rewrite Hb in He. discriminate.
      * rewrite Hw in He. discriminate.
Qed.

(** Three of the four countries of the world cannot be loaded, at either
    attempt: the status is 0. *)
Lemma C10_exit_status_witness :
  Dentists.entry DentistWorlds.dentists_aba = 0
  /\ Reiki.load_listings ReikiWorlds.reiki_aba (js "Ireland") 2 = Throw NetworkError
  /\ Reiki.entry ReikiWorlds.reiki_aba (ReikiWorlds.round_robin 8) = Some 0
  /\ fst (Places.script Worlds.places_denied) = 0.
Proof.
  destruct C10_exit_status as (Hplaces & Hdentists & _ & _ & _ & Hreiki).
  split; [|split; [reflexivity|split]].
  - apply (Hdentists DentistWorlds.dentists_aba). repeat split.
  - destruct (Reiki.entry ReikiWorlds.reiki_aba (ReikiWorlds.round_robin 8))
      as [status|] eqn:E; [|vm_compute in E; discriminate].
    destruct (Hreiki _ _ _ E) as (_ & _ & _ & H).
    rewrite H; reflexivity.
  - destruct (Hplaces Worlds.places_denied) as (H1 & [H|H] & _); [exact H|].
    apply H1 in H. destruct H as [H|H]; vm_compute in H; discriminate.
Defined.

(** C10, as stated, fails on the browser-backed scripts: the status is 1
    after failures that are not failures of the setup.  In the first world
    the browser is launched, three records are collected, and the CSV file
    cannot be written.  In the second the browser is launched and the search
    page of one country cannot be closed: the exception leaves the task of
    that country and the script. *)
Lemma C10_counterexample_nonzero_after_setup :
  (Dentists.launch DentistWorlds.dentists_unwritable = Ok tt
   /\ (exists data,
         fst (Dentists.scrapeDentists DentistWorlds.dentists_unwritable) = Ok data
         /\ length data = 3)
   /\ Dentists.entry DentistWorlds.dentists_unwritable = 1)
  /\ (Reiki.launch ReikiWorlds.reiki_close_fails = Ok tt
      /\ Reiki.scrapeReikiPractitioners ReikiWorlds.reiki_close_fails
           (ReikiWorlds.round_robin 8) = Some (Throw NetworkError)
      /\ Reiki.entry ReikiWorlds.reiki_close_fails (ReikiWorlds.round_robin 8) = Some 1).
Proof.
  split; [split; [reflexivity | split] | repeat split; vm_compute; reflexivity].
  - exists (match fst (Dentists.scrapeDentists DentistWorlds.dentists_unwritable) with
            | Ok data => data
            | Throw _ => []
            end).
    split; vm_compute; reflexivity.
  - vm_compute. reflexivity.
Qed.

End ExitStatus.

(* ===================================================================== *)
(** ** More on the listing phase of the Places script *)
(* ===================================================================== *)

Section PlacesListing.

Import Places.

Lemma next_pages_budget (W : world) (region : jsstring) (n : nat) :
  forall token m, length (snd (next_pages W region n token m)) <= n.
Proof.
  induction n as [|n IH]; intros token m; cbn [next_pages]; [apply le_n|].
  destruct token as [tok|]; [|cbn; lia].
  destruct (truthy tok); [|cbn; lia].
  destruct (textSearch W (ByToken tok)) as [next|e]; [|cbn; lia].
  specialize (IH (next_page_token next) (record_page m next)).
  destruct (next_pages W region n (next_page_token next) (record_page m next)).
  cbn in *. lia.
Qed.

Lemma search_regions_budget (W : world) (locs : list location) :
  forall m, length (snd (search_regions W locs m)) <= 3 * length locs.
Proof.
  induction locs as [|loc rest IH]; intro m; [apply le_n|].
  rewrite search_regions_cons. cbv zeta.
  destruct (cap <=? map_size m); [cbn; lia|].
  destruct (textSearch W (ByLocation (loc_q loc))) as [page|e]; [|cbn; lia].
  pose proof (next_pages_budget W (loc_name loc) 2 (next_page_token page)
                (record_page m page)) as Hn.
  destruct (next_pages W (loc_name loc) 2 (next_page_token page) (record_page m page))
    as [m1 calls1].
  specialize (IH m1). destruct (search_regions W rest m1) as [r calls2].
  cbn [snd length] in *. rewrite length_app. lia.
Qed.

Lemma map_has_keys (m : Map basic) (k : jsstring) :
  map_has m k = existsb (fun k' => str_eqb k' k) (map_keys m).
Proof.
  unfold map_has. induction m as [|[k0 v0] m IH]; [reflexivity|].
  cbn. destruct (str_eqb k0 k); [reflexivity | exact IH].
Qed.

Lemma keys_record_results (raws : list result) :
  forall m,
    map_keys (record_results m raws)
    = map_keys m ++ Order.keep_first (map_keys m) (List.map r_place_id raws).
Proof.
  induction raws as [|r raws IH]; intro m; [cbn; rewrite app_nil_r; reflexivity|].
  change (record_results m (r :: raws)) with (record_results (record_result m r) raws).
  rewrite IH. cbn [List.map Order.keep_first].
  unfold record_result. rewrite <- map_has_keys.
  destruct (map_has m (r_place_id r)) eqn:E; cbn [negb]; [reflexivity|].
  rewrite map_set_fresh.
  - unfold map_keys. rewrite map_app. cbn [List.map fst].
    rewrite <- app_assoc. reflexivity.
  - unfold map_has in E. destruct (map_get m (r_place_id r)); [discriminate | reflexivity].
Qed.

(** X2.  The map of collected places, and therefore the records written,
    are in first-seen order: the keys of [records] are the place_ids of the
    results received, each at its first occurrence, and the records written
    are those of the first 100 of them. *)
Theorem X2_first_seen_order (W : world) (locs : list location)
    (records : Map basic) (calls : list search_call) :
  search_regions W locs [] = (Ok records, calls) ->
  map_keys records
  = Order.keep_first [] (List.map r_place_id (flat_map call_results calls))
  /\ placeIds (main_from W locs)
     = firstn 100 (Order.keep_first [] (List.map r_place_id (flat_map call_results calls))).
Proof.
  intro H. pose proof (search_regions_fold _ _ _ _ _ H) as Hf.
  assert (Hk : map_keys records
               = Order.keep_first [] (List.map r_place_id (flat_map call_results calls))).
  { rewrite Hf, keys_record_results. reflexivity. }
  split; [exact Hk|].
  unfold main_from. rewrite H, <- Hk.
  destruct (pMap _ _); [|reflexivity].
  destruct (write_json W); [|reflexivity].
  destruct (write_csv W); reflexivity.
Qed.

Lemma X2_first_seen_order_witness :
  search_regions Worlds.places_aba LOCATIONS [] = (Ok Worlds.aba_records, Worlds.aba_calls)
  /\ map_keys Worlds.aba_records = [js "A"; js "B"]
  /\ placeIds (main Worlds.places_aba) = [js "A"; js "B"].
Proof.
  assert (H : search_regions Worlds.places_aba LOCATIONS []
              = (Ok Worlds.aba_records, Worlds.aba_calls)) by (vm_compute; reflexivity).
  split; [exact H|].
  destruct (X2_first_seen_order _ _ _ _ H) as [H1 H2].
  split.
  - rewrite H1. vm_compute. reflexivity.
  - unfold main. rewrite H2. vm_compute. reflexivity.
Defined.

Lemma size_record_results_le (rs : list result) (m : Map basic) :
  map_size (record_results m rs) <= map_size m + length rs.
Proof.
  revert m; induction rs as [|r rs IH]; intro m.
  { change (record_results m []) with m. cbn [length]. lia. }
  change (record_results m (r :: rs)) with (record_results (record_result m r) rs).
  specialize (IH (record_result m r)).
  assert (map_size (record_result m r) <= S (map_size m)).
  { unfold record_result, map_has.
    destruct (map_get m (r_place_id r)) eqn:E; cbn [negb]; [lia|].
    rewrite map_set_fresh by assumption. unfold map_size. rewrite length_app. cbn. lia. }
  cbn [length]. lia.
Qed.

Lemma textSearch_page (W : world) (req : request) (page : search_json) :
  textSearch W req = Ok page -> search_api W req = Ok page.
Proof.
  unfold textSearch, bind. destruct (search_api W req) as [json|e]; [|discriminate].
  destruct (str_eqb (status json) (js "REQUEST_DENIED")); [discriminate|].
  intro H. exact H.
Qed.

Lemma next_pages_size (W : world) (P : nat) (region : jsstring) (n : nat) :
  (forall req json, search_api W req = Ok json -> length (page_results json) <= P) ->
  forall token m,
    map_size (fst (next_pages W region n token m)) <= map_size m + n * P.
Proof.
  intro HP. induction n as [|n IH]; intros token m; cbn [next_pages];
    [cbn [fst]; lia|].
  destruct token as [tok|]; [|cbn [fst]; lia].
  destruct (truthy tok); [|cbn [fst]; lia].
  destruct (textSearch W (ByToken tok)) as [next|e] eqn:E; [|cbn [fst]; lia].
  specialize (IH (next_page_token next) (record_page m next)).
  destruct (next_pages W region n (next_page_token next) (record_page m next)).
  cbn [fst] in *.
  pose proof (HP _ _ (textSearch_page _ _ _ E)) as Hl.
  rewrite record_page_results in IH.
  pose proof (size_record_results_le (page_results next) m). lia.
Qed.

Lemma search_regions_size (W : world) (P : nat) (locs : list location) :
  (forall req json, search_api W req = Ok json -> length (page_results json) <= P) ->
  forall m records calls,
    map_size m <= 99 + 3 * P ->
    search_regions W locs m = (Ok records, calls) ->
    map_size records <= 99 + 3 * P.
Proof.
  intro HP. induction locs as [|loc rest IH]; intros m records calls Hm H.
  - injection H as <- _. exact Hm.
  - rewrite search_regions_cons in H. cbv zeta in H.
    destruct (cap <=? map_size m) eqn:Ecap; [injection H as <- _; exact Hm|].
    apply Nat.leb_gt in Ecap. unfold cap in Ecap.
    destruct (textSearch W (ByLocation (loc_q loc))) as [page|e] eqn:E; [|discriminate].
    pose proof (next_pages_size W P (loc_name loc) 2 HP (next_page_token page)
                  (record_page m page)) as Hn.
    destruct (next_pages W (loc_name loc) 2 (next_page_token page) (record_page m page))
      as [m1 calls1].
    destruct (search_regions W rest m1) as [r calls2] eqn:E2.
    injection H as -> _. cbn [fst] in Hn.
    apply (IH m1 records calls2); [|exact E2].
    rewrite record_page_results in Hn.
    pose proof (size_record_results_le (page_results page) m).
    pose proof (HP _ _ (textSearch_page _ _ _ E)). lia.
Qed.

(** X3.  The cap of the listing phase is only tested between regions, so
    the map can grow beyond 100: when no page carries more than [P] results,
    it ends with at most 99 + 3 P places (159 for pages of twenty). *)
Theorem X3_collected_at_most (W : world) (P : nat) (locs : list location)
    (records : Map basic) (calls : list search_call) :
  (forall req json, search_api W req = Ok json -> length (page_results json) <= P) ->
  search_regions W locs [] = (Ok records, calls) ->
  map_size records <= 99 + 3 * P.
Proof.
  intros HP H. apply (search_regions_size W P locs HP [] records calls); [cbn; lia | exact H].
Qed.

End PlacesListing.

Section PlacesListingWitnesses.

Import Places.

Lemma X3_collected_at_most_witness :
  exists records calls,
    search_regions Worlds.places_many LOCATIONS [] = (Ok records, calls)
    /\ map_size records = 120
    /\ map_size records <= 99 + 3 * 20.
Proof.
  exists (match fst (search_regions Worlds.places_many LOCATIONS []) with
          | Ok m => m
          | Throw _ => []
          end),
         (snd (search_regions Worlds.places_many LOCATIONS [])).
  assert (H : search_regions Worlds.places_many LOCATIONS []
              = (Ok (match fst (search_regions Worlds.places_many LOCATIONS []) with
                     | Ok m => m
                     | Throw _ => []
                     end),
                 snd (search_regions Worlds.places_many LOCATIONS [])))
    by (vm_compute; reflexivity).
  split; [exact H|]. split; [vm_compute; reflexivity|].
  eapply (X3_collected_at_most Worlds.places_many 20 LOCATIONS); [|exact H].
  intros req json Hj. destruct req as [q|t]; injection Hj as <-;
    unfold page_results, Worlds.ok_page, Worlds.page_of; cbn [Places.results];
    rewrite length_map, length_seq; apply le_n.
Defined.

End PlacesListingWitnesses.

(* ===================================================================== *)
(** ** More on the details phase and the files of the Places script *)
(* ===================================================================== *)

Section PlacesDetails.

Import Places.

(** X4.  The two files of a run hold the same records: the JSON file is
    written first, the CSV file after it and from the same list, and a run
    ends without a fatal error exactly when both were written.  The records
    are those of the places handed to the mapper, in that order. *)
Theorem X4_files_consistent (W : world) (locs : list location) :
  (fatal (main_from W locs) = None
   <-> exists d, written (main_from W locs) = [JsonFile d; CsvFile (csv_text d)])
  /\ (written (main_from W locs) = []
      \/ (exists d, written (main_from W locs) = [JsonFile d])
      \/ (exists d, written (main_from W locs) = [JsonFile d; CsvFile (csv_text d)]))
  /\ (forall d, In (JsonFile d) (written (main_from W locs)) ->
                List.map place_id d = placeIds (main_from W locs)).
Proof.
  unfold main_from.
  destruct (search_regions W locs []) as [[records|e] calls].
  - destruct (pMap (process_place W records) (firstn 100 (map_keys records)))
      as [details|e] eqn:Ep.
    + pose proof (pMap_ids _ _ _ _ Ep) as Hids.
      destruct (write_json W) as [[]|e]; [destruct (write_csv W) as [[]|e]|]; cbn.
      * split; [split; [intros _; eexists; reflexivity | reflexivity]|].
        split; [right; right; eexists; reflexivity|].
        intros d [H|[H|[]]]; [injection H as <-; exact Hids | discriminate].
      * split; [split; [discriminate | intros [d H]; discriminate]|].
        split; [right; left; eexists; reflexivity|].
        intros d [H|[]]. injection H as <-. exact Hids.
      * split; [split; [discriminate | intros [d H]; discriminate]|].
        split; [left; reflexivity | intros d []].
    + cbn. split; [split; [discriminate | intros [d H]; discriminate]|].
      split; [left; reflexivity | intros d []].
  - cbn. split; [split; [discriminate | intros [d H]; discriminate]|].
    split; [left; reflexivity | intros d []].
Qed.

Lemma nullish_None {A} (a : option A) : nullish a None = a.
Proof. destruct a; reflexivity. Qed.

Lemma pRetry_first_ok {A} (f : nat -> outcome A) (retries attempt : nat) (a : A) :
  f attempt = Ok a -> pRetry f retries attempt = Ok a.
Proof. intro H. destruct retries; cbn [pRetry]; rewrite H; reflexivity. Qed.

(** X5.  A details answer whose status is not OK is not an error and is
    not retried: the record keeps the first-seen name and address and has no
    phone, website or email.  A details answer without a website gives a
    record without email, and no website is fetched: the record does not
    depend on what the websites would answer. *)
Theorem X5_details_without_website (W : world) (records : Map basic)
    (k : jsstring) (json : details_json) :
  details_api W k 0 = Ok json ->
  (str_eqb (d_status json) (js "OK") = false ->
   process_place W records k
   = Ok (Detail k (Order.first_seen_name records k) (Order.first_seen_address records k)
           None None None))
  /\ (forall p,
        str_eqb (d_status json) (js "OK") = true ->
        d_result json = Some p ->
        p_website p = None ->
        process_place W records k
        = Ok (Detail k (nullish (p_name p) (Order.first_seen_name records k))
                (nullish (p_formatted_address p) (Order.first_seen_address records k))
                (p_formatted_phone_number p) None None)).
Proof.
  intro Hj. unfold process_place, Order.first_seen_name, Order.first_seen_address.
  split.
  - intros Hs.
    rewrite (pRetry_first_ok (getPlaceDetails W k) 2 0 None)
      by (unfold getPlaceDetails; rewrite Hj; cbn [bind]; rewrite Hs; reflexivity).
    cbn [negb bind try_catch opt_field nullish pRetry extractEmailFromWebsite].
    destruct (map_get records k) as [b|]; cbn [b_name b_address];
      rewrite ?nullish_None; reflexivity.
  - intros p Hs Hp Hw.
    rewrite (pRetry_first_ok (getPlaceDetails W k) 2 0 (Some p))
      by (unfold getPlaceDetails; rewrite Hj; cbn [bind]; rewrite Hs, Hp; reflexivity).
    cbn [negb bind opt_field]. rewrite Hw.
    cbn [nullish pRetry extractEmailFromWebsite bind try_catch].
    destruct (map_get records k) as [b|]; cbn [b_name b_address];
      rewrite ?nullish_None; reflexivity.
Qed.

Lemma X5_details_without_website_witness :
  process_place MoreWorlds.places_partial_details Worlds.aba_records (js "A")
  = Ok (Detail (js "A") (Some (js "Alpha")) (Some (js "1 Canal St")) None None None)
  /\ process_place MoreWorlds.places_partial_details Worlds.aba_records (js "B")
     = Ok (Detail (js "B") (Some (js "Beta Dental")) (Some (js "2 Canal St"))
             (Some (js "010 9876")) None None).
Proof.
  split.
  - destruct (X5_details_without_website MoreWorlds.places_partial_details
                Worlds.aba_records (js "A") (DetailsJson (js "NOT_FOUND") None) eq_refl)
      as [H _].
    rewrite H by reflexivity. reflexivity.
  - destruct (X5_details_without_website MoreWorlds.places_partial_details
                Worlds.aba_records (js "B")
                (DetailsJson (js "OK")
                   (Some (Place (Some (js "Beta Dental")) None (Some (js "010 9876")) None)))
                eq_refl) as [_ H].
    rewrite (H _ eq_refl eq_refl eq_refl). reflexivity.
Defined.

(** X6.  Only REQUEST_DENIED makes [textSearch] throw.  A first page with
    any other status and without results or token (a quota error, for
    instance) is not reported: the region adds nothing to the map and the
    loop goes on with the next region. *)
Theorem X6_empty_answer_skips_region (W : world) (loc : location)
    (rest : list location) (m : Map basic) (json : search_json) :
  map_size m < cap ->
  search_api W (ByLocation (loc_q loc)) = Ok json ->
  str_eqb (status json) (js "REQUEST_DENIED") = false ->
  page_results json = [] ->
  next_page_token json = None ->
  search_regions W (loc :: rest) m
  = (fst (search_regions W rest m),
     SearchCall (loc_name loc) (ByLocation (loc_q loc)) (map_size m) []
     :: snd (search_regions W rest m)).
Proof.
  intros Hlt Hj Hs Hr Ht. rewrite search_regions_cons. cbv zeta.
  apply Nat.leb_gt in Hlt. rewrite Hlt.
  unfold textSearch. rewrite Hj. cbn [bind]. rewrite Hs, Ht, Hr.
  rewrite record_page_results, Hr. cbn [next_pages record_results fold_left].
  destruct (search_regions W rest m). reflexivity.
Qed.

Lemma X6_empty_answer_skips_region_witness :
  search_regions MoreWorlds.places_over_limit LOCATIONS []
  = (fst (search_regions MoreWorlds.places_over_limit (skipn 1 LOCATIONS) []),
     SearchCall (js "Amsterdam") (ByLocation (js "52.3676,4.9041")) 0 []
     :: snd (search_regions MoreWorlds.places_over_limit (skipn 1 LOCATIONS) []))
  /\ placeIds (main MoreWorlds.places_over_limit) = [js "A"; js "B"]
  /\ fatal (main MoreWorlds.places_over_limit) = None.
Proof.
  split; [|split; vm_compute; reflexivity].
  apply (X6_empty_answer_skips_region MoreWorlds.places_over_limit
           (Location (js "Amsterdam") (js "52.3676,4.9041")) (skipn 1 LOCATIONS) []
           (SearchJson (js "OVER_QUERY_LIMIT") None None));
    try reflexivity.
  cbn. unfold cap. lia.
Defined.

End PlacesDetails.

(* ===================================================================== *)
(** ** The addresses handled by the Places extractor *)
(* ===================================================================== *)

Section PlacesAddresses.

Import Places.

Lemma http_scheme_prefix (u : jsstring) : test http_scheme (js "http://" ++ u) = true.
Proof.
  unfold test. destruct u as [|c u]; cbn; rewrite ?andb_false_r; reflexivity.
Qed.

Lemma https_scheme_upper (u : jsstring) : test http_scheme (js "HTTPS://" ++ u) = true.
Proof.
  unfold test. destruct u as [|c u]; cbn; rewrite ?andb_false_r; reflexivity.
Qed.

Lemma strip_mailto (a : jsstring) : replace_re mailto_scheme [] (js "mailto:" ++ a) = a.
Proof.
  unfold replace_re.
  assert (E : exec_at mailto_scheme 0 (js "mailto:" ++ a) = Some (0, 7)).
  { destruct a as [|c a]; cbn; rewrite ?andb_false_r; reflexivity. }
  rewrite E. reflexivity.
Qed.

Lemma split_before (sep : N) (a rest : jsstring) :
  ~ In sep a -> split sep (a ++ sep :: rest) = a :: split sep rest.
Proof.
  induction a as [|c a IH]; intro H.
  - cbn. rewrite N.eqb_refl. reflexivity.
  - cbn [app split]. destruct (N.eqb_spec c sep) as [->|Hne].
    + exfalso. apply H. left. reflexivity.
    + rewrite IH; [reflexivity|]. intro Hin. apply H. right. exact Hin.
Qed.

Lemma split_none (sep : N) (a : jsstring) : ~ In sep a -> split sep a = [a].
Proof.
  induction a as [|c a IH]; intro H; [reflexivity|].
  cbn [split]. destruct (N.eqb_spec c sep) as [->|Hne].
  - exfalso. apply H. left. reflexivity.
  - rewrite IH; [reflexivity|]. intro Hin. apply H. right. exact Hin.
Qed.

Lemma decode_plain (a : jsstring) : ~ In 37%N a -> decodeURIComponent a = Ok a.
Proof.
  unfold decodeURIComponent. induction a as [|c a IH]; intro H; [reflexivity|].
  cbn [decode]. destruct (N.eqb_spec c 37) as [->|Hne].
  - exfalso. apply H. left. reflexivity.
  - rewrite IH; [reflexivity|]. intro Hin. apply H. right. exact Hin.
Qed.

(** X8.  The address taken from a mailto link is what stands between the
    scheme and the first question mark: the query (subject, body) is
    dropped.  For an address without percent escapes nothing else changes. *)
Theorem X8_mailto_query_dropped (a q : jsstring) :
  ~ In (code "?") a ->
  ~ In (code "%") a ->
  mailto_address (js "mailto:" ++ a ++ code "?" :: q) = Ok a
  /\ mailto_address (js "mailto:" ++ a) = Ok a.
Proof.
  intros Hq Hp. unfold mailto_address. rewrite !strip_mailto.
  rewrite (split_before _ _ _ Hq), (split_none _ _ Hq). cbn [hd].
  split; apply decode_plain, Hp.
Qed.

Lemma X8_mailto_query_dropped_witness :
  mailto_address (js "mailto:hello@tandarts.nl?subject=Afspraak&body=Hallo?")
  = Ok (js "hello@tandarts.nl").
Proof.
  apply (X8_mailto_query_dropped (js "hello@tandarts.nl") (js "subject=Afspraak&body=Hallo?")).
  - vm_compute. intros H. repeat (destruct H as [H|H]; [discriminate|]). exact H.
  - vm_compute. intros H. repeat (destruct H as [H|H]; [discriminate|]). exact H.
Defined.

End PlacesAddresses.

(* ===================================================================== *)
(** ** What the pattern matcher returns *)
(* ===================================================================== *)

Section MatcherSoundness.

Import Lang.

Lemma greedy_sound (p : N -> bool) (hi : option nat)
    (k : nat -> jsstring -> option nat) (s : jsstring) :
  forall n r,
    greedy p hi k n s = Some r ->
    exists u rest,
      s = u ++ rest
      /\ Forall (fun c => p c = true) u
      /\ (within hi n -> within hi (n + length u))
      /\ k (n + length u) rest = Some r.
Proof.
  induction s as [|c s IH]; intros n r H; cbn [greedy] in H.
  - exists [], []. rewrite Nat.add_0_r. repeat split; auto.
  - assert (Hstop : k n (c :: s) = Some r ->
                    exists u rest, c :: s = u ++ rest
                      /\ Forall (fun c => p c = true) u
                      /\ (within hi n -> within hi (n + length u))
                      /\ k (n + length u) rest = Some r).
    { intro Hk. exists [], (c :: s). rewrite Nat.add_0_r. repeat split; auto. }
    destruct (p c && below hi n) eqn:E; [|exact (Hstop H)].
    destruct (greedy p hi k (S n) s) as [r'|] eqn:G; [|exact (Hstop H)].
    injection H as ->. apply andb_true_iff in E as [Ep Eb].
    destruct (IH _ _ G) as (u & rest & Hs & Hu & Hw & Hk).
    exists (c :: u), rest. cbn [length]. rewrite Nat.add_succ_r.
    split; [rewrite Hs; reflexivity|]. split; [constructor; assumption|].
    split; [|exact Hk].
    intros _. apply Hw. unfold below in Eb. destruct hi as [h|]; cbn; [|exact I].
    apply Nat.ltb_lt in Eb. lia.
Qed.

Lemma firstn_app_exact {A} (u v : list A) (n : nat) :
  firstn (length u + n) (u ++ v) = u ++ firstn n v.
Proof. induction u as [|x u IH]; cbn; [reflexivity | rewrite IH; reflexivity]. Qed.

(** A match of the atoms at the start of [s] is a prefix of [s] that the
    atoms match as a whole. *)
Lemma m_atoms_sound (ic eol : bool) (r : list atom) :
  forall s n,
    m_atoms ic eol r s = Some n ->
    n <= length s /\ atoms_lang ic r (firstn n s) /\ (eol = true -> n = length s).
Proof.
  induction r as [|a r IH]; intros s n H; cbn [m_atoms] in H.
  - destruct eol.
    + destruct s; [|discriminate]. injection H as <-. repeat split; auto.
    + injection H as <-. repeat split; [lia | discriminate].
  - apply greedy_sound in H as (u & rest & Hs & Hu & Hw & Hk). cbn [Nat.add] in Hk.
    destruct (rmin a <=? length u) eqn:Emin; [|discriminate].
    destruct (m_atoms ic eol r rest) as [n'|] eqn:Em; [|discriminate].
    cbn in Hk. injection Hk as <-. apply Nat.leb_le in Emin.
    destruct (IH _ _ Em) as (Hle & Hl & He). subst s.
    rewrite length_app, firstn_app_exact.
    split; [lia|]. split.
    + cbn [atoms_lang]. exists u, (firstn n' rest). repeat split; auto.
      apply Hw. destruct (rmax a); cbn; [lia | exact I].
    + intro H. rewrite (He H). reflexivity.
Qed.

Lemma m_here_sound (r : regex) (i : nat) (s : jsstring) (n : nat) :
  m_here r i s = Some n ->
  n <= length s /\ atoms_lang (ignoreCase r) (atoms r) (firstn n s).
Proof.
  unfold m_here. destruct (bol r && negb (i =? 0)); [discriminate|].
  intro H. apply m_atoms_sound in H as (H1 & H2 & _). split; assumption.
Qed.

(** Every element of the result of [s.match(r)] occurs in [s] and is matched
    by the pattern as a whole. *)
Lemma match_from_sound (r : regex) (s : jsstring) :
  forall i skip e,
    In e (match_from r i s skip) ->
    occurs_in e s /\ atoms_lang (ignoreCase r) (atoms r) e.
Proof.
  induction s as [|c s IH]; intros i skip e H; cbn [match_from] in H.
  - destruct skip; [|contradiction].
    destruct (m_here r i []) as [n|] eqn:E; [|contradiction].
    destruct H as [<-|[]]. apply m_here_sound in E as [Hn Hl].
    destruct n; [|cbn in Hn; lia]. split; [exists [], []; reflexivity | exact Hl].
  - assert (Hrec : forall i' skip', In e (match_from r i' s skip') ->
                     occurs_in e (c :: s) /\ atoms_lang (ignoreCase r) (atoms r) e).
    { intros i' skip' Hin. destruct (IH _ _ _ Hin) as [(pre & post & Hs) Hl].
      split; [|exact Hl]. exists (c :: pre), post. rewrite Hs. reflexivity. }
    destruct skip as [|k]; [|exact (Hrec _ _ H)].
    destruct (m_here r i (c :: s)) as [n|] eqn:E; [|exact (Hrec _ _ H)].
    destruct H as [<-|H]; [|exact (Hrec _ _ H)].
    apply m_here_sound in E as [Hn Hl]. split; [|exact Hl].
    exists [], (skipn n (c :: s)). cbn [app]. symmetry. apply firstn_skipn.
Qed.

Lemma swapcase_fix (c x : N) :
  (x < 65 \/ (90 < x /\ x < 97) \/ 122 < x)%N -> swapcase c = x -> c = x.
Proof.
  unfold swapcase.
  destruct (N.leb_spec 65 c), (N.leb_spec c 90), (N.leb_spec 97 c), (N.leb_spec c 122);
    cbn; lia.
Qed.

Lemma lit_one (ic : bool) (x c : N) :
  (x < 65 \/ (90 < x /\ x < 97) \/ 122 < x)%N ->
  in_class ic (pos [(x, x)]) c = true -> c = x.
Proof.
  intros Hx. unfold in_class, in_ranges, pos. cbn [negated ranges existsb fst snd].
  rewrite !orb_false_r. intro H.
  apply orb_true_iff in H as [H|H].
  - apply andb_true_iff in H as [H1 H2]. apply N.leb_le in H1, H2. lia.
  - apply andb_true_iff in H as [_ H]. apply andb_true_iff in H as [H1 H2].
    apply N.leb_le in H1, H2. apply (swapcase_fix c x Hx). lia.
Qed.

Lemma lit_at (ic : bool) (c : N) :
  in_class ic (pos [ch "@"]) c = true -> c = code "@".
Proof. apply lit_one. cbn. lia. Qed.

Lemma lit_dot (ic : bool) (c : N) :
  in_class ic (pos [ch "."]) c = true -> c = code ".".
Proof. apply lit_one. cbn. lia. Qed.

Lemma one_of_class (P : N -> Prop) (u : jsstring) :
  Forall P u -> 1 <= length u -> length u <= 1 -> exists c, u = [c] /\ P c.
Proof.
  intros HF H1 H2. destruct u as [|c [|c' u]]; cbn in *; try lia.
  exists c. split; [reflexivity|]. inversion HF; assumption.
Qed.

Lemma nonempty_length {A} (l : list A) : 1 <= length l -> l <> [].
Proof. destruct l; cbn; [lia | discriminate]. Qed.

(** The words of a pattern plus-local, at, plus-domain, dot, at least two of
    a class have the form of an email. *)
Lemma email_atoms_form (ic : bool) (tld : cclass) (e : jsstring) :
  atoms_lang ic [plus local_part; lit "@"; plus domain_part; lit "."; atleast 2 tld] e ->
  email_form ic tld e.
Proof.
  cbn [atoms_lang]. intros (l & v1 & -> & Hl & Hl1 & _ & a & v2 & -> & Ha & Ha1 & Ha2
                            & d & v3 & -> & Hd & Hd1 & _ & o & v4 & -> & Ho & Ho1 & Ho2
                            & t & v5 & -> & Ht & Ht1 & _ & ->).
  cbn in Ha1, Ha2, Ho1, Ho2, Hl1, Hd1, Ht1.
  destruct (one_of_class _ _ Ha Ha1 Ha2) as (ca & -> & Hca).
  destruct (one_of_class _ _ Ho Ho1 Ho2) as (co & -> & Hco).
  apply lit_at in Hca. apply lit_dot in Hco. subst ca co.
  exists l, d, t. rewrite app_nil_r. cbn [app].
  repeat split; auto using nonempty_length.
Qed.

End MatcherSoundness.

(* ===================================================================== *)
(** ** What the extractors return *)
(* ===================================================================== *)

Section ExtractorResults.

Import Lang.

Lemma reiki_match_form (c e : jsstring) :
  In e (matches Reiki.emailRegex c) ->
  occurs_in e c /\ email_form true (pos [rg "a" "z"]) e.
Proof.
  intro H. apply match_from_sound in H as [Ho Hl]. split; [exact Ho|].
  apply email_atoms_form. exact Hl.
Qed.

(** X9.  When the dentist extractor returns an address, the page was
    fetched and its body is text; the address occurs in the body, has the
    form local@domain.tld in the characters of the pattern, does not contain
    example.com, and is the first match of the pattern in the body of which
    that is true. *)
Theorem X9_dentist_extractor_result (axios_get : jsstring -> outcome Dentists.axios_data)
    (url e : jsstring) :
  Dentists.scrapeWebsiteForEmail axios_get url = Ok (Some e) ->
  exists body,
    axios_get url = Ok (Dentists.Text body)
    /\ find (fun m => negb (includes m (js "example.com")))
         (matches Dentists.emailRegex body) = Some e
    /\ occurs_in e body
    /\ email_form true (pos [rg "a" "z"]) e
    /\ includes e (js "example.com") = false.
Proof.
  unfold Dentists.scrapeWebsiteForEmail.
  destruct (negb (truthy url)); [discriminate|].
  destruct (axios_get url) as [[body|]|err]; cbn [bind try_catch]; try discriminate.
  rewrite str_match_matches.
  destruct (matches Dentists.emailRegex body) as [|m ms] eqn:Em; [discriminate|].
  destruct (find _ (m :: ms)) as [e'|] eqn:Ef; [|discriminate].
  destruct (truthy e'); [|discriminate].
  intro H. injection H as ->. exists body.
  pose proof (find_some _ _ Ef) as [Hin Hneg].
  rewrite <- Em in Hin. apply reiki_match_form in Hin as [Ho Hform].
  split; [reflexivity|]. split; [rewrite Em; exact Ef|].
  split; [exact Ho|]. split; [exact Hform|]. apply negb_true_iff. exact Hneg.
Qed.

Lemma X9_dentist_extractor_result_witness :
  exists body,
    DentistWorlds.site_of DentistWorlds.placeholder_pages (js "https://dental.hu")
    = Ok (Dentists.Text body)
    /\ occurs_in (js "webmaster@w3.org") body
    /\ email_form true (pos [rg "a" "z"]) (js "webmaster@w3.org").
Proof.
  destruct (X9_dentist_extractor_result
              (DentistWorlds.site_of DentistWorlds.placeholder_pages)
              (js "https://dental.hu") (js "webmaster@w3.org"))
    as (body & H1 & _ & H3 & H4 & _).
  - vm_compute. reflexivity.
  - exists body. repeat split; assumption.
Defined.

(** X10.  What the text scan of the Reiki extractor returns occurs in the
    markup of the page, has the form local@domain.tld in the characters of
    the pattern, and contains neither example.com nor w3.org.  What a page
    yields is either such an address or the target of one of its mailto
    links in which the pattern finds a match. *)
Theorem X10_reiki_page_result (t : Reiki.tab) (target e : jsstring) :
  Reiki.probe t 0 target = Ok (Some e) ->
  exists v,
    Reiki.goto t target = Ok v
    /\ ((exists hrefs,
           Reiki.mailto_hrefs v = Ok hrefs
           /\ In e (List.map Reiki.mailto_target hrefs)
           /\ test Reiki.emailRegex e = true)
        \/ (exists c,
              Reiki.content v = Ok c
              /\ occurs_in e c
              /\ email_form true (pos [rg "a" "z"]) e
              /\ placeholder e = false)).
Proof.
  unfold Reiki.probe.
  destruct (Reiki.goto t target) as [v|err]; cbn [bind]; [|discriminate].
  destruct (Reiki.mailto_hrefs v) as [hrefs|err] eqn:Eh; cbn [bind]; [|discriminate].
  intro H. exists v. split; [reflexivity|].
  assert (Hscan : bind (Reiki.content v) (fun c => Ok (Reiki.scan_content c)) = Ok (Some e) ->
                  exists c, Reiki.content v = Ok c /\ occurs_in e c
                            /\ email_form true (pos [rg "a" "z"]) e
                            /\ placeholder e = false).
  { destruct (Reiki.content v) as [c|err]; cbn [bind]; [|discriminate].
    unfold Reiki.scan_content. rewrite str_match_matches.
    destruct (matches Reiki.emailRegex c) as [|m ms] eqn:Em; [discriminate|].
    destruct (find Reiki.not_placeholder (m :: ms)) as [e'|] eqn:Ef; [|discriminate].
    destruct (truthy e'); [|discriminate].
    intro H'. injection H' as ->. exists c.
    pose proof (find_some _ _ Ef) as [Hin Hnp].
    rewrite <- Em in Hin. apply reiki_match_form in Hin as [Ho Hform].
    repeat split; auto.
    unfold Reiki.not_placeholder in Hnp. apply andb_true_iff in Hnp as [H1 H2].
    apply negb_true_iff in H1, H2. unfold placeholder. rewrite H1, H2. reflexivity. }
  destruct (List.map Reiki.mailto_target hrefs) as [|x l] eqn:El.
  - right. exact (Hscan H).
  - rewrite find_test_g_0 in H.
    destruct (find (test Reiki.emailRegex) (x :: l)) as [e'|] eqn:Ef;
      [|right; exact (Hscan H)].
    destruct (truthy e'); [|right; exact (Hscan H)].
    injection H as ->. left. exists hrefs.
    pose proof (find_some _ _ Ef) as [Hin Ht].
    rewrite El. repeat split; auto.
Qed.

Lemma X10_reiki_page_result_witness :
  exists c,
    occurs_in (js "hello@reiki.uk") c
    /\ email_form true (pos [rg "a" "z"]) (js "hello@reiki.uk")
    /\ c = js "<p>Write to hello@reiki.uk</p>".
Proof.
  destruct (X10_reiki_page_result
              (Reiki.Tab (ReikiWorlds.tab_of ReikiWorlds.site_with_contact) (Ok tt))
              (js "https://reiki.uk/contact") (js "hello@reiki.uk"))
    as (v & Hg & [(hrefs & Hh & Hin & _)|(c & Hc & Ho & Hf & _)]).
  - vm_compute. reflexivity.
  - exfalso. vm_compute in Hg. injection Hg as <-. cbn in Hh. injection Hh as <-.
    exact Hin.
  - exists c. vm_compute in Hg. injection Hg as <-. cbn in Hc. injection Hc as <-.
    repeat split; auto.
Defined.

(** X11.  What the Places extractor takes from a page is either the address
    of the first mailto link, when it has the shape of an email, or the
    first match of the pattern in the markup, which then occurs in the
    markup and has the form local@domain.tld with a top-level part of ASCII
    letters. *)
Theorem X11_places_page_result (html : jsstring) (hrefs : list jsstring) (e : jsstring) :
  Places.extract_from html hrefs = Ok (Some e) ->
  (exists h rest,
      hrefs = h :: rest
      /\ Places.mailto_address h = Ok e
      /\ test Places.email_shape e = true)
  \/ (exists ms,
        matches Places.emailRegex html = e :: ms
        /\ occurs_in e html
        /\ email_form false (pos [rg "a" "z"; rg "A" "Z"]) e).
Proof.
  unfold Places.extract_from. rewrite str_match_matches.
  assert (Hscan : match match matches Places.emailRegex html with
                        | [] => None
                        | m :: ms => Some (m :: ms)
                        end with
                  | Some (m :: _) => Ok (Some m)
                  | _ => Ok None
                  end = Ok (Some e) ->
                  exists ms, matches Places.emailRegex html = e :: ms
                             /\ occurs_in e html
                             /\ email_form false (pos [rg "a" "z"; rg "A" "Z"]) e).
  { destruct (matches Places.emailRegex html) as [|m ms] eqn:Em; [discriminate|].
    intro H. injection H as ->. exists ms. split; [reflexivity|].
    assert (Hin : In e (matches Places.emailRegex html)) by (rewrite Em; left; reflexivity).
    apply match_from_sound in Hin as [Ho Hl]. split; [exact Ho|].
    apply email_atoms_form. exact Hl. }
  destruct hrefs as [|h rest]; [intro H; right; exact (Hscan H)|].
  destruct (truthy h); [|intro H; right; exact (Hscan H)].
  destruct (Places.mailto_address h) as [em|err] eqn:Ea; cbn [bind]; [|discriminate].
  destruct (test Places.email_shape em) eqn:Es; [|intro H; right; exact (Hscan H)].
  intro H. injection H as ->. left. exists h, rest. repeat split; assumption.
Qed.

Lemma X11_places_page_result_witness :
  occurs_in (js "webmaster@site.org")
    (js "<p>webmaster@site.org</p><a href='mailto:?subject=Hello'>share</a><a href='mailto:contact@site.org'>mail us</a>")
  /\ email_form false (pos [rg "a" "z"; rg "A" "Z"]) (js "webmaster@site.org").
Proof.
  destruct (X11_places_page_result
              (js "<p>webmaster@site.org</p><a href='mailto:?subject=Hello'>share</a><a href='mailto:contact@site.org'>mail us</a>")
              [js "mailto:?subject=Hello"; js "mailto:contact@site.org"]
              (js "webmaster@site.org"))
    as [(h & rest & Hh & Ha & _)|(ms & _ & Ho & Hf)].
  - vm_compute. reflexivity.
  - exfalso. injection Hh as <- _. vm_compute in Ha. discriminate.
  - split; assumption.
Defined.

End ExtractorResults.

(* ===================================================================== *)
(** ** The Reiki records under every interleaving *)
(* ===================================================================== *)

Section ReikiRecords.

Import Reiki ReikiNotions.

Lemma fetching_leave (W : world) (country : jsstring) (attempt : nat)
    (success : bool) (page : option nat) :
  fetching (leave_attempt W country attempt success page) = 0.
Proof.
  unfold leave_attempt. destruct page as [opened|]; [|reflexivity].
  destruct (close_search_page W country opened); reflexivity.
Qed.

Lemma in_flight_le (ts : list (jsstring * pc)) : in_flight ts <= length ts.
Proof.
  induction ts as [|[c p] ts IH]; [apply le_n|].
  unfold in_flight in *. cbn [List.map length snd].
  change (list_sum (fetching p :: List.map (fun t => fetching (snd t)) ts))
    with (fetching p + list_sum (List.map (fun t => fetching (snd t)) ts)).
  destruct p; cbn [fetching]; lia.
Qed.

(** A step either keeps the sum of the records and of the pushes to come, or
    it starts a listing, and then the records were below the cap. *)
Lemma step_flight (W : world) (country : jsstring) (p : pc) (sh : shared) :
  length (results (snd (step W country p sh))) + fetching (fst (step W country p sh))
  <= length (results sh) + fetching p
  \/ (results (snd (step W country p sh)) = results sh /\ length (results sh) < cap).
Proof.
  destruct p as [attempt success page|attempt parent todo|attempt todo| |e]; cbn [step].
  - destruct ((attempt <? 2) && negb success && (length (results sh) <? cap)) eqn:E.
    + apply andb_true_iff in E as [_ E]. apply Nat.ltb_lt in E. right.
      destruct (new_search_page W country (S attempt));
        [destruct (load_listings W country (S attempt))|]; split; auto.
    + left. cbn. lia.
  - left. destruct (listing_email W (listing_website W parent)); cbn [fst snd results].
    + rewrite length_app. cbn. lia.
    + rewrite fetching_leave. lia.
  - destruct (cap <=? length (results sh)) eqn:E; cbn [fst snd].
    + left. rewrite fetching_leave. lia.
    + right. apply Nat.leb_gt in E. split; auto.
  - left. cbn. lia.
  - left. cbn. lia.
Qed.

Lemma step_numbered (W : world) (country : jsstring) (p : pc) (sh : shared) :
  numbered sh -> numbered (snd (step W country p sh)).
Proof.
  intros [Hn Hm].
  destruct p as [attempt success page|attempt parent todo|attempt todo| |e]; cbn [step].
  - destruct ((attempt <? 2) && negb success && (length (results sh) <? cap));
      [|split; assumption].
    destruct (new_search_page W country (S attempt));
      [destruct (load_listings W country (S attempt))|]; split; assumption.
  - destruct (listing_email W (listing_website W parent)); [|split; assumption].
    cbn [snd]. unfold numbered. cbn [results next_index].
    rewrite length_app, map_app, Hm. cbn [length List.map index make_record].
    rewrite Nat.add_1_r, seq_S, Hn. split; reflexivity.
  - destruct (cap <=? length (results sh)); split; assumption.
  - split; assumption.
  - split; assumption.
Qed.

Lemma step_task_invariant (W : world) (i : nat) (st : state) :
  length (results (store st)) + in_flight (tasks st) <= cap - 1 + length (tasks st) ->
  numbered (store st) ->
  length (results (store (step_task W i st))) + in_flight (tasks (step_task W i st))
  <= cap - 1 + length (tasks (step_task W i st))
  /\ numbered (store (step_task W i st))
  /\ length (tasks (step_task W i st)) = length (tasks st).
Proof.
  intros Hb Hn. unfold step_task.
  destruct (nth_error (tasks st) i) as [[country p]|] eqn:Hi; [|auto].
  pose proof (step_flight W country p (store st)) as Hf.
  pose proof (step_numbered W country p (store st) Hn) as Hn'.
  destruct (step W country p (store st)) as [p' sh']. cbn [fst snd] in Hf, Hn'.
  cbn [tasks store].
  pose proof (nth_error_split_at _ _ _ Hi) as Hs.
  assert (Hlen : length (firstn i (tasks st) ++ (country, p') :: skipn (S i) (tasks st))
                 = length (tasks st)).
  { rewrite Hs at 3. rewrite !length_app. reflexivity. }
  split; [|split; assumption].
  rewrite Hlen.
  destruct Hf as [Hf|[Hr Hlt]].
  - assert (Hfl : in_flight (firstn i (tasks st) ++ (country, p') :: skipn (S i) (tasks st))
                  + fetching p = in_flight (tasks st) + fetching p').
    { rewrite Hs at 3. unfold in_flight. rewrite !map_app. cbn [List.map snd].
      rewrite !list_sum_middle. lia. }
    lia.
  - pose proof (in_flight_le (firstn i (tasks st) ++ (country, p') :: skipn (S i) (tasks st))).
    rewrite Hr. unfold cap in *. lia.
Qed.

Lemma run_schedule_invariant (W : world) (schedule : list nat) :
  forall st,
    length (results (store st)) + in_flight (tasks st) <= cap - 1 + length (tasks st) ->
    numbered (store st) ->
    length (results (store (run_schedule W schedule st))) <= cap - 1 + length (tasks st)
    /\ numbered (store (run_schedule W schedule st)).
Proof.
  induction schedule as [|i rest IH]; intros st Hb Hn; cbn [run_schedule].
  - split; [lia | exact Hn].
  - destruct (crashed st); [split; [lia | exact Hn]|].
    destruct (step_task_invariant W i st Hb Hn) as (Hb' & Hn' & Hl).
    rewrite <- Hl. apply IH; assumption.
Qed.

(** X12.  Under every interleaving of the four country tasks, the records
    that the Reiki scraper returns are at most 103 (the cap of 100 and one
    listing in flight in each of the three other tasks), and they carry the
    numbers 1, 2, ... in their order, without gap or repetition. *)
Theorem X12_reiki_records (W : world) (schedule : list nat) (rs : list record) :
  scrapeReikiPractitioners W schedule = Some (Ok rs) ->
  length rs <= 103 /\ List.map index rs = seq 1 (length rs).
Proof.
  unfold scrapeReikiPractitioners.
  destruct (launch W); [|discriminate].
  destruct (crashed (run_schedule W schedule initial)); [discriminate|].
  destruct (all_finished (run_schedule W schedule initial)); [|discriminate].
  destruct (browser_close W); cbn [bind]; [|discriminate].
  intro H. injection H as <-.
  destruct (run_schedule_invariant W schedule initial) as [Hb [_ Hm]].
  - cbn. lia.
  - split; reflexivity.
  - split; [exact Hb | exact Hm].
Qed.

(** The bound is reached: 103 records, numbered from 1 to 103. *)
Lemma X12_reiki_records_witness :
  exists rs,
    scrapeReikiPractitioners reiki_four_regions crowd_schedule = Some (Ok rs)
    /\ length rs = 103
    /\ List.map index rs = seq 1 (length rs).
Proof.
  destruct (scrapeReikiPractitioners reiki_four_regions crowd_schedule) as [[rs|]|] eqn:E.
  2,3: exfalso; vm_compute in E; discriminate.
  exists rs. split; [reflexivity|].
  destruct (X12_reiki_records _ _ _ E) as [_ Hm].
  split; [|exact Hm].
  vm_compute in E. injection E as <-. reflexivity.
Defined.

End ReikiRecords.

(* ===================================================================== *)
(** ** The rows and the requests of the dentist scraper *)
(* ===================================================================== *)

Section DentistRows.

Import Dentists DentistNotions.

Lemma dentist_extractor_ok (get : jsstring -> outcome axios_data) (url : jsstring) :
  exists r, scrapeWebsiteForEmail get url = Ok r.
Proof.
  unfold scrapeWebsiteForEmail.
  destruct (negb (truthy url)); [eexists; reflexivity|].
  destruct (get url) as [[body|]|e]; cbn [bind try_catch]; try (eexists; reflexivity).
  destruct (str_match emailRegex body) as [ms|]; [|eexists; reflexivity].
  destruct (find _ ms) as [e|]; [|eexists; reflexivity].
  destruct (truthy e); eexists; reflexivity.
Qed.

Lemma number_app (W : world) (a b : list container) :
  forall i, number W i (a ++ b) = number W i a ++ number W (i + length a) b.
Proof.
  induction a as [|p a IH]; intro i; cbn [number app length].
  - rewrite Nat.add_0_r. reflexivity.
  - rewrite IH, Nat.add_succ_r. reflexivity.
Qed.

Lemma length_number (W : world) (ps : list container) :
  forall i, length (number W i ps) = length ps.
Proof. induction ps as [|p ps IH]; intro i; cbn; [|rewrite IH]; reflexivity. Qed.

Lemma website_number (W : world) (ps : list container) :
  forall i, List.map website (number W i ps) = List.map site ps.
Proof. induction ps as [|p ps IH]; intro i; cbn; [|rewrite IH]; reflexivity. Qed.

Lemma index_number (W : world) (ps : list container) :
  forall i, List.map index (number W i ps) = seq i (length (number W i ps)).
Proof.
  induction ps as [|p ps IH]; intro i; cbn [number List.map length seq index record_of];
    [|rewrite IH]; reflexivity.
Qed.

Lemma requested_app (a b : list fetch) : requested (a ++ b) = requested a ++ requested b.
Proof. unfold requested. apply flat_map_app. Qed.

Lemma loads_app (a b : list fetch) : loads (a ++ b) = loads a + loads b.
Proof. unfold loads. rewrite map_app, list_sum_app. reflexivity. Qed.

Lemma loads_listing (city : jsstring) (attempt n : nat) (tr : list fetch) :
  loads (Listing city attempt n :: tr) = S (loads tr).
Proof. reflexivity. Qed.

(** The loop over the containers of a page, with room for [k] records. *)
Lemma scrape_listings_rows (W : world) (parents : list container) :
  forall k sh,
    length (results sh) + k = cap -> 0 < k ->
    next_index sh = S (length (results sh)) ->
    exists sh' tr,
      scrape_listings W parents sh = ((Ok tt, sh'), tr)
      /\ results sh' = results sh ++ number W (next_index sh) (firstn k parents)
      /\ next_index sh' = S (length (results sh'))
      /\ requested tr = filter truthy (List.map site (firstn k parents))
      /\ loads tr = 0.
Proof.
  induction parents as [|parent rest IH]; intros k sh Hk Hpos Hn.
  - exists sh, []. rewrite firstn_nil. cbn [scrape_listings number]. rewrite app_nil_r.
    repeat split; auto.
  - destruct k as [|k]; [lia|]. cbn [scrape_listings firstn number List.map filter].
    fold (site parent).
    set (r := record_of W (next_index sh) parent).
    assert (Hstep : forall fetched email,
              (if truthy (site parent)
               then match scrapeWebsiteForEmail (axios_get W) (site parent) with
                    | Ok e => e
                    | Throw _ => None
                    end
               else Some []) = email ->
              requested fetched = (if truthy (site parent) then [site parent] else []) ->
              loads fetched = 0 ->
              exists sh' tr,
                (let sh1 :=
                   Shared (results sh ++
                             [Record_ (next_index sh) (trim (c_headline parent)) []
                                (middot_field (c_firstOfLast parent))
                                (middot_field (c_lastOfLast parent))
                                email (site parent) (c_href parent)])
                          (S (next_index sh)) in
                 if cap <=? length (results sh1) then ((Ok tt, sh1), fetched)
                 else let '(r0, more) := scrape_listings W rest sh1 in (r0, fetched ++ more))
                = ((Ok tt, sh'), tr)
                /\ results sh' = results sh ++ r :: number W (S (next_index sh)) (firstn k rest)
                /\ next_index sh' = S (length (results sh'))
                /\ requested tr
                   = (if truthy (site parent) then [site parent] else [])
                       ++ filter truthy (List.map site (firstn k rest))
                /\ loads tr = 0).
    { intros fetched email He Hreq Hl. cbv zeta. cbn [results].
      assert (Hlen : length (results sh ++
                               [Record_ (next_index sh) (trim (c_headline parent)) []
                                  (middot_field (c_firstOfLast parent))
                                  (middot_field (c_lastOfLast parent))
                                  email (site parent) (c_href parent)])
                     = S (length (results sh))).
      { rewrite length_app. cbn. lia. }
      rewrite Hlen.
      assert (Hr : Record_ (next_index sh) (trim (c_headline parent)) []
                     (middot_field (c_firstOfLast parent))
                     (middot_field (c_lastOfLast parent))
                     email (site parent) (c_href parent) = r).
      { unfold r, record_of. rewrite He. reflexivity. }
      rewrite Hr in *.
      destruct (cap <=? S (length (results sh))) eqn:E.
      - apply Nat.leb_le in E. assert (k = 0) by lia. subst k.
        eexists _, _. split; [reflexivity|]. cbn [firstn number List.map filter results next_index].
        rewrite Hlen, app_nil_r. repeat split; auto.
      - apply Nat.leb_gt in E.
        destruct (IH k (Shared (results sh ++ [r]) (S (next_index sh))))
          as (sh' & tr & Hs & Hres & Hnx & Hrq & Hld).
        + cbn [results]. rewrite Hlen. lia.
        + lia.
        + cbn [results next_index]. rewrite Hlen, Hn. reflexivity.
        + rewrite Hs. exists sh', (fetched ++ tr). split; [reflexivity|].
          cbn [results next_index] in Hres. rewrite <- app_assoc in Hres.
          split; [exact Hres|]. split; [exact Hnx|].
          rewrite requested_app, loads_app, Hreq, Hrq, Hl, Hld. split; reflexivity. }
    destruct (truthy (site parent)) eqn:Et.
    + destruct (dentist_extractor_ok (axios_get W) (site parent)) as [e He].
      rewrite He. rewrite He in Hstep.
      destruct (Hstep [Website (site parent) (length (results sh))] e)
        as (sh' & tr & Hs & H); [reflexivity | reflexivity | reflexivity |].
      exists sh', tr. split; [exact Hs | exact H].
    + destruct (Hstep [] (Some [])) as (sh' & tr & Hs & H);
        [reflexivity | reflexivity | reflexivity |].
      exists sh', tr. split; [exact Hs | exact H].
Qed.

(** The two attempts of a city. *)
Lemma scrape_city_rows (W : world) (city : jsstring) (k : nat) (sh : shared) :
  length (results sh) + k = cap -> 0 < k ->
  next_index sh = S (length (results sh)) ->
  exists sh' tr,
    scrape_city W city 2 0 sh = (sh', tr)
    /\ results sh' = results sh ++ number W (next_index sh) (firstn k (city_parents W city))
    /\ next_index sh' = S (length (results sh'))
    /\ requested tr = filter truthy (List.map site (firstn k (city_parents W city)))
    /\ loads tr <= 2.
Proof.
  intros Hk Hpos Hn.
  assert (Hcap : (cap <=? length (results sh)) = false) by (apply Nat.leb_gt; lia).
  unfold city_parents. cbn [scrape_city].
  destruct (load_listings W city 1) as [parents|e1].
  - destruct (scrape_listings_rows W parents k sh Hk Hpos Hn)
      as (sh' & tr & Hs & Hres & Hnx & Hrq & Hld).
    rewrite Hs. eexists _, _. split; [reflexivity|].
    split; [exact Hres|]. split; [exact Hnx|]. split; [exact Hrq|].
    rewrite !loads_listing, Hld. lia.
  - rewrite Hcap.
    destruct (load_listings W city 2) as [parents|e2].
    + destruct (scrape_listings_rows W parents k sh Hk Hpos Hn)
        as (sh' & tr & Hs & Hres & Hnx & Hrq & Hld).
      rewrite Hs. eexists _, _. split; [reflexivity|].
      split; [exact Hres|]. split; [exact Hnx|]. split; [exact Hrq|].
      rewrite !loads_listing, Hld. lia.
    + eexists _, _. split; [reflexivity|].
      rewrite firstn_nil. cbn [number List.map filter]. rewrite app_nil_r.
      repeat split; auto.
Qed.

Lemma firstn_app_short {A} (k : nat) (a b : list A) :
  length a <= k -> firstn k (a ++ b) = a ++ firstn (k - length a) b.
Proof.
  intro H. rewrite firstn_app.
  rewrite firstn_all2 by exact H. reflexivity.
Qed.

Lemma firstn_app_full {A} (k : nat) (a b : list A) :
  k <= length (firstn k a) -> firstn k (a ++ b) = firstn k a.
Proof.
  intro H. rewrite firstn_app. rewrite length_firstn in H.
  replace (k - length a) with 0 by lia. cbn. apply app_nil_r.
Qed.

(** The loop over the cities. *)
Lemma scrape_cities_rows (W : world) (cs : list jsstring) :
  forall k sh,
    length (results sh) + k = cap -> 0 < k ->
    next_index sh = S (length (results sh)) ->
    exists sh' tr,
      scrape_cities W cs sh = (sh', tr)
      /\ results sh'
         = results sh ++ number W (next_index sh) (firstn k (flat_map (city_parents W) cs))
      /\ requested tr
         = filter truthy (List.map site (firstn k (flat_map (city_parents W) cs)))
      /\ loads tr <= 2 * length cs.
Proof.
  induction cs as [|city rest IH]; intros k sh Hk Hpos Hn.
  - exists sh, []. cbn [scrape_cities flat_map]. rewrite firstn_nil. cbn [number].
    rewrite app_nil_r. repeat split; auto.
  - cbn [scrape_cities flat_map].
    destruct (scrape_city_rows W city k sh Hk Hpos Hn)
      as (sh1 & tr1 & Hs & Hres & Hnx & Hrq & Hld).
    rewrite Hs.
    assert (Hlen : length (results sh1)
                   = length (results sh) + length (firstn k (city_parents W city))).
    { rewrite Hres, length_app, length_number. reflexivity. }
    pose proof (firstn_le_length k (city_parents W city)) as Hle.
    destruct (cap <=? length (results sh1)) eqn:E.
    + apply Nat.leb_le in E.
      exists sh1, tr1. split; [reflexivity|].
      rewrite firstn_app_full by lia.
      split; [exact Hres|]. split; [exact Hrq|]. cbn [length]. lia.
    + apply Nat.leb_gt in E.
      assert (Hshort : length (city_parents W city) < k).
      { rewrite length_firstn in Hlen. lia. }
      assert (Hall : firstn k (city_parents W city) = city_parents W city)
        by (apply firstn_all2; lia).
      rewrite Hall in *.
      destruct (IH (k - length (city_parents W city)) sh1)
        as (sh2 & tr2 & Hs2 & Hres2 & Hrq2 & Hld2); [lia | lia | exact Hnx |].
      rewrite Hs2. exists sh2, (tr1 ++ tr2). split; [reflexivity|].
      rewrite firstn_app_short by lia.
      rewrite number_app, map_app, filter_app, requested_app, loads_app.
      split.
      * rewrite Hres2, Hres, <- app_assoc. do 2 f_equal.
        rewrite Hnx, Hres, length_app, length_number, Hn. cbn [Nat.add]. reflexivity.
      * split; [rewrite Hrq, Hrq2; reflexivity | cbn [length]; lia].
Qed.

Lemma scrapeDentists_rows (W : world) (cs : list jsstring) (rs : list record) :
  fst (scrapeDentists_from W cs) = Ok rs ->
  rs = number W 1 (firstn cap (flat_map (city_parents W) cs))
  /\ requested (snd (scrapeDentists_from W cs)) = filter truthy (List.map website rs)
  /\ loads (snd (scrapeDentists_from W cs)) <= 2 * length cs.
Proof.
  unfold scrapeDentists_from.
  destruct (launch W); [|discriminate].
  destruct (scrape_cities_rows W cs cap (Shared [] 1))
    as (sh & tr & Hs & Hres & Hrq & Hld); [reflexivity | unfold cap; lia | reflexivity |].
  rewrite Hs. cbn [fst snd].
  destruct (browser_close W); cbn [bind]; [|discriminate].
  intro H. injection H as <-. cbn [results next_index app] in Hres.
  rewrite Hres, website_number. repeat split; assumption.
Qed.

(** X14.  The rows that the dentist scraper returns are the containers of
    the cities, in the order of the cities and of the page, each city with
    the containers of the first of its two attempts that loads, cut after
    500, and numbered from 1; so there are at most 500 rows and a container
    after the 500th is dropped. *)
Theorem X14_dentist_rows (W : world) (cs : list jsstring) (rs : list record) :
  fst (scrapeDentists_from W cs) = Ok rs ->
  rs = number W 1 (firstn 500 (flat_map (city_parents W) cs))
  /\ length rs = Nat.min 500 (length (flat_map (city_parents W) cs))
  /\ List.map index rs = seq 1 (length rs).
Proof.
  intro H. apply scrapeDentists_rows in H as [-> _].
  change cap with 500. split; [reflexivity|].
  split; [rewrite length_number, length_firstn; reflexivity | apply index_number].
Qed.

Lemma X14_dentist_rows_witness :
  exists rs,
    fst (scrapeDentists dentists_two_cities) = Ok rs
    /\ List.map clinicName rs = [js "Clinic A"; js "Clinic B"; js "Clinic C"]
    /\ List.map index rs = seq 1 (length rs).
Proof.
  destruct (fst (scrapeDentists dentists_two_cities)) as [rs|] eqn:E.
  2: exfalso; vm_compute in E; discriminate.
  exists rs. split; [reflexivity|].
  destruct (X14_dentist_rows dentists_two_cities cities rs E) as (_ & _ & Hi).
  split; [|exact Hi].
  vm_compute in E. injection E as <-. reflexivity.
Defined.

End DentistRows.

(* ===================================================================== *)
(** ** Targets, fields and the malformed mailto link *)
(* ===================================================================== *)

Section TargetsAndFields.

Lemma m_here_slash_one (i : nat) : m_here Reiki.trailing_slash i [code "/"] = Some 1.
Proof. reflexivity. Qed.

Lemma m_here_slash_none (i : nat) (s : jsstring) :
  s <> [code "/"] -> m_here Reiki.trailing_slash i s = None.
Proof.
  intro H. unfold m_here, Reiki.trailing_slash.
  cbn [bol andb ignoreCase eol atoms lit m_atoms cls rmin rmax].
  destruct s as [|c [|c2 s]]; cbn [greedy].
  - reflexivity.
  - assert (Hc : in_class false (pos [ch "/"]) c = false).
    { unfold in_class, in_ranges, pos, ch. cbn.
      destruct (N.leb_spec 47 c), (N.leb_spec c 47); cbn; try reflexivity.
      exfalso. apply H. f_equal. cbn. lia. }
    rewrite Hc. reflexivity.
  - destruct (in_class false (pos [ch "/"]) c && below (Some 1) 0); [|reflexivity].
    replace (in_class false (pos [ch "/"]) c2 && below (Some 1) 1) with false
      by (rewrite andb_false_r; reflexivity).
    reflexivity.
Qed.

Lemma exec_slash_last (u : jsstring) :
  forall i, exec_at Reiki.trailing_slash i (u ++ [code "/"]) = Some (i + length u, 1).
Proof.
  induction u as [|c u IH]; intro i.
  - cbn [app exec_at length]. rewrite m_here_slash_one, Nat.add_0_r. reflexivity.
  - cbn [app exec_at length]. rewrite m_here_slash_none.
    + rewrite IH. f_equal. f_equal. lia.
    + destruct u; discriminate.
Qed.

Lemma exec_slash_none (u : jsstring) :
  last u 0%N <> code "/" -> forall i, exec_at Reiki.trailing_slash i u = None.
Proof.
  induction u as [|c u IH]; intros H i.
  - reflexivity.
  - cbn [exec_at]. rewrite m_here_slash_none.
    + apply IH. destruct u as [|c2 u]; [cbn; discriminate | exact H].
    + intro E. injection E as -> ->. apply H. reflexivity.
Qed.

(** X13.  The targets of the Reiki extractor: the empty path leaves the
    address as it is, a trailing slash included; any other path is appended
    after the last slash of an address that ends in one has been dropped
    (only that one), and directly to an address that does not end in a
    slash. *)
Theorem X13_target_url (u p : jsstring) :
  p <> [] ->
  Reiki.targetUrl u [] = u
  /\ Reiki.targetUrl (u ++ [code "/"]) p = u ++ p
  /\ (last u 0%N <> code "/" -> Reiki.targetUrl u p = u ++ p).
Proof.
  intro Hp. unfold Reiki.targetUrl.
  destruct p as [|c p]; [congruence|]. cbn [truthy].
  split; [reflexivity|]. unfold replace_re. split.
  - rewrite exec_slash_last. cbn [Nat.add app].
    rewrite firstn_app, firstn_all, Nat.sub_diag. cbn [firstn].
    rewrite skipn_all2 by (rewrite length_app; cbn; lia).
    rewrite !app_nil_r. reflexivity.
  - intro H. rewrite exec_slash_none by exact H. reflexivity.
Qed.

Lemma X13_target_url_witness :
  Reiki.targetUrl (js "https://reiki.uk/") [] = js "https://reiki.uk/"
  /\ Reiki.targetUrl (js "https://reiki.uk/") (js "/contact") = js "https://reiki.uk/contact"
  /\ Reiki.targetUrl (js "https://reiki.uk//") (js "/contact") = js "https://reiki.uk//contact".
Proof.
  assert (Hp : js "/contact" <> []) by discriminate.
  destruct (X13_target_url (js "https://reiki.uk") (js "/contact") Hp) as (_ & H2 & _).
  destruct (X13_target_url (js "https://reiki.uk/") (js "/contact") Hp) as (H1 & H3 & _).
  repeat split; assumption.
Defined.

(** X16.  The address and the phone of a row are read from a line of the
    listing block: a line without a middle dot gives the empty field;
    otherwise the field is what stands between the first middle dot and the
    second one, or the end of the line, without the white space around
    it. *)
Theorem X16_middot_field (a b rest : jsstring) :
  ~ In 183%N a -> ~ In 183%N b ->
  middot_field a = []
  /\ middot_field (a ++ 183%N :: b) = trim b
  /\ middot_field (a ++ 183%N :: b ++ 183%N :: rest) = trim b.
Proof.
  intros Ha Hb. unfold middot_field.
  rewrite (split_none _ _ Ha).
  rewrite (split_before _ a b Ha), (split_none _ _ Hb).
  rewrite (split_before _ a (b ++ 183%N :: rest) Ha), (split_before _ b rest Hb).
  cbn [nth_error]. rewrite or_else_nil. repeat split; reflexivity.
Qed.

Lemma X16_middot_field_witness :
  middot_field (js "Dentist") = []
  /\ middot_field (js "Dentist " ++ 183%N :: js " Fo utca 1 ") = js "Fo utca 1"
  /\ middot_field (js "Dentist " ++ 183%N :: js " Fo utca 1 " ++ 183%N :: js " Open")
     = js "Fo utca 1".
Proof.
  assert (Ha : ~ In 183%N (js "Dentist")) by (intro H; vm_compute in H; repeat (destruct H as [H|H]; [discriminate|]); exact H).
  assert (Ha' : ~ In 183%N (js "Dentist ")) by (intro H; vm_compute in H; repeat (destruct H as [H|H]; [discriminate|]); exact H).
  assert (Hb : ~ In 183%N (js " Fo utca 1 ")) by (intro H; vm_compute in H; repeat (destruct H as [H|H]; [discriminate|]); exact H).
  destruct (X16_middot_field (js "Dentist") (js " Fo utca 1 ") [] Ha Hb) as (H1 & _ & _).
  destruct (X16_middot_field (js "Dentist ") (js " Fo utca 1 ") (js " Open") Ha' Hb)
    as (_ & H2 & H3).
  split; [exact H1|]. split; [rewrite H2 | rewrite H3]; vm_compute; reflexivity.
Defined.

Lemma mailto_address_empty : Places.mailto_address [] = Ok [].
Proof. reflexivity. Qed.

(** X17.  The Places extractor never throws.  An answer that is not ok
    gives null; and when the target of the first mailto link cannot be
    decoded, the result is null whatever the markup contains: the text of
    the page is not searched. *)
Theorem X17_places_extractor_failures (fetch : jsstring -> outcome Places.response)
    (u : jsstring) (res : Places.response) :
  u <> [] ->
  fetch (Places.normalize u) = Ok res ->
  (forall f url, exists r, Places.extractEmailFromWebsite f url = Ok r)
  /\ (Places.ok res = false -> Places.extractEmailFromWebsite fetch (Some u) = Ok None)
  /\ (forall html h rest e,
        Places.ok res = true ->
        Places.text res = Ok html ->
        Places.mailto_hrefs res = h :: rest ->
        Places.mailto_address h = Throw e ->
        Places.extractEmailFromWebsite fetch (Some u) = Ok None).
Proof.
  intros Hu Hf. split; [|split].
  - intros f url. unfold Places.extractEmailFromWebsite.
    destruct url as [url|]; [|eexists; reflexivity].
    destruct (negb (truthy url)); [eexists; reflexivity|].
    destruct (bind (f (Places.normalize url)) _) as [r|e]; eexists; reflexivity.
  - intro Hok. unfold Places.extractEmailFromWebsite.
    destruct u as [|c u]; [congruence|]. cbn [truthy negb].
    rewrite Hf. cbn [bind]. rewrite Hok. reflexivity.
  - intros html h rest e Hok Ht Hh Ha. unfold Places.extractEmailFromWebsite.
    destruct u as [|c u]; [congruence|]. cbn [truthy negb].
    rewrite Hf. cbn [bind]. rewrite Hok, Ht. cbn [negb bind].
    unfold Places.extract_from. rewrite Hh.
    destruct h as [|c' h]; [rewrite mailto_address_empty in Ha; discriminate|].
    cbn [truthy]. rewrite Ha. reflexivity.
Qed.

Lemma X17_places_extractor_failures_witness :
  Places.extractEmailFromWebsite
    (Worlds.site_of [(js "http://site.org", EdgeWorlds.broken_mailto)])
    (Some (js "site.org")) = Ok None
  /\ matches Places.emailRegex
       (js "<p>info@site.org</p><a href='mailto:100%'>mail</a>") = [js "info@site.org"].
Proof.
  assert (Hu : js "site.org" <> []) by discriminate.
  destruct (X17_places_extractor_failures
              (Worlds.site_of [(js "http://site.org", EdgeWorlds.broken_mailto)])
              (js "site.org") EdgeWorlds.broken_mailto Hu eq_refl) as (_ & _ & H).
  split.
  - eapply (H _ (js "mailto:100%") [] URIError); reflexivity.
  - vm_compute. reflexivity.
Defined.

End TargetsAndFields.

(* ===================================================================== *)
(** ** The website of a details page *)
(* ===================================================================== *)

Section DetailsPage.

Import Details.

Lemma nullable_lang (ic : bool) (r : re) : nullable r = true <-> lang ic r [].
Proof.
  split.
  - induction r as [| |cc|r1 IH1 r2 IH2|r1 IH1 r2 IH2|r IH]; cbn [nullable]; intro H;
      try discriminate.
    + constructor.
    + apply andb_true_iff in H as [H1 H2].
      change (@nil N) with (@nil N ++ []). constructor; auto.
    + apply orb_true_iff in H as [H|H]; [apply LAltL | apply LAltR]; auto.
    + constructor.
  - intro H. remember [] as w eqn:Ew.
    induction H as [|cc c Hc|r s u v H1 IH1 H2 IH2|r s u H IH|r s u H IH|r
                    |r u v H1 IH1 H2 IH2]; cbn [nullable]; try reflexivity.
    + discriminate.
    + apply app_eq_nil in Ew as [-> ->]. rewrite IH1, IH2; reflexivity.
    + rewrite IH by exact Ew. reflexivity.
    + rewrite IH by exact Ew. apply orb_true_r.
Qed.

Lemma lang_deriv (ic : bool) (r : re) (w : jsstring) :
  lang ic r w -> forall c s, w = c :: s -> lang ic (deriv ic c r) s.
Proof.
  induction 1 as [|cc x Hx|r s u v H1 IH1 H2 IH2|r s u H IH|r s u H IH|r
                  |r u v H1 IH1 H2 IH2]; intros c t E; cbn [deriv].
  - discriminate.
  - injection E as -> <-. rewrite Hx. constructor.
  - destruct u as [|c' u'].
    + cbn [app] in E. subst v.
      apply (proj2 (nullable_lang ic r)) in H1. rewrite H1.
      apply LAltR. apply IH2. reflexivity.
    + cbn [app] in E. injection E as -> <-.
      assert (Hcat : lang ic (Cat (deriv ic c r) s) (u' ++ v)).
      { constructor; [apply IH1; reflexivity | exact H2]. }
      destruct (nullable r); [apply LAltL|]; exact Hcat.
  - apply LAltL. apply IH. exact E.
  - apply LAltR. apply IH. exact E.
  - discriminate.
  - destruct u as [|c' u'].
    + cbn [app] in E. apply (IH2 _ _ E).
    + cbn [app] in E. injection E as -> <-.
      constructor; [apply IH1; reflexivity | exact H2].
Qed.

Lemma deriv_lang (ic : bool) (c : N) (r : re) :
  forall s, lang ic (deriv ic c r) s -> lang ic r (c :: s).
Proof.
  induction r as [| |cc|r1 IH1 r2 IH2|r1 IH1 r2 IH2|r IH]; intros s H; cbn [deriv] in H.
  - inversion H.
  - inversion H.
  - destruct (in_class ic cc c) eqn:E; inversion H; subst. constructor. exact E.
  - assert (Hcat : forall t, lang ic (Cat (deriv ic c r1) r2) t -> lang ic (Cat r1 r2) (c :: t)).
    { intros t Ht. inversion Ht; subst.
      change (c :: u ++ v) with ((c :: u) ++ v). constructor; auto. }
    destruct (nullable r1) eqn:En; [|apply Hcat; exact H].
    inversion H; subst; [apply Hcat; assumption|].
    change (c :: s) with ([] ++ c :: s). constructor; [|auto].
    apply nullable_lang. exact En.
  - inversion H; subst; [apply LAltL | apply LAltR]; auto.
  - inversion H; subst.
    change (c :: u ++ v) with ((c :: u) ++ v). constructor; auto.
Qed.

(** The test by derivatives decides the language of the pattern. *)
Lemma full_match_lang (ic : bool) (s : jsstring) :
  forall r, full_match ic r s = true <-> lang ic r s.
Proof.
  unfold full_match. induction s as [|c s IH]; intro r; cbn [fold_left].
  - apply nullable_lang.
  - rewrite IH. split; [apply deriv_lang|].
    intro H. apply (lang_deriv ic r _ H). reflexivity.
Qed.

Lemma hd_filter_find {A} (p : A -> bool) (l : list A) :
  find p l = match filter p l with x :: _ => Some x | [] => None end.
Proof.
  induction l as [|x l IH]; [reflexivity|]. cbn. destruct (p x); [reflexivity | exact IH].
Qed.

(** X18.  The website that a details page yields is empty or a whole match
    of [urlRegex]; it is empty when the page cannot be loaded or read. *)
Theorem X18_details_result (goto : outcome unit) (content : outcome dom) :
  (scrapeListingDetails goto content = []
   \/ lang true urlRegex (scrapeListingDetails goto content))
  /\ (forall e, goto = Throw e -> scrapeListingDetails goto content = [])
  /\ (forall e, content = Throw e -> scrapeListingDetails goto content = []).
Proof.
  split; [|split].
  - unfold scrapeListingDetails.
    destruct (bind goto (fun _ => content)) as [d|e]; [|left; reflexivity].
    cbv zeta.
    match goal with
    | |- context [if truthy ?w && negb (url_test ?w) then _ else _] =>
        generalize w; intro website
    end.
    destruct website as [|c w]; [left; reflexivity|]. cbn [truthy andb].
    destruct (url_test (c :: w)) eqn:E; cbn [negb]; [right | left; reflexivity].
    apply full_match_lang. exact E.
  - intros e ->. reflexivity.
  - intros e ->. unfold scrapeListingDetails. destruct goto; reflexivity.
Qed.

(** X19.  When the details page has an anchor whose address contains http
    and not google.com, the first such anchor decides alone: its address is
    the website if it is a whole match of [urlRegex], and otherwise there is
    no website, whatever the texts of the page are. *)
Theorem X19_details_link_first (hrefs texts : list jsstring) (h : jsstring) :
  find website_link hrefs = Some h ->
  scrapeListingDetails (Ok tt) (Ok (Dom hrefs texts)) = (if url_test h then h else []).
Proof.
  intro Hf. unfold scrapeListingDetails. cbn [bind anchors divs].
  rewrite hd_filter_find in Hf.
  destruct (filter website_link hrefs) as [|h' rest]; [discriminate|].
  injection Hf as ->. rewrite or_else_nil.
  destruct h as [|c h]; [destruct (url_test []); reflexivity|].
  cbn [truthy andb]. destruct (url_test (c :: h)); reflexivity.
Qed.

Lemma X19_details_link_first_witness :
  scrapeListingDetails (Ok tt)
    (Ok (Dom [js "https://www.google.com/maps"; js "https://reiki.uk:8080/"]
             [js "reiki.uk"])) = []
  /\ scrapeListingDetails (Ok tt)
       (Ok (Dom [js "https://www.google.com/maps"; js "https://reiki.uk/home"]
                [js "other.uk"])) = js "https://reiki.uk/home".
Proof.
  split.
  - rewrite (X19_details_link_first _ _ (js "https://reiki.uk:8080/")); reflexivity.
  - rewrite (X19_details_link_first _ _ (js "https://reiki.uk/home")); reflexivity.
Defined.

Lemma lang_https : lang true scheme (js "https://").
Proof. apply full_match_lang. reflexivity. Qed.

(** X20.  When no anchor qualifies, the website is read from the first div
    whose trimmed text is a whole match of [urlRegex]: a text that starts
    with http is taken as it is (even when it is a bare domain such as
    httpbin.org), and a text without a scheme is given https://.  Without
    such a div there is no website. *)
Theorem X20_details_text (hrefs texts : list jsstring) :
  filter website_link hrefs = [] ->
  (find (fun text => url_test (trim text)) texts = None ->
   scrapeListingDetails (Ok tt) (Ok (Dom hrefs texts)) = [])
  /\ (forall d,
        find (fun text => url_test (trim text)) texts = Some d ->
        (startsWith (trim d) (js "http") = true ->
         scrapeListingDetails (Ok tt) (Ok (Dom hrefs texts)) = trim d)
        /\ (startsWith (trim d) (js "http") = false ->
            lang true host_path (trim d) ->
            scrapeListingDetails (Ok tt) (Ok (Dom hrefs texts)) = js "https://" ++ trim d)).
Proof.
  intro Hno. unfold scrapeListingDetails. cbn [bind anchors divs]. rewrite Hno.
  split.
  - intro Hf. rewrite hd_filter_find in Hf.
    destruct (filter (fun text => url_test (trim text)) texts); [|discriminate].
    reflexivity.
  - intros d Hf. pose proof (find_some _ _ Hf) as [_ Hd].
    rewrite hd_filter_find in Hf.
    destruct (filter (fun text => url_test (trim text)) texts) as [|d' rest]; [discriminate|].
    injection Hf as ->. cbn [hd].
    assert (Ht : truthy (trim d) = true).
    { destruct (trim d); [discriminate | reflexivity]. }
    rewrite Ht. split.
    + intro Hs. rewrite Hs, Ht, Hd. reflexivity.
    + intros Hs Hl. rewrite Hs.
      assert (Hu : url_test (js "https://" ++ trim d) = true).
      { apply full_match_lang. unfold urlRegex. constructor; [exact lang_https | exact Hl]. }
      rewrite Hu. reflexivity.
Qed.

Lemma X20_details_text_witness :
  scrapeListingDetails (Ok tt)
    (Ok (Dom [js "https://maps.google.com/x"] [js "Reiki by Ann"; js "  reiki.uk/ann "]))
  = js "https://reiki.uk/ann"
  /\ scrapeListingDetails (Ok tt) (Ok (Dom [] [js "httpbin.org"])) = js "httpbin.org"
  /\ scrapeListingDetails (Ok tt) (Ok (Dom [] [js "Reiki by Ann"])) = [].
Proof.
  destruct (X20_details_text [js "https://maps.google.com/x"]
              [js "Reiki by Ann"; js "  reiki.uk/ann "] eq_refl) as [_ H1].
  destruct (H1 (js "  reiki.uk/ann ") eq_refl) as [_ H1'].
  destruct (X20_details_text [] [js "httpbin.org"] eq_refl) as [_ H2].
  destruct (H2 (js "httpbin.org") eq_refl) as [H2' _].
  destruct (X20_details_text [] [js "Reiki by Ann"] eq_refl) as [H3 _].
  split; [|split].
  - rewrite H1'; [reflexivity | reflexivity |]. apply full_match_lang. reflexivity.
  - rewrite H2'; reflexivity.
  - apply H3. reflexivity.
Defined.

End DetailsPage.

(* ===================================================================== *)
(** ** The address of a search *)
(* ===================================================================== *)

Section SearchAddress.

Import Search.

Lemma split_cons (sep : N) (s : jsstring) : exists p rest, split sep s = p :: rest.
Proof.
  induction s as [|c s (p & rest & E)]; cbn [split]; [eexists _, _; reflexivity|].
  destruct (N.eqb c sep); [eexists _, _; reflexivity|].
  rewrite E. eexists _, _; reflexivity.
Qed.

Lemma join_cons_char (sep : jsstring) (c : N) (p : jsstring) (rest : list jsstring) :
  Places.join sep ((c :: p) :: rest) = c :: Places.join sep (p :: rest).
Proof. destruct rest; reflexivity. Qed.

Lemma join_split_plus (s : jsstring) :
  Places.join (js "+") (split (code " ") s) = List.map plus_for_space s.
Proof.
  induction s as [|c s IH]; [reflexivity|].
  cbn [split List.map]. unfold plus_for_space at 1.
  destruct (split_cons (code " ") s) as (p & rest & E). rewrite E in *.
  destruct (N.eqb c (code " ")).
  - rewrite <- IH. reflexivity.
  - rewrite join_cons_char, IH. reflexivity.
Qed.

(** X21.  The address of a search is the fixed prefix followed by the
    query in which every space has become a plus sign and every other code
    unit is left as it is (nothing is percent-encoded); it contains no
    space.  So are the addresses of the searches for a country and for a
    city. *)
Theorem X21_search_url (s : jsstring) :
  searchUrl s = js "https://www.google.com/maps/search/" ++ List.map plus_for_space s
  /\ ~ In (code " ") (searchUrl s)
  /\ searchUrl (reiki_query s)
     = js "https://www.google.com/maps/search/Reiki+practitioner+in+"
       ++ List.map plus_for_space s
  /\ searchUrl (dentist_query s)
     = js "https://www.google.com/maps/search/dentist+in+"
       ++ List.map plus_for_space s ++ js ",+Hungary".
Proof.
  unfold searchUrl, reiki_query, dentist_query. rewrite !join_split_plus, !map_app.
  split; [reflexivity|]. split; [|split; reflexivity].
  intro H. apply in_app_or in H as [H|H].
  - vm_compute in H. repeat (destruct H as [H|H]; [discriminate|]). exact H.
  - apply in_map_iff in H as (c & Hc & _). unfold plus_for_space in Hc.
    destruct (N.eqb_spec c (code " ")); [discriminate | congruence].
Qed.

End SearchAddress.

(* ===================================================================== *)
(** ** A failure on a further page *)
(* ===================================================================== *)

Section FurtherPages.

Import Places.

(** X22.  A request for a further page that fails, by a denial or by any
    other exception, ends the pagination of its region only: what the
    region had given is kept, the failure is not reported, and the loop
    goes on with the next region. *)
Theorem X22_further_page_failure_confined (W : world) (loc : location)
    (rest : list location) (m : Map basic) (page : search_json) (tok : jsstring)
    (e : exn) :
  map_size m < cap ->
  textSearch W (ByLocation (loc_q loc)) = Ok page ->
  next_page_token page = Some tok ->
  tok <> [] ->
  textSearch W (ByToken tok) = Throw e ->
  search_regions W (loc :: rest) m
  = (fst (search_regions W rest (record_page m page)),
     SearchCall (loc_name loc) (ByLocation (loc_q loc)) (map_size m) (page_results page)
     :: SearchCall (loc_name loc) (ByToken tok) (map_size (record_page m page)) []
     :: snd (search_regions W rest (record_page m page))).
Proof.
  intros Hlt Hpage Htok Hne Hfail.
  rewrite search_regions_cons. cbv zeta.
  apply Nat.leb_gt in Hlt. rewrite Hlt, Hpage, Htok.
  cbn [next_pages]. destruct tok as [|c tok]; [congruence|]. cbn [truthy].
  rewrite Hfail. cbn [app].
  destruct (search_regions W rest (record_page m page)); reflexivity.
Qed.

Lemma X22_further_page_failure_confined_witness :
  List.map call_region (firstn 3 (searches (main PagedWorlds.places_second_page_fails)))
  = [js "Amsterdam"; js "Amsterdam"; js "Rotterdam"]
  /\ placeIds (main PagedWorlds.places_second_page_fails) = [js "A"; js "B"; js "C"]
  /\ fatal (main PagedWorlds.places_second_page_fails) = None.
Proof.
  assert (Hne : js "t2" <> []) by discriminate.
  pose proof (X22_further_page_failure_confined PagedWorlds.places_second_page_fails
                (Location (js "Amsterdam") (js "52.3676,4.9041")) (skipn 1 LOCATIONS) []
                (Worlds.ok_page Worlds.aba (Some (js "t2"))) (js "t2") NetworkError
                ltac:(unfold map_size, cap; cbn; lia) eq_refl eq_refl Hne eq_refl) as H.
  split; [|split; vm_compute; reflexivity].
  unfold main, main_from.
  change LOCATIONS with (Location (js "Amsterdam") (js "52.3676,4.9041") :: skipn 1 LOCATIONS).
  rewrite H. vm_compute. reflexivity.
Defined.

End FurtherPages.

(* ===================================================================== *)
(** ** The pages of a site, in the order of the paths *)
(* ===================================================================== *)

Section PagesAndPaths.

Import Reiki Pages.
















End PagesAndPaths.

(* ===================================================================== *)
(** ** Requests per region and per city *)
(* ===================================================================== *)

Section PerRegion.

Import Counting.

Lemma count_cons (name x : jsstring) (l : list jsstring) :
  count name (x :: l) = (if str_eqb x name then 1 else 0) + count name l.
Proof. unfold count. cbn [filter]. destruct (str_eqb x name); reflexivity. Qed.

Lemma count_app (name : jsstring) (a b : list jsstring) :
  count name (a ++ b) = count name a + count name b.
Proof. unfold count. rewrite filter_app, length_app. reflexivity. Qed.

Lemma count_absent (name : jsstring) (l : list jsstring) :
  ~ In name l -> count name l = 0.
Proof.
  induction l as [|x l IH]; intro H; [reflexivity|].
  rewrite count_cons. destruct (str_eqb x name) eqn:E.
  - apply str_eqb_eq in E. exfalso. apply H. left. exact E.
  - rewrite IH; [reflexivity|]. intro Hin. apply H. right. exact Hin.
Qed.

Lemma count_NoDup (name : jsstring) (l : list jsstring) : NoDup l -> count name l <= 1.
Proof.
  induction 1 as [|x l Hx Hnd IH]; [cbn; lia|].
  rewrite count_cons. destruct (str_eqb x name) eqn:E; [|exact IH].
  apply str_eqb_eq in E. subst x. rewrite (count_absent _ _ Hx). lia.
Qed.

Ltac distinct_names :=
  repeat (constructor;
          [let H := fresh "H" in
           intro H; vm_compute in H;
           repeat (destruct H as [H|H]; [discriminate H|]); exact H|]);
  constructor.

Lemma LOCATIONS_distinct : NoDup (List.map Places.loc_name Places.LOCATIONS).
Proof. distinct_names. Qed.

Lemma cities_distinct : NoDup Dentists.cities.
Proof. distinct_names. Qed.

Lemma next_pages_calls_for (W : Places.world) (region name : jsstring) (n : nat) :
  forall token m,
    calls_for name (snd (Places.next_pages W region n token m))
    <= if str_eqb region name then n else 0.
Proof.
  unfold calls_for.
  induction n as [|n IH]; intros token m; cbn [Places.next_pages].
  - cbn. destruct (str_eqb region name); lia.
  - assert (H0 : count name [] <= if str_eqb region name then S n else 0)
      by (cbn; destruct (str_eqb region name); lia).
    destruct token as [tok|]; [|exact H0].
    destruct (truthy tok); [|exact H0].
    destruct (Places.textSearch W (Places.ByToken tok)) as [next|e].
    + specialize (IH (Places.next_page_token next) (Places.record_page m next)).
      destruct (Places.next_pages W region n (Places.next_page_token next)
                  (Places.record_page m next)) as [m' calls].
      cbn [snd List.map Places.call_region] in *. rewrite count_cons.
      destruct (str_eqb region name); lia.
    + cbn [snd List.map Places.call_region]. rewrite count_cons. cbn.
      destruct (str_eqb region name); lia.
Qed.

Lemma search_regions_calls_for (W : Places.world) (name : jsstring)
    (locs : list Places.location) :
  forall m, calls_for name (snd (Places.search_regions W locs m)) <= 3 * named name locs.
Proof.
  unfold calls_for, named.
  induction locs as [|loc rest IH]; intro m; [cbn; lia|].
  rewrite search_regions_cons. cbv zeta. cbn [List.map]. rewrite (count_cons name (Places.loc_name loc)).
  destruct (Places.cap <=? Places.map_size m); [cbn; lia|].
  destruct (Places.textSearch W (Places.ByLocation (Places.loc_q loc))) as [page|e].
  - pose proof (next_pages_calls_for W (Places.loc_name loc) name 2
                  (Places.next_page_token page) (Places.record_page m page)) as Hn.
    unfold calls_for in Hn.
    destruct (Places.next_pages W (Places.loc_name loc) 2 (Places.next_page_token page)
                (Places.record_page m page)) as [m1 calls1].
    specialize (IH m1). destruct (Places.search_regions W rest m1) as [r calls2].
    cbn [snd List.map Places.call_region] in *.
    rewrite count_cons, map_app, count_app.
    destruct (str_eqb (Places.loc_name loc) name); lia.
  - cbn [snd List.map Places.call_region]. rewrite count_cons. cbn.
    destruct (str_eqb (Places.loc_name loc) name); lia.
Qed.

Lemma searches_main_from (W : Places.world) (locs : list Places.location) :
  Places.searches (Places.main_from W locs) = snd (Places.search_regions W locs []).
Proof.
  unfold Places.main_from.
  destruct (Places.search_regions W locs []) as [[records|e] calls]; [|reflexivity].
  destruct (Places.pMap _ _); [|reflexivity].
  destruct (Places.write_json W); [|reflexivity].
  destruct (Places.write_csv W); reflexivity.
Qed.

(** X1.  [main] issues at most three text searches for each region (the
    first page and two further pages), whatever the answers are: the
    searches made under the name of a region are at most three times the
    regions of that name, so at most three for each of the fifteen cities
    of the script, whose names are distinct, and at most 45 in all. *)
Theorem X1_search_budget (W : Places.world) (locs : list Places.location) :
  (forall name,
      calls_for name (Places.searches (Places.main_from W locs)) <= 3 * named name locs)
  /\ (forall name, calls_for name (Places.searches (Places.main W)) <= 3)
  /\ length (Places.searches (Places.main_from W locs)) <= 3 * length locs
  /\ length (Places.searches (Places.main W)) <= 45.
Proof.
  split; [|split; [|split]].
  - intro name. rewrite searches_main_from. apply search_regions_calls_for.
  - intro name. unfold Places.main. rewrite searches_main_from.
    pose proof (search_regions_calls_for W name Places.LOCATIONS []) as H.
    pose proof (count_NoDup name _ LOCATIONS_distinct) as H1.
    unfold named in H. lia.
  - rewrite searches_main_from. apply search_regions_budget.
  - unfold Places.main. rewrite searches_main_from.
    apply (search_regions_budget W Places.LOCATIONS []).
Qed.

Lemma scrape_listings_no_loads (W : Dentists.world) (city : jsstring)
    (parents : list Dentists.container) :
  forall sh, loads_of city (snd (Dentists.scrape_listings W parents sh)) = 0.
Proof.
  unfold loads_of, loaded_cities.
  induction parents as [|parent rest IH]; intro sh; [reflexivity|].
  cbn [Dentists.scrape_listings].
  set (website := match Dentists.c_website parent with Some h => or_else h [] | None => [] end).
  destruct (truthy website).
  - destruct (Dentists.scrapeWebsiteForEmail (Dentists.axios_get W) website) as [email|e];
      [|reflexivity].
    destruct (Dentists.cap <=? _); [reflexivity|].
    match goal with |- context [Dentists.scrape_listings W rest ?s] =>
      specialize (IH s); destruct (Dentists.scrape_listings W rest s) as [r more]
    end.
    cbn [snd] in *. rewrite flat_map_app, count_app, IH. reflexivity.
  - destruct (Dentists.cap <=? _); [reflexivity|].
    match goal with |- context [Dentists.scrape_listings W rest ?s] =>
      specialize (IH s); destruct (Dentists.scrape_listings W rest s) as [r more]
    end.
    cbn [snd app] in *. exact IH.
Qed.

Lemma loads_of_listing (city c : jsstring) (attempt n : nat) (tr : list Dentists.fetch) :
  loads_of city (Dentists.Listing c attempt n :: tr)
  = (if str_eqb c city then 1 else 0) + loads_of city tr.
Proof. unfold loads_of, loaded_cities. cbn [flat_map app]. apply count_cons. Qed.

Lemma loads_of_app (city : jsstring) (a b : list Dentists.fetch) :
  loads_of city (a ++ b) = loads_of city a + loads_of city b.
Proof. unfold loads_of, loaded_cities. rewrite flat_map_app. apply count_app. Qed.

Lemma scrape_city_loads_of (W : Dentists.world) (city c : jsstring) (left : nat) :
  forall attempt sh,
    loads_of city (snd (Dentists.scrape_city W c left attempt sh))
    <= if str_eqb c city then left else 0.
Proof.
  induction left as [|left IH]; intros attempt sh; cbn [Dentists.scrape_city].
  - cbn. destruct (str_eqb c city); lia.
  - destruct (Dentists.load_listings W c (S attempt)) as [parents|e].
    + pose proof (scrape_listings_no_loads W city parents sh) as Hl.
      destruct (Dentists.scrape_listings W parents sh) as [[[u|e] sh'] fetched];
        cbn [snd] in Hl.
      * cbn [snd]. rewrite loads_of_listing, Hl. destruct (str_eqb c city); lia.
      * destruct (Dentists.cap <=? length (Dentists.results sh')).
        -- cbn [snd]. rewrite loads_of_listing, Hl. destruct (str_eqb c city); lia.
        -- specialize (IH (S attempt) sh').
           destruct (Dentists.scrape_city W c left (S attempt) sh') as [sh'' more].
           cbn [snd] in *. rewrite loads_of_listing, loads_of_app, Hl.
           destruct (str_eqb c city); lia.
    + destruct (Dentists.cap <=? length (Dentists.results sh)).
      * cbn [snd]. rewrite loads_of_listing. cbn. destruct (str_eqb c city); lia.
      * specialize (IH (S attempt) sh).
        destruct (Dentists.scrape_city W c left (S attempt) sh) as [sh' more].
        cbn [snd] in *. rewrite loads_of_listing. destruct (str_eqb c city); lia.
Qed.

Lemma scrape_cities_loads_of (W : Dentists.world) (city : jsstring) (cs : list jsstring) :
  forall sh,
    loads_of city (snd (Dentists.scrape_cities W cs sh)) <= 2 * count city cs.
Proof.
  induction cs as [|c rest IH]; intro sh; cbn [Dentists.scrape_cities]; [cbn; lia|].
  rewrite count_cons.
  pose proof (scrape_city_loads_of W city c 2 0 sh) as Hc.
  destruct (Dentists.scrape_city W c 2 0 sh) as [sh' fetched]. cbn [snd] in Hc.
  destruct (Dentists.cap <=? length (Dentists.results sh')).
  - cbn [snd]. destruct (str_eqb c city); lia.
  - specialize (IH sh'). destruct (Dentists.scrape_cities W rest sh') as [sh'' more].
    cbn [snd] in *. rewrite loads_of_app. destruct (str_eqb c city); lia.
Qed.

Lemma scrapeDentists_loads_of (W : Dentists.world) (city : jsstring) (cs : list jsstring) :
  loads_of city (snd (Dentists.scrapeDentists_from W cs)) <= 2 * count city cs.
Proof.
  unfold Dentists.scrapeDentists_from.
  destruct (Dentists.launch W); [|cbn; lia].
  pose proof (scrape_cities_loads_of W city cs (Dentists.Shared [] 1)) as H.
  destruct (Dentists.scrape_cities W cs (Dentists.Shared [] 1)) as [sh fetched].
  exact H.
Qed.

(** X15.  The dentist scraper requests exactly the websites of the rows it
    returns that have one, once per row and in the order of the rows, and it
    loads the listing page of a city at most twice: the loads for a city
    are at most twice the occurrences of the city in the list, so at most
    two for each of the six cities of the script, at most twelve in all. *)
Theorem X15_dentist_requests (W : Dentists.world) (cs : list jsstring)
    (rs : list Dentists.record) :
  fst (Dentists.scrapeDentists_from W cs) = Ok rs ->
  DentistNotions.requested (snd (Dentists.scrapeDentists_from W cs))
  = filter truthy (List.map Dentists.website rs)
  /\ (forall city,
        loads_of city (snd (Dentists.scrapeDentists_from W cs)) <= 2 * count city cs)
  /\ (forall city, loads_of city (snd (Dentists.scrapeDentists W)) <= 2)
  /\ DentistNotions.loads (snd (Dentists.scrapeDentists_from W cs)) <= 2 * length cs.
Proof.
  intro H. apply scrapeDentists_rows in H as (_ & H1 & H2).
  split; [exact H1|]. split; [|split; [|exact H2]].
  - intro city. apply scrapeDentists_loads_of.
  - intro city. unfold Dentists.scrapeDentists.
    pose proof (scrapeDentists_loads_of W city Dentists.cities) as Hl.
    pose proof (count_NoDup city _ cities_distinct). lia.
Qed.

Lemma X15_dentist_requests_witness :
  DentistNotions.requested (snd (Dentists.scrapeDentists DentistNotions.dentists_two_cities))
  = [js "https://dental.hu"; js "https://fogaszat.hu"]
  /\ loads_of (js "Budapest") (snd (Dentists.scrapeDentists DentistNotions.dentists_two_cities))
     = 2
  /\ loads_of (js "Debrecen") (snd (Dentists.scrapeDentists DentistNotions.dentists_two_cities))
     <= 2.
Proof.
  destruct (fst (Dentists.scrapeDentists DentistNotions.dentists_two_cities)) as [rs|] eqn:E.
  2: exfalso; vm_compute in E; discriminate.
  destruct (X15_dentist_requests DentistNotions.dentists_two_cities Dentists.cities rs E)
    as (H1 & H2 & H3 & _).
  split; [vm_compute; reflexivity|]. split; [vm_compute; reflexivity|].
  apply H3.
Defined.

End PerRegion.

(* ===================================================================== *)
(** ** The scheme of a fetched address *)
(* ===================================================================== *)

Section FetchedScheme.

Import Schemes.

Lemma m_atoms_lit (ic eol : bool) (cc : cclass) (r : list atom) (s : jsstring) :
  m_atoms ic eol (Atom cc 1 (Some 1) :: r) s
  = match s with
    | c :: s' => if in_class ic cc c then option_map S (m_atoms ic eol r s') else None
    | [] => None
    end.
Proof.
  cbn [m_atoms cls rmin rmax]. destruct s as [|c s']; cbn [greedy]; [reflexivity|].
  destruct (in_class ic cc c); cbn [andb below Nat.ltb Nat.leb]; [|reflexivity].
  destruct s' as [|c2 s'']; cbn [greedy].
  - cbn [Nat.leb]. destruct (m_atoms ic eol r []); reflexivity.
  - rewrite andb_false_r. cbn [Nat.leb].
    destruct (m_atoms ic eol r (c2 :: s'')); reflexivity.
Qed.

Lemma m_atoms_opt (ic eol : bool) (cc : cclass) (r : list atom) (s : jsstring) :
  m_atoms ic eol (Atom cc 0 (Some 1) :: r) s
  = match s with
    | c :: s' =>
        if in_class ic cc c then
          match m_atoms ic eol r s' with
          | Some n => Some (S n)
          | None => m_atoms ic eol r s
          end
        else m_atoms ic eol r s
    | [] => m_atoms ic eol r []
    end.
Proof.
  cbn [m_atoms cls rmin rmax].
  assert (Hk : forall rest, option_map (Nat.add 0) (m_atoms ic eol r rest)
                            = m_atoms ic eol r rest).
  { intro rest. destruct (m_atoms ic eol r rest); reflexivity. }
  destruct s as [|c s']; cbn [greedy Nat.leb]; [apply Hk|].
  destruct (in_class ic cc c); cbn [andb below Nat.ltb Nat.leb]; [|apply Hk].
  destruct s' as [|c2 s'']; cbn [greedy Nat.leb].
  - destruct (m_atoms ic eol r []); [reflexivity | apply Hk].
  - rewrite andb_false_r.
    destruct (m_atoms ic eol r (c2 :: s'')); [reflexivity | apply Hk].
Qed.

Lemma exec_bol_later (r : regex) (s : jsstring) :
  bol r = true -> forall i, exec_at r (S i) s = None.
Proof.
  intro Hb. induction s as [|c s IH]; intro i; cbn [exec_at]; unfold m_here;
    rewrite Hb; cbn [andb negb Nat.eqb]; [reflexivity | apply IH].
Qed.

Lemma test_bol (r : regex) (s : jsstring) :
  bol r = true ->
  test r s = match m_atoms (ignoreCase r) (eol r) (atoms r) s with
             | Some _ => true
             | None => false
             end.
Proof.
  intro Hb. unfold test. destruct s as [|c s]; cbn [exec_at]; unfold m_here;
    rewrite Hb; cbn [andb negb Nat.eqb].
  - destruct (m_atoms _ _ _ []); reflexivity.
  - destruct (m_atoms _ _ _ (c :: s)); [reflexivity|].
    rewrite exec_bol_later by exact Hb. reflexivity.
Qed.

(** Under the [i] flag, a one-letter class that is not an upper-case letter
    holds the code units whose lower-case form is that letter. *)
Lemma class_lower (x c : N) :
  (x < 65 \/ 90 < x)%N ->
  in_class true (pos [(x, x)]) c = N.eqb (lower c) x.
Proof.
  intro Hx. unfold in_class, in_ranges, pos, swapcase, lower.
  cbn [negated ranges existsb fst snd andb].
  destruct (N.leb_spec 65 c), (N.leb_spec c 90), (N.leb_spec 97 c), (N.leb_spec c 122);
    cbn [andb orb];
    repeat match goal with
           | |- context [(?a <=? ?b)%N] => destruct (N.leb_spec a b)
           | |- context [(?a =? ?b)%N] => destruct (N.eqb_spec a b)
           end; cbn [andb orb]; try reflexivity; lia.
Qed.

Lemma some_map (x : option nat) :
  match option_map S x with Some _ => true | None => false end
  = match x with Some _ => true | None => false end.
Proof. destruct x; reflexivity. Qed.

(** The end of the pattern: a colon and two slashes. *)
Lemma colon_slashes (s : jsstring) :
  match m_atoms true false
          [Atom (pos [(58%N, 58%N)]) 1 (Some 1); Atom (pos [(47%N, 47%N)]) 1 (Some 1);
           Atom (pos [(47%N, 47%N)]) 1 (Some 1)] s with
  | Some _ => true
  | None => false
  end = startsWith (List.map lower s) [58; 47; 47]%N.
Proof.
  rewrite m_atoms_lit.
  destruct s as [|d1 s]; [reflexivity|]. cbn [List.map startsWith].
  rewrite class_lower by lia. rewrite (N.eqb_sym 58).
  destruct (N.eqb_spec (lower d1) 58); cbn [andb]; [|reflexivity].
  rewrite some_map, m_atoms_lit.
  destruct s as [|d2 s]; [reflexivity|]. cbn [List.map startsWith].
  rewrite class_lower by lia. rewrite (N.eqb_sym 47).
  destruct (N.eqb_spec (lower d2) 47); cbn [andb]; [|reflexivity].
  rewrite some_map, m_atoms_lit.
  destruct s as [|d3 s]; [reflexivity|]. cbn [List.map startsWith].
  rewrite class_lower by lia. rewrite (N.eqb_sym 47).
  destruct (N.eqb_spec (lower d3) 47); cbn [andb]; [destruct s|]; reflexivity.
Qed.

Lemma test_has_scheme (u : jsstring) : test Places.http_scheme u = has_scheme u.
Proof.
  rewrite test_bol by reflexivity.
  change (atoms Places.http_scheme)
    with [Atom (pos [(104%N, 104%N)]) 1 (Some 1); Atom (pos [(116%N, 116%N)]) 1 (Some 1);
          Atom (pos [(116%N, 116%N)]) 1 (Some 1); Atom (pos [(112%N, 112%N)]) 1 (Some 1);
          Atom (pos [(115%N, 115%N)]) 0 (Some 1); Atom (pos [(58%N, 58%N)]) 1 (Some 1);
          Atom (pos [(47%N, 47%N)]) 1 (Some 1); Atom (pos [(47%N, 47%N)]) 1 (Some 1)].
  change (ignoreCase Places.http_scheme) with true.
  change (eol Places.http_scheme) with false.
  unfold has_scheme.
  change (js "http://") with [104; 116; 116; 112; 58; 47; 47]%N.
  change (js "https://") with [104; 116; 116; 112; 115; 58; 47; 47]%N.
  rewrite m_atoms_lit.
  destruct u as [|c1 u]; [reflexivity|]. cbn [List.map startsWith].
  rewrite class_lower by lia. rewrite (N.eqb_sym 104).
  destruct (N.eqb_spec (lower c1) 104); cbn [andb orb]; [|reflexivity].
  rewrite some_map, m_atoms_lit.
  destruct u as [|c2 u]; [reflexivity|]. cbn [List.map startsWith].
  rewrite class_lower by lia. rewrite (N.eqb_sym 116).
  destruct (N.eqb_spec (lower c2) 116); cbn [andb orb]; [|reflexivity].
  rewrite some_map, m_atoms_lit.
  destruct u as [|c3 u]; [reflexivity|]. cbn [List.map startsWith].
  rewrite class_lower by lia. rewrite (N.eqb_sym 116).
  destruct (N.eqb_spec (lower c3) 116); cbn [andb orb]; [|reflexivity].
  rewrite some_map, m_atoms_lit.
  destruct u as [|c4 u]; [reflexivity|]. cbn [List.map startsWith].
  rewrite class_lower by lia. rewrite (N.eqb_sym 112).
  destruct (N.eqb_spec (lower c4) 112); cbn [andb orb]; [|reflexivity].
  rewrite some_map, m_atoms_opt.
  destruct u as [|c5 u]; [rewrite (colon_slashes []); reflexivity|].
  pose proof (colon_slashes u) as Hu. pose proof (colon_slashes (c5 :: u)) as Hcu.
  rewrite class_lower by lia.
  change (startsWith (List.map lower (c5 :: u)) [115; 58; 47; 47]%N)
    with (N.eqb 115 (lower c5) && startsWith (List.map lower u) [58; 47; 47]%N).
  rewrite (N.eqb_sym 115).
  destruct (N.eqb_spec (lower c5) 115) as [E5|E5]; cbn [andb orb].
  - assert (Hno : startsWith (List.map lower (c5 :: u)) [58; 47; 47]%N = false)
      by (cbn [List.map startsWith]; rewrite E5; reflexivity).
    rewrite Hno in Hcu |- *. cbn [orb]. rewrite <- Hu.
    destruct (m_atoms true false _ u); [reflexivity | exact Hcu].
  - rewrite orb_false_r. exact Hcu.
Qed.

(** X7.  The address that [extractEmailFromWebsite] fetches always carries
    an http or https scheme: an address that starts with http:// or
    https://, in any letter case, is left as it is; any other address gets
    http:// in front of it; normalizing twice changes nothing more. *)
Theorem X7_normalize_scheme (u : jsstring) :
  Places.normalize u = (if has_scheme u then u else js "http://" ++ u)
  /\ has_scheme (Places.normalize u) = true
  /\ test Places.http_scheme (Places.normalize u) = true
  /\ Places.normalize (Places.normalize u) = Places.normalize u
  /\ Places.normalize (js "HTTPS://" ++ u) = js "HTTPS://" ++ u.
Proof.
  assert (H : test Places.http_scheme (Places.normalize u) = true).
  { unfold Places.normalize. destruct (test Places.http_scheme u) eqn:E; cbn [negb];
      [exact E | apply http_scheme_prefix]. }
  split; [|split; [|split; [exact H|split]]].
  - unfold Places.normalize. rewrite test_has_scheme.
    destruct (has_scheme u); reflexivity.
  - rewrite <- test_has_scheme. exact H.
  - unfold Places.normalize at 1. rewrite H. reflexivity.
  - unfold Places.normalize. rewrite https_scheme_upper. reflexivity.
Qed.

End FetchedScheme.
